(** * nebula-hand: the particle engine and the body selection policy

    A shallow embedding of [src/components/ParticleSystem.tsx] (palette
    sampler, target-cloud and origin-cloud generation, per-frame animation),
    of [changeCelestialBody], [handleHandUpdate], [toggleMute] and the
    cooldown of [triggerNewPhrase] in the [App] component ([src/data.ts]),
    of the hand reading [predict] ([src/hooks/useHandTracking.ts]) and of
    the muting of the audio service ([src/services/audioService.ts]).

    Conventions of the embedding.
    - A finite JavaScript number is idealised as a real number; the three
      non-finite values are kept apart ([number]).  Rounding of the binary64
      and Float32Array representations is not modelled, with one exception:
      the test [k > particlesPerPlanet * 0.7] of the mini planets, on two
      integers, is decided in binary64 ([gt_seven_tenths]), where the
      product 2700 * 0.7 is rounded below 1890.
    - [Math.random()] reads an oracle [rnd : nat -> R]: the k-th call of a run
      returns [rnd k]; the store counts the calls.
    - [THREE.Color] objects are mutable and live in a heap of the store; a
      palette is an array of references into that heap.
    - A [TypeError] (a property read on [undefined]) is an outcome of its own.
    - A division by zero in the particle engine (a descriptor of radius 0)
      is outside the idealisation; the spec gives every descriptor a
      positive radius.  The divisions of the hand reading are modelled with
      their non-finite results ([js_div]). *)

From Stdlib Require Import PrimFloat.
From Stdlib Require Uint63.
From Stdlib Require Import String Reals Lra Lia ZArith Bool Arith List.
Import ListNotations.
Local Open Scope string_scope.
Local Open Scope list_scope.
Local Open Scope R_scope.

(** ** Numbers *)

Inductive number : Type :=
| NaN
| PosInf
| NegInf
| Fin (x : R).

(** [Number.isFinite] *)
Definition isFinite (n : number) : bool :=
  match n with
  | Fin _ => true
  | _ => false
  end.

(** [Math.floor] on a finite number; its value is an integer. *)
Definition Math_floor (x : R) : Z := Int_part x.

(** [Math.floor] on a [number]: non-finite values are returned unchanged by
    JavaScript; [getSafeColor] never passes one. *)
Definition floor_number (n : number) : option Z :=
  match n with
  | Fin x => Some (Math_floor x)
  | _ => None
  end.

(** [Math.trunc], and the remainder operator [%] on finite numbers with a
    non-zero divisor (the result takes the sign of the dividend). *)
Definition Math_trunc (x : R) : Z :=
  if Rle_dec 0 x then Int_part x else (- Int_part (- x))%Z.

Definition js_rem (x y : R) : R := x - y * IZR (Math_trunc (x / y)).

(** The comparisons [x > y] and [x < y] as conditions *)
Definition Rgtb (x y : R) : bool := if Rgt_dec x y then true else false.
Definition Rltb (x y : R) : bool := if Rlt_dec x y then true else false.

(** [Math.max(0, Math.min(1, x))] *)
Definition clamp01 (x : R) : R := Rmax 0 (Rmin 1 x).

(** [Math.atan2] *)
Definition Math_atan2 (y x : R) : R :=
  if Rlt_dec 0 x then atan (y / x)
  else if Rlt_dec x 0 then
         (if Rle_dec 0 y then atan (y / x) + PI else atan (y / x) - PI)
  else if Rlt_dec 0 y then PI / 2
  else if Rlt_dec y 0 then - (PI / 2)
  else 0.

(** [Math.cbrt] *)
Definition Math_cbrt (x : R) : R :=
  if Rlt_dec 0 x then Rpower x (/ 3)
  else if Rlt_dec x 0 then - Rpower (- x) (/ 3)
  else 0.

(** ** Typed arrays

    A [Float32Array] of fixed length, created zero-filled; a write out of
    range is ignored. *)

Definition Float32Array := list R.

Definition new_Float32Array (n : nat) : Float32Array := repeat 0 n.

Fixpoint write (k : nat) (v : R) (a : Float32Array) : Float32Array :=
  match a, k with
  | [], _ => []
  | _ :: t, O => v :: t
  | h :: t, S k' => h :: write k' v t
  end.

Definition read (a : Float32Array) (k : nat) : R := nth k a 0.

(** The three writes [a[i * 3] = x; a[i * 3 + 1] = y; a[i * 3 + 2] = z], and
    the three entries of particle [i] *)
Definition write3 (i : nat) (x y z : R) (a : Float32Array) : Float32Array :=
  write (i * 3 + 2) z (write (i * 3 + 1) y (write (i * 3) x a)).

Definition particle (a : Float32Array) (i : nat) : R * R * R :=
  (read a (i * 3), read a (i * 3 + 1), read a (i * 3 + 2)).

(** ** Colours *)

Module THREE.

Record Color : Type := mkColor { r : R; g : R; b : R }.

(** [new THREE.Color()] and [new THREE.Color(1, 1, 1)] *)
Definition white : Color := mkColor 1 1 1.

End THREE.

(** ** Body descriptors *)

(** The [type] field: ["star"], ["planet"] or ["moon"]. *)
Inductive BodyType : Type := Star | Planet | Moon.

(** The interface [CelestialBodyConfig]; its declaration is in the text of
    [src/hooks/useHandTracking.ts] (139-147) and the catalog entries of
    [src/data.ts] follow it.  [ringColors] is optional. *)
Record CelestialBodyConfig : Type := mkBody {
  name : string;
  type : BodyType;
  radius : R;
  colors : list string;
  hasRings : bool;
  ringColors : option (list string);
  textureType : string
}.

Definition is_star (t : BodyType) : bool :=
  match t with
  | Star => true
  | _ => false
  end.

(** ** The store *)

Definition loc := nat.

Record store : Type := mkStore {
  heap : loc -> THREE.Color;   (* the THREE.Color objects, by allocation number *)
  next : loc;                  (* number of objects allocated *)
  draws : nat;                 (* number of Math.random() calls made *)
  currentIdx : nat;            (* [let currentIdx] of the solar-system branch *)
  initPos : Float32Array;
  targetPos : Float32Array;
  cols : Float32Array;
  rands : Float32Array
}.

Definition set_heap (s : store) (l : loc) (c : THREE.Color) : store :=
  mkStore (fun l' => if Nat.eqb l' l then c else heap s l')
          (next s) (draws s) (currentIdx s)
          (initPos s) (targetPos s) (cols s) (rands s).

Definition alloc (s : store) (c : THREE.Color) : store :=
  mkStore (fun l' => if Nat.eqb l' (next s) then c else heap s l')
          (S (next s)) (draws s) (currentIdx s)
          (initPos s) (targetPos s) (cols s) (rands s).

Definition tick (s : store) : store :=
  mkStore (heap s) (next s) (S (draws s)) (currentIdx s)
          (initPos s) (targetPos s) (cols s) (rands s).

Definition set_currentIdx (s : store) (k : nat) : store :=
  mkStore (heap s) (next s) (draws s) k
          (initPos s) (targetPos s) (cols s) (rands s).

Definition set_initPos (s : store) (a : Float32Array) : store :=
  mkStore (heap s) (next s) (draws s) (currentIdx s)
          a (targetPos s) (cols s) (rands s).

Definition set_targetPos (s : store) (a : Float32Array) : store :=
  mkStore (heap s) (next s) (draws s) (currentIdx s)
          (initPos s) a (cols s) (rands s).

Definition set_cols (s : store) (a : Float32Array) : store :=
  mkStore (heap s) (next s) (draws s) (currentIdx s)
          (initPos s) (targetPos s) a (rands s).

Definition set_rands (s : store) (a : Float32Array) : store :=
  mkStore (heap s) (next s) (draws s) (currentIdx s)
          (initPos s) (targetPos s) (cols s) a.

(** ** The monad: state and [TypeError] *)

Inductive result (A : Type) : Type :=
| Ok (a : A) (s : store)
| TypeError.

Arguments Ok {A} a s.
Arguments TypeError {A}.

Definition M (A : Type) : Type := store -> result A.

Definition ret {A} (a : A) : M A := fun s => Ok a s.

Definition bind {A B} (m : M A) (k : A -> M B) : M B :=
  fun s =>
    match m s with
    | Ok a s' => k a s'
    | TypeError => TypeError
    end.

Definition throw {A} : M A := fun _ => TypeError.

Declare Scope m_scope.
Delimit Scope m_scope with M.
Notation "x <- m ;; k" := (bind m (fun x => k))
  (at level 61, m at next level, right associativity) : m_scope.
Notation "' pat <- m ;; k" := (bind m (fun pat => k))
  (at level 61, pat pattern, m at next level, right associativity) : m_scope.
Notation "m ;;; k" := (bind m (fun _ => k))
  (at level 61, right associativity) : m_scope.
Local Open Scope m_scope.

(** [for (let i = start; i < start + n; i++) body(i)] *)
Fixpoint for_ (start n : nat) (body : nat -> M unit) : M unit :=
  match n with
  | O => ret tt
  | S n' => body start ;;; for_ (S start) n' body
  end.

(** The same loop with a body that may [break] (it returns [true]). *)
Fixpoint for_break (start n : nat) (body : nat -> M bool) : M unit :=
  match n with
  | O => ret tt
  | S n' => stop <- body start ;;
            if stop : bool then ret tt else for_break (S start) n' body
  end.

(** [array.map(f)] for an effectful [f] *)
Fixpoint mapM {A B} (f : A -> M B) (l : list A) : M (list B) :=
  match l with
  | [] => ret []
  | x :: t => y <- f x ;; ys <- mapM f t ;; ret (y :: ys)
  end.

(** ** Operations on colour objects *)

Definition newColor (c : THREE.Color) : M loc :=
  fun s => Ok (next s) (alloc s c).

(** [color.clone()] *)
Definition clone (l : loc) : M loc :=
  fun s => Ok (next s) (alloc s (heap s l)).

(** [color.clone()] where [color] is the result of an array read:
    a [TypeError] on [undefined]. *)
Definition method_clone (color : option loc) : M loc :=
  match color with
  | Some l => clone l
  | None => throw
  end.

(** [new THREE.Color(value)] for [value] an array read of colour objects:
    a copy of the object, the default white on [undefined]. *)
Definition newColor_from (value : option loc) : M loc :=
  fun s =>
    match value with
    | Some l => Ok (next s) (alloc s (heap s l))
    | None => Ok (next s) (alloc s THREE.white)
    end.

(** [color.addScalar(x)], [color.multiplyScalar(x)], [color.lerp(c, alpha)]:
    they change the object in place and return it. *)
Definition addScalar (l : loc) (x : R) : M loc :=
  fun s =>
    let c := heap s l in
    Ok l (set_heap s l (THREE.mkColor (THREE.r c + x) (THREE.g c + x) (THREE.b c + x))).

Definition multiplyScalar (l : loc) (x : R) : M loc :=
  fun s =>
    let c := heap s l in
    Ok l (set_heap s l (THREE.mkColor (THREE.r c * x) (THREE.g c * x) (THREE.b c * x))).

Definition lerp (l : loc) (color : loc) (alpha : R) : M loc :=
  fun s =>
    let c := heap s l in
    let d := heap s color in
    Ok l (set_heap s l (THREE.mkColor
                          (THREE.r c + (THREE.r d - THREE.r c) * alpha)
                          (THREE.g c + (THREE.g d - THREE.g c) * alpha)
                          (THREE.b c + (THREE.b d - THREE.b c) * alpha))).

(** ** The palette sampler, [getSafeColor] (ParticleSystem.tsx, 22-38)

    Every caller passes an array, so that the test [!colors] is the test of
    the length.  After the finiteness test the index is finite and its floor
    an integer; [Math.min] and [Math.max] are taken on integers.  The array
    read [colors[safeIndex]] is [undefined] out of range. *)

Definition getSafeColor (colors : list loc) (idx : number) : M loc :=
  if Nat.eqb (length colors) 0 then newColor THREE.white
  else
    let safeIndex := if isFinite idx then idx else Fin 0 in
    let safeIndex :=
      match floor_number safeIndex with
      | Some f => Z.max 0 (Z.min f (Z.of_nat (length colors) - 1))
      | None => 0%Z
      end in
    let color := nth_error colors (Z.to_nat safeIndex) in
    match color with
    | None => newColor THREE.white
    | Some _ => method_clone color
    end.

(** The sampler as the specification words it: white on the empty palette,
    a non-finite index read as 0, the entry at [floor index] clamped to
    [0, len - 1] otherwise. *)
Definition clamp (lo hi x : Z) : Z := Z.max lo (Z.min x hi).

Definition sample_spec (P : list THREE.Color) (idx : number) : THREE.Color :=
  match P with
  | [] => THREE.white
  | _ :: _ =>
      let x := match idx with Fin x => x | _ => 0 end in
      nth (Z.to_nat (clamp 0 (Z.of_nat (length P) - 1) (Math_floor x))) P THREE.white
  end.

(** ** The body catalog, [CELESTIAL_BODIES] (data.ts, 4-105) *)

Definition Sun : CelestialBodyConfig :=
  mkBody "Sun" Star 4 ["#FFF700"; "#FF8C00"; "#FF4500"; "#8B0000"] false None "noise".

Definition Mercury : CelestialBodyConfig :=
  mkBody "Mercury" Planet 1.5 ["#A5A5A5"; "#8C8C8C"; "#686868"; "#4A4A4A"]
         false None "noise".

Definition Venus : CelestialBodyConfig :=
  mkBody "Venus" Planet 2.8 ["#F5DEB3"; "#E6C288"; "#D2B48C"; "#FFFACD"]
         false None "noise".

Definition Earth : CelestialBodyConfig :=
  mkBody "Earth" Planet 3
         ["#020614"; "#0a2452"; "#1c6ba0"; "#0f2b0f"; "#3a5f28"; "#827054"; "#ffffff"]
         false None "noise".

Definition Moon_body : CelestialBodyConfig :=
  mkBody "Moon" Moon 1 ["#D3D3D3"; "#A9A9A9"; "#808080"; "#F5F5F5"] false None "noise".

Definition Mars : CelestialBodyConfig :=
  mkBody "Mars" Planet 2.2 ["#8B0000"; "#B22222"; "#CD5C5C"; "#E9967A"]
         false None "noise".

Definition Jupiter : CelestialBodyConfig :=
  mkBody "Jupiter" Planet 4.5 ["#8B4513"; "#D2691E"; "#F4A460"; "#FFE4B5"; "#A0522D"]
         false None "banded".

Definition Saturn : CelestialBodyConfig :=
  mkBody "Saturn" Planet 3.8 ["#D8C398"; "#C7B283"; "#BDB76B"; "#8B7355"]
         true (Some ["#C0C0C0"; "#D2B48C"; "#8B4513"]) "banded".

Definition Uranus : CelestialBodyConfig :=
  mkBody "Uranus" Planet 3.2 ["#E0FFFF"; "#AFEEEE"; "#7FFFD4"; "#40E0D0"]
         true (Some ["#E0FFFF"; "#AFEEEE"]) "solid".

Definition Neptune : CelestialBodyConfig :=
  mkBody "Neptune" Planet 3.2 ["#000080"; "#0000CD"; "#191970"; "#4169E1"]
         false None "noise".

Definition Pluto : CelestialBodyConfig :=
  mkBody "Pluto" Planet 0.8 ["#F5DEB3"; "#D2B48C"; "#C0C0C0"; "#FFF8DC"]
         false None "noise".

Definition CELESTIAL_BODIES : list CelestialBodyConfig :=
  [Sun; Mercury; Venus; Earth; Moon_body; Mars; Jupiter; Saturn; Uranus; Neptune; Pluto].

(** ** Constants of the component *)

(** [const count = 64000] *)
Definition count : nat := Z.to_nat 64000.

(** [sunCount], [orbitCount], [asteroidCount] and [radii] of the
    solar-system branch *)
Definition sunCount : nat := Z.to_nat 20000.
Definition orbitCount : nat := Z.to_nat 9000.
Definition asteroidCount : nat := Z.to_nat 8000.
Definition radii : list R := [6; 8; 10; 11; 14; 20; 26; 32; 38; 44].

Arguments count : simpl never.
Arguments sunCount : simpl never.
Arguments orbitCount : simpl never.
Arguments asteroidCount : simpl never.

(** [Math.floor] of a non-negative number used as a loop bound or a count *)
Definition floor_nat (x : R) : nat := Z.to_nat (Math_floor x).

(** An integer count as a binary64 number (exact below 2^53), and the test
    [k > n * 0.7] on two such counts as JavaScript decides it: the literal
    [0.7] is the binary64 number 0x1.6666666666666p-1, the product is rounded
    to binary64 and then compared. *)
Definition float_of_nat (n : nat) : float :=
  PrimFloat.of_uint63 (Uint63.of_Z (Z.of_nat n)).

Definition gt_seven_tenths (k n : nat) : bool :=
  PrimFloat.ltb (PrimFloat.mul (float_of_nat n) 0x1.6666666666666p-1%float)
                (float_of_nat k).

(** The pseudo-noise function (ParticleSystem.tsx, 16-19) *)
Definition noise (x y z : R) : R :=
  sin (x * 12) * cos (y * 12) * sin (z * 12)
  + sin (x * 4) * sin (y * 4) * cos (z * 4) * 0.5.

(** [setColor] (ParticleSystem.tsx, 53-57) and the three writes of a target
    position *)
Definition setColor (i : nat) (color : loc) : M unit :=
  fun s =>
    let c := heap s color in
    Ok tt (set_cols s (write3 i (THREE.r c) (THREE.g c) (THREE.b c) (cols s))).

Definition setTarget (i : nat) (x y z : R) : M unit :=
  fun s =>
    Ok tt (set_targetPos s (write3 i x y z (targetPos s))).

(** The writes [initPos[i3 ..]] and [rands[i3 ..]] of the origin cloud *)
Definition setInit (i : nat) (x y z : R) : M unit :=
  fun s =>
    Ok tt (set_initPos s (write3 i x y z (initPos s))).

Definition setRands (i : nat) (x y z : R) : M unit :=
  fun s =>
    Ok tt (set_rands s (write3 i x y z (rands s))).

Definition get_currentIdx : M nat := fun s => Ok (currentIdx s) s.

Definition put_currentIdx (k : nat) : M unit := fun s => Ok tt (set_currentIdx s k).

(** [currentIdx++] *)
Definition incr_currentIdx : M unit :=
  fun s => Ok tt (set_currentIdx s (S (currentIdx s))).

(** ** Assertions over runs *)

(** [wp m Q s]: from the store [s] the computation [m] ends without a
    [TypeError], with a result and a store that satisfy [Q]. *)
Definition wp {A} (m : M A) (Q : A -> store -> Prop) (s : store) : Prop :=
  match m s with
  | Ok a s' => Q a s'
  | TypeError => False
  end.

(** The four arrays have the same lengths in [s] and [s']. *)
Definition same_lengths (s s' : store) : Prop :=
  length (initPos s') = length (initPos s)
  /\ length (targetPos s') = length (targetPos s)
  /\ length (cols s') = length (cols s)
  /\ length (rands s') = length (rands s).

(** [s'] extends [s]: every colour object of [s] is an object of [s'] with
    the same value, the random source has only moved forward, and the arrays
    have kept their lengths. *)
Definition extends (s s' : store) : Prop :=
  (next s <= next s')%nat
  /\ (forall l, (l < next s)%nat -> heap s' l = heap s l)
  /\ (draws s <= draws s')%nat
  /\ same_lengths s s'.

(** The four arrays the generation returns *)
Module Particles.

Record t : Type := mk {
  initialPositions : Float32Array;
  targetPositions : Float32Array;
  colors : Float32Array;
  randoms : Float32Array
}.

End Particles.

Section Engine.

(** The random source: the k-th call of [Math.random()] returns [rnd k]. *)
Variable rnd : nat -> R.

(** [new THREE.Color(style)] for a hexadecimal colour string: the parser of
    three.js, which is not part of the repository. *)
Variable parseColor : string -> THREE.Color.

Definition random : M R := fun s => Ok (rnd (draws s)) (tick s).

Definition newColor_hex (c : string) : M loc := newColor (parseColor c).

(** *** Solar-system branch (ParticleSystem.tsx, 61-207) *)

(** 1. The Sun: one particle of the central sphere (82-103) *)
Definition sunParticle (sunColors : list loc) : M unit :=
  let r := 3.5 in
  u1 <- random ;;
  let theta := u1 * PI * 2 in
  u2 <- random ;;
  let phi := acos (2 * u2 - 1) in
  let tx := r * sin phi * cos theta in
  let ty := r * cos phi in
  let tz := r * sin phi * sin theta in
  let n := noise tx ty tz in
  let normN := (n + 1.5) / 3 in
  let cIdx := normN * INR (length sunColors) in
  color <- getSafeColor sunColors (Fin cIdx) ;;
  u3 <- random ;;
  (if Rgtb u3 0.7 then addScalar color 0.2 ;;; ret tt else ret tt) ;;;
  cur <- get_currentIdx ;;
  setTarget cur tx ty tz ;;;
  setColor cur color ;;;
  incr_currentIdx.

(** 2. One particle of an orbit guide circle (109-122) *)
Definition orbitParticle (orbitColor : loc) (r : R) (particlesInRing j : nat) : M unit :=
  let theta := INR j / INR particlesInRing * PI * 2 in
  u1 <- random ;;
  let jitter := (u1 - 0.5) * 0.1 in
  u2 <- random ;;
  cur <- get_currentIdx ;;
  setTarget cur ((r + jitter) * cos theta) ((u2 - 0.5) * 0.05) ((r + jitter) * sin theta) ;;;
  u3 <- random ;;
  let shade := 0.3 + u3 * 0.5 in
  c <- clone orbitColor ;;
  c <- multiplyScalar c shade ;;
  setColor cur c ;;;
  incr_currentIdx.

Definition orbitRing (orbitColor : loc) (rIdx : nat) : M unit :=
  let r := nth rIdx radii 0 in
  let particlesInRing := floor_nat (INR orbitCount / INR (length radii)) in
  for_ 0 particlesInRing (orbitParticle orbitColor r particlesInRing).

(** 3. One particle of the asteroid belt (126-139) *)
Definition asteroidParticle (asteroidColor : loc) : M unit :=
  let rBase := 16 in
  let rWidth := 3 in
  u1 <- random ;;
  let r := rBase + (u1 - 0.5) * rWidth in
  u2 <- random ;;
  let theta := u2 * PI * 2 in
  u3 <- random ;;
  cur <- get_currentIdx ;;
  setTarget cur (r * cos theta) ((u3 - 0.5) * 0.8) (r * sin theta) ;;;
  c <- clone asteroidColor ;;
  u4 <- random ;;
  c <- multiplyScalar c (0.5 + u4 * 0.5) ;;
  setColor cur c ;;;
  incr_currentIdx.

(** 4. One particle of a mini planet (158-198); [true] is the [break].  The
    ring test [k > particlesPerPlanet * 0.7] is the binary64 one. *)
Definition planetParticle (planet : CelestialBodyConfig) (cx cz : R)
    (pColors pRingColors : list loc) (particlesPerPlanet k : nat) : M bool :=
  cur <- get_currentIdx ;;
  if Nat.leb count cur then ret true
  else
    let isRing := hasRings planet && gt_seven_tenths k particlesPerPlanet in
    col0 <- newColor THREE.white ;;
    '(px, py, pz, col) <-
    (if isRing then
       let rInner := radius planet * 0.15 * 1.4 in
       let rOuter := radius planet * 0.15 * 2.2 in
       u1 <- random ;;
       let rRing := rInner + u1 * (rOuter - rInner) in
       u2 <- random ;;
       let thetaRing := u2 * PI * 2 in
       let px := cx + rRing * cos thetaRing in
       let pz := cz + rRing * sin thetaRing in
       u3 <- random ;;
       let py := (u3 - 0.5) * 0.05 in
       u4 <- random ;;
       let cIdx := Math_floor (u4 * INR (length pRingColors)) in
       col <- getSafeColor pRingColors (Fin (IZR cIdx)) ;;
       ret (px, py, pz, col)
     else
       let pr := radius planet * 0.15 in
       u1 <- random ;;
       let theta := u1 * PI * 2 in
       u2 <- random ;;
       let phi := acos (2 * u2 - 1) in
       let px := cx + pr * sin phi * cos theta in
       let py := pr * cos phi in
       let pz := cz + pr * sin phi * sin theta in
       let n := noise px py pz in
       let cIdx := (n + 1.5) / 3 * INR (length pColors) in
       col <- getSafeColor pColors (Fin cIdx) ;;
       ret (px, py, pz, col)) ;;
    setTarget cur px py pz ;;;
    setColor cur col ;;;
    incr_currentIdx ;;;
    ret false.

(** The palettes of colour objects made from a descriptor
    ([colors.map(c => new THREE.Color(c))], and [[]] without [ringColors]) *)
Definition makePalette (hex : list string) : M (list loc) := mapM newColor_hex hex.

Definition makeRingPalette (hex : option (list string)) : M (list loc) :=
  match hex with
  | Some rc => mapM newColor_hex rc
  | None => ret []
  end.

(** The particles of one mini planet (158-198) *)
Definition planetParticles (planet : CelestialBodyConfig) (cx cz : R)
    (pColors pRingColors : list loc) (particlesPerPlanet : nat) : M unit :=
  for_break 0 particlesPerPlanet
    (planetParticle planet cx cz pColors pRingColors particlesPerPlanet).

(** One mini planet (144-199); [planetList[p]] is read with [p] in range. *)
Definition planetBody (planetList : list CelestialBodyConfig)
    (particlesPerPlanet p : nat) : M unit :=
  match nth_error planetList p with
  | None => throw
  | Some planet =>
      let orbitR := nth (p mod length radii) radii 0 in
      let planetAngle := js_rem (INR p * 2.5) (PI * 2) in
      let cx := orbitR * cos planetAngle in
      let cz := orbitR * sin planetAngle in
      pColors <- makePalette (colors planet) ;;
      pRingColors <- makeRingPalette (ringColors planet) ;;
      planetParticles planet cx cz pColors pRingColors particlesPerPlanet
  end.

(** The leftover particles are parked at the origin (202-207); the [while]
    loop runs [count - currentIdx] times. *)
Definition voidParticle : M unit :=
  cur <- get_currentIdx ;;
  setTarget cur 0 0 0 ;;;
  incr_currentIdx.

(** The five groups of particles (79-207) *)
Definition solarParticles (sunColors : list loc) (orbitColor asteroidColor : loc) : M unit :=
  let planetList := filter (fun b => negb (String.eqb (name b) "Sun")) CELESTIAL_BODIES in
  put_currentIdx 0 ;;;
  for_ 0 sunCount (fun _ => sunParticle sunColors) ;;;
  for_ 0 (length radii) (orbitRing orbitColor) ;;;
  for_ 0 asteroidCount (fun _ => asteroidParticle asteroidColor) ;;;
  cur <- get_currentIdx ;;
  let particlesPerPlanet := floor_nat (INR (count - cur) / INR (length planetList)) in
  for_ 0 (length planetList) (planetBody planetList particlesPerPlanet) ;;;
  cur <- get_currentIdx ;;
  for_ 0 (count - cur) (fun _ => voidParticle).

Definition solarSystem (bodyConfig : CelestialBodyConfig) : M unit :=
  sunColors <- makePalette (colors bodyConfig) ;;
  orbitColor <- newColor (THREE.mkColor 0.2 0.4 0.8) ;;
  asteroidColor <- newColor (THREE.mkColor 0.5 0.5 0.5) ;;
  solarParticles sunColors orbitColor asteroidColor.

(** *** Single-planet branch (ParticleSystem.tsx, 210-353) *)

(** The Earth colouring (255-320); the cloud layer moves the point outwards. *)
Definition earthColor (bodyColors : list loc) (r tx ty tz : R) : M (R * R * R * loc) :=
  let lat := ty / r in
  let absLat := Rabs lat in
  let nCont := noise (tx * 1) (ty * 1) (tz * 1) in
  let nDet := noise (tx * 5) (ty * 5) (tz * 5) in
  let nMoist := noise (tx * 2 + 100) (ty * 2 + 100) (tz * 2 + 100) in
  let h := nCont + nDet * 0.2 in
  let nCloud := noise (tx * 3.5 + 50) (ty * 3.5) (tz * 3.5 + 50) in
  color <-
    (if Rltb h 0.05 then
       let depth := h - 0.05 in
       if Rgtb depth (-0.15) then getSafeColor bodyColors (Fin 2)
       else if Rgtb depth (-0.45) then getSafeColor bodyColors (Fin 1)
       else getSafeColor bodyColors (Fin 0)
     else
       if Rgtb absLat 0.85 then getSafeColor bodyColors (Fin 6)
       else
         let isHigh := Rgtb nDet 0.4 || Rgtb h 0.6 in
         if isHigh then getSafeColor bodyColors (Fin 5)
         else if Rgtb nMoist 0.1 then
                (if Rgtb nMoist 0.5 then getSafeColor bodyColors (Fin 3)
                 else getSafeColor bodyColors (Fin 4))
         else if Rltb nMoist (-0.3) then getSafeColor bodyColors (Fin 5)
         else c <- getSafeColor bodyColors (Fin 4) ;;
              d <- newColor_from (nth_error bodyColors 5) ;;
              lerp c d 0.5) ;;
  if Rgtb nCloud 0.55 then
    u <- random ;;
    if Rgtb u 0.1 then
      color <- getSafeColor bodyColors (Fin 6) ;;
      let cloudHeight := 0.04 in
      ret (tx * (1 + cloudHeight), ty * (1 + cloudHeight), tz * (1 + cloudHeight), color)
    else ret (tx, ty, tz, color)
  else ret (tx, ty, tz, color).

(** The colour of a body-sphere point, by the name of the body (255-346) *)
Definition bodyColor (bodyConfig : CelestialBodyConfig) (bodyColors : list loc)
    (r tx ty tz : R) : M (R * R * R * loc) :=
  let nY := (ty / r + 1) / 2 in
  let nX := Math_atan2 tz tx / (2 * PI) + 0.5 in
  if String.eqb (name bodyConfig) "Earth" then earthColor bodyColors r tx ty tz
  else if String.eqb (name bodyConfig) "Jupiter" then
    let bandFreq := 15 in
    let turbulence := sin (nX * 10) * 0.05 in
    let bandVal := cos ((nY + turbulence) * bandFreq * PI) in
    let colorIdx := (bandVal + 1) / 2 * INR (length bodyColors) in
    color <- getSafeColor bodyColors (Fin colorIdx) ;;
    ret (tx, ty, tz, color)
  else if String.eqb (name bodyConfig) "Saturn" then
    let bandVal := cos (nY * 20 * PI) in
    let colorIdx := (bandVal + 1) / 2 * INR (length bodyColors) in
    color <- getSafeColor bodyColors (Fin colorIdx) ;;
    ret (tx, ty, tz, color)
  else if String.eqb (name bodyConfig) "Mars" then
    let n := noise (tx * 2) (ty * 2) (tz * 2) in
    let normalizedN := clamp01 ((n + 1.5) / 3) in
    let colorIdx := normalizedN * INR (length bodyColors) in
    color <- getSafeColor bodyColors (Fin colorIdx) ;;
    ret (tx, ty, tz, color)
  else
    let n := noise tx ty tz in
    let normalizedN := clamp01 ((n + 1.5) / 3) in
    let colorIdx := normalizedN * INR (length bodyColors) in
    color <- getSafeColor bodyColors (Fin colorIdx) ;;
    ret (tx, ty, tz, color).

(** [ringParticleCount] and [bodyParticleCount] (214-215) *)
Definition ringParticleCount (bodyConfig : CelestialBodyConfig) : nat :=
  if hasRings bodyConfig then floor_nat (INR count * 0.35) else O.

Definition bodyParticleCount (bodyConfig : CelestialBodyConfig) : nat :=
  (count - ringParticleCount bodyConfig)%nat.

(** One iteration of the particle loop (217-353) *)
Definition singleParticle (bodyConfig : CelestialBodyConfig)
    (bodyColors ringColors : list loc) (i : nat) : M unit :=
  color0 <- newColor THREE.white ;;
  let isRing := Nat.leb (bodyParticleCount bodyConfig) i in
  '(tx, ty, tz, color) <-
    (if isRing && hasRings bodyConfig then
       let inner := radius bodyConfig * 1.3 in
       let outer := radius bodyConfig * 2.2 in
       u1 <- random ;;
       let r := inner + u1 * (outer - inner) in
       u2 <- random ;;
       let theta := u2 * PI * 2 in
       let tx := r * cos theta in
       let tz := r * sin theta in
       u3 <- random ;;
       let ty := (u3 - 0.5) * 0.05 in
       let normalizedR := (r - inner) / (outer - inner) in
       let ringLen := length ringColors in
       let cIdx := normalizedR * INR ringLen * 3 in
       color <- getSafeColor ringColors
                  (if Nat.ltb 0 ringLen then Fin (js_rem cIdx (INR ringLen)) else Fin 0) ;;
       (if Rgtb normalizedR 0.6 && Rltb normalizedR 0.65
        then multiplyScalar color 0.2 ;;; ret tt
        else ret tt) ;;;
       ret (tx, ty, tz, color)
     else
       let r := radius bodyConfig in
       u1 <- random ;;
       let theta := u1 * PI * 2 in
       u2 <- random ;;
       let phi := acos (2 * u2 - 1) in
       let tx := r * sin phi * cos theta in
       let ty := r * cos phi in
       let tz := r * sin phi * sin theta in
       bodyColor bodyConfig bodyColors r tx ty tz) ;;
  setTarget i tx ty tz ;;;
  setColor i color.

(** The particle loop (217-353) *)
Definition singleParticles (bodyConfig : CelestialBodyConfig)
    (bodyColors ringColors : list loc) : M unit :=
  for_ 0 count (singleParticle bodyConfig bodyColors ringColors).

Definition singlePlanet (bodyConfig : CelestialBodyConfig) : M unit :=
  bodyColors <- makePalette (colors bodyConfig) ;;
  ringColors <- makeRingPalette (ringColors bodyConfig) ;;
  singleParticles bodyConfig bodyColors ringColors.

(** *** What one iteration of the particle loop computes

    The position of a ring point (225-231) and of a body-sphere point
    (244-249) from the random values they draw; the three components of a
    colour as [setColor] stores them; a colour scaled by [multiplyScalar]. *)
Definition ring_point (bodyConfig : CelestialBodyConfig) (u1 u2 u3 : R) : R * R * R :=
  let inner := radius bodyConfig * 1.3 in
  let outer := radius bodyConfig * 2.2 in
  let r := inner + u1 * (outer - inner) in
  let theta := u2 * PI * 2 in
  (r * cos theta, (u3 - 0.5) * 0.05, r * sin theta).

Definition sphere_point (bodyConfig : CelestialBodyConfig) (u1 u2 : R) : R * R * R :=
  let r := radius bodyConfig in
  let theta := u1 * PI * 2 in
  let phi := acos (2 * u2 - 1) in
  (r * sin phi * cos theta, r * cos phi, r * sin phi * sin theta).

Definition rgb (c : THREE.Color) : R * R * R := (THREE.r c, THREE.g c, THREE.b c).

Definition scaled (x : R) (c : THREE.Color) : THREE.Color :=
  THREE.mkColor (THREE.r c * x) (THREE.g c * x) (THREE.b c * x).

(** [u] is a value returned by [Math.random()]. *)
Definition drawn (u : R) : Prop := exists k : nat, u = rnd k.

(** Particle [i] of the single-planet branch, for the palette values [Pb]
    and [Pr]: a ring particle has a ring position and a sampled ring colour,
    darkened or not; a body particle of a body other than Earth has a sphere
    position and a sampled body colour. *)
Definition particle_ok (bodyConfig : CelestialBodyConfig) (Pb Pr : list THREE.Color)
    (i : nat) (pos col : R * R * R) : Prop :=
  if Nat.leb (bodyParticleCount bodyConfig) i && hasRings bodyConfig then
    (exists u1 u2 u3, drawn u1 /\ drawn u2 /\ drawn u3
                      /\ pos = ring_point bodyConfig u1 u2 u3)
    /\ (exists idx, col = rgb (sample_spec Pr idx)
                     \/ col = rgb (scaled 0.2 (sample_spec Pr idx)))
  else if String.eqb (name bodyConfig) "Earth" then True
  else
    (exists u1 u2, drawn u1 /\ drawn u2 /\ pos = sphere_point bodyConfig u1 u2)
    /\ (exists idx, col = rgb (sample_spec Pb idx)).

(** *** The origin cloud and the seeds (ParticleSystem.tsx, 356-371) *)

(** The origin position computed from the draws [k], [k+1], [k+2], and the
    seeds, which are the draws [k+3], [k+4], [k+5] *)
Definition origin_point (k : nat) : R * R * R :=
  let spreadR := 50 * Math_cbrt (rnd k) in
  let spreadTheta := rnd (1 + k) * PI * 2 in
  let spreadPhi := acos (2 * rnd (2 + k) - 1) in
  (spreadR * sin spreadPhi * cos spreadTheta,
   spreadR * sin spreadPhi * sin spreadTheta,
   spreadR * cos spreadPhi).

Definition seed_point (k : nat) : R * R * R :=
  (rnd (3 + k), rnd (4 + k), rnd (5 + k)).

(** One iteration of the loop (357-371) *)
Definition explosionParticle (i : nat) : M unit :=
  let spread := 50 in
  u1 <- random ;;
  let spreadR := spread * Math_cbrt u1 in
  u2 <- random ;;
  let spreadTheta := u2 * PI * 2 in
  u3 <- random ;;
  let spreadPhi := acos (2 * u3 - 1) in
  setInit i (spreadR * sin spreadPhi * cos spreadTheta)
            (spreadR * sin spreadPhi * sin spreadTheta)
            (spreadR * cos spreadPhi) ;;;
  u4 <- random ;;
  u5 <- random ;;
  u6 <- random ;;
  setRands i u4 u5 u6.

(** *** The memoised generation (ParticleSystem.tsx, 46-379) *)

(** The four [new Float32Array(count * 3)] (47-50) *)
Definition newArrays : M unit :=
  fun s =>
    Ok tt (mkStore (heap s) (next s) (draws s) (currentIdx s)
             (new_Float32Array (count * 3)) (new_Float32Array (count * 3))
             (new_Float32Array (count * 3)) (new_Float32Array (count * 3))).

Definition returnArrays : M Particles.t :=
  fun s => Ok (Particles.mk (initPos s) (targetPos s) (cols s) (rands s)) s.

(** The callback of the first [useMemo] *)
Definition generate (bodyConfig : CelestialBodyConfig) : M Particles.t :=
  newArrays ;;;
  (if String.eqb (name bodyConfig) "Sun" then solarSystem bodyConfig
   else singlePlanet bodyConfig) ;;;
  for_ 0 count explosionParticle ;;;
  returnArrays.

(** The state a mounted component keeps between renders: the memoised arrays
    with the descriptor they were computed for, and [currentPositions]. *)
Record Memo : Type := mkMemo {
  dep : CelestialBodyConfig;
  particles : Particles.t;
  currentPositions : Float32Array
}.

(** React compares the dependency [bodyConfig] by object identity; the
    descriptors are the entries of the catalog, whose identity is the name. *)
Definition same_body (a b : CelestialBodyConfig) : bool := String.eqb (name a) (name b).

(** One render: [useMemo(generate, [bodyConfig])], then the re-initialisation
    of [currentPositions] when [initialPositions] is a new array (381-388). *)
Definition render (prev : option Memo) (bodyConfig : CelestialBodyConfig) : M Memo :=
  match prev with
  | Some m =>
      if same_body (dep m) bodyConfig then ret m
      else p <- generate bodyConfig ;;
           ret (mkMemo bodyConfig p (Particles.initialPositions p))
  | None =>
      p <- generate bodyConfig ;;
      ret (mkMemo bodyConfig p (Particles.initialPositions p))
  end.

(** *** Assertions on the steps of the generation *)

(** A palette made from hexadecimal strings: fresh objects with the parsed
    values; nothing else changes. *)
Definition palette_of (hex : list string) (s : store) (pal : list loc) (s' : store) : Prop :=
  extends s s'
  /\ Forall (fun l => next s <= l < next s')%nat pal
  /\ map (heap s') pal = map parseColor hex
  /\ draws s' = draws s /\ currentIdx s' = currentIdx s
  /\ initPos s' = initPos s /\ targetPos s' = targetPos s
  /\ cols s' = cols s /\ rands s' = rands s.

(** The effect of iteration [i] of the single-planet loop, and of its
    first [k] iterations *)
Definition particle_post (bodyConfig : CelestialBodyConfig) (bodyColors ringPal : list loc)
    (i : nat) (s s' : store) : Prop :=
  length (targetPos s') = length (targetPos s)
  /\ length (cols s') = length (cols s)
  /\ (forall j, j <> i -> particle (targetPos s') j = particle (targetPos s) j
                          /\ particle (cols s') j = particle (cols s) j)
  /\ initPos s' = initPos s /\ rands s' = rands s
  /\ particle_ok bodyConfig (map (heap s) bodyColors) (map (heap s) ringPal) i
       (particle (targetPos s') i) (particle (cols s') i).

Definition particles_post (bodyConfig : CelestialBodyConfig) (Pb Pr : list THREE.Color)
    (k : nat) (s s' : store) : Prop :=
  extends s s' /\ initPos s' = initPos s /\ rands s' = rands s
  /\ forall i, (i < k)%nat ->
               particle_ok bodyConfig Pb Pr i
                 (particle (targetPos s') i) (particle (cols s') i).

(** The effect of the first [k] iterations of the origin-cloud loop, begun
    at draw [d] *)
Definition origin_post (k d : nat) (s s' : store) : Prop :=
  draws s' = (6 * k + d)%nat
  /\ extends s s' /\ targetPos s' = targetPos s /\ cols s' = cols s
  /\ forall i, (i < k)%nat ->
               particle (initPos s') i = origin_point (6 * i + d)
               /\ particle (rands s') i = seed_point (6 * i + d).

(** The ring colour strings of a descriptor, none when the field is absent *)
Definition ring_hex (bodyConfig : CelestialBodyConfig) : list string :=
  match ringColors bodyConfig with
  | Some rc => rc
  | None => []
  end.

(** The effect of [generate]: earlier colour objects are kept, the origin
    cloud and the seeds come from the last [6 * count] draws, and in the
    single-planet branch every particle is as [particle_ok] describes. *)
Definition generate_post (bodyConfig : CelestialBodyConfig) (s : store)
    (p : Particles.t) (s' : store) : Prop :=
  (next s <= next s')%nat
  /\ (forall l, (l < next s)%nat -> heap s' l = heap s l)
  /\ length (Particles.initialPositions p) = (count * 3)%nat
  /\ (exists d, (draws s <= d)%nat /\ draws s' = (6 * count + d)%nat
                /\ forall i, (i < count)%nat ->
                     particle (Particles.initialPositions p) i = origin_point (6 * i + d)
                     /\ particle (Particles.randoms p) i = seed_point (6 * i + d))
  /\ (String.eqb (name bodyConfig) "Sun" = false ->
      forall i, (i < count)%nat ->
                particle_ok bodyConfig
                  (map parseColor (colors bodyConfig))
                  (map parseColor (ring_hex bodyConfig)) i
                  (particle (Particles.targetPositions p) i)
                  (particle (Particles.colors p) i)).

(** *** The body selection policy, [changeCelestialBody] (data.ts, 167-176)

    The [do ... while] loop with fuel: [None] when the fuel runs out before
    the loop ends.  The catalog is a parameter; the application passes
    [CELESTIAL_BODIES].  The result is the argument of [setCurrentBody]. *)
Fixpoint changeCelestialBody (fuel : nat) (catalog : list CelestialBodyConfig)
    (currentBody : CelestialBodyConfig) : M (option CelestialBodyConfig) :=
  match fuel with
  | O => ret None
  | S fuel' =>
      u <- random ;;
      let idx := floor_nat (u * INR (length catalog)) in
      match nth_error catalog idx with
      | None => throw
      | Some newBody =>
          if String.eqb (name newBody) (name currentBody)
          then changeCelestialBody fuel' catalog currentBody
          else ret (Some newBody)
      end
  end.

(** What a render that recomputes leaves: the memo of the new descriptor,
    with an origin cloud and seeds made from draws not made before *)
Definition recomputed (bodyConfig : CelestialBodyConfig) (s : store) (m' : Memo)
    (s' : store) : Prop :=
  dep m' = bodyConfig
  /\ currentPositions m' = Particles.initialPositions (particles m')
  /\ exists d, (draws s <= d)%nat /\ draws s' = (6 * count + d)%nat
     /\ forall i, (i < count)%nat ->
          particle (Particles.initialPositions (particles m')) i
          = origin_point (6 * i + d)
          /\ particle (Particles.randoms (particles m')) i = seed_point (6 * i + d).

(** The index [Math.floor(Math.random() * catalog.length)] computed from
    the k-th draw *)
Definition draw_index (catalog : list CelestialBodyConfig) (k : nat) : nat :=
  floor_nat (rnd k * INR (length catalog)).

(** The entry the k-th draw selects has the name of [currentBody], so that
    the loop draws again. *)
Definition redraw (catalog : list CelestialBodyConfig) (currentBody : CelestialBodyConfig)
    (k : nat) : Prop :=
  exists b, nth_error catalog (draw_index catalog k) = Some b
            /\ String.eqb (name b) (name currentBody) = true.

(** The entry the k-th draw selects is [b], whose name is not that of
    [currentBody], so that the loop ends. *)
Definition accept (catalog : list CelestialBodyConfig) (currentBody : CelestialBodyConfig)
    (k : nat) (b : CelestialBodyConfig) : Prop :=
  nth_error catalog (draw_index catalog k) = Some b
  /\ String.eqb (name b) (name currentBody) = false.

End Engine.

(** The store after [n] more calls of [Math.random()] *)
Fixpoint ticks (n : nat) (s : store) : store :=
  match n with
  | O => s
  | S n' => tick (ticks n' s)
  end.

(** A store to start from: no colour object, no draw, empty arrays. *)
Definition initial_store : store :=
  mkStore (fun _ => THREE.white) O O O [] [] [] [].

(** ** The animation driver, [useFrame] (ParticleSystem.tsx, 391-426) *)

Definition lerpSpeed : R := 0.08.

(** [noiseIntensity] (405) *)
Definition noiseIntensity (bodyConfig : CelestialBodyConfig) (expansion : R) : R :=
  expansion * 0.8
  + (if is_star (type bodyConfig) && Rltb expansion 0.1 then 0.05 else 0.02).

(** The body of the particle loop (398-414) *)
Definition frameParticle (time expansion : R) (bodyConfig : CelestialBodyConfig)
    (p : Particles.t) (i : nat) (positions : Float32Array) : Float32Array :=
  let initialPositions := Particles.initialPositions p in
  let targetPositions := Particles.targetPositions p in
  let randoms := Particles.randoms p in
  let i3 := (i * 3)%nat in
  let tX := expansion * read initialPositions i3
            + (1 - expansion) * read targetPositions i3 in
  let tY := expansion * read initialPositions (i3 + 1)
            + (1 - expansion) * read targetPositions (i3 + 1) in
  let tZ := expansion * read initialPositions (i3 + 2)
            + (1 - expansion) * read targetPositions (i3 + 2) in
  let noiseIntensity := noiseIntensity bodyConfig expansion in
  let nx := sin (time * 0.5 + read randoms i3 * 100) * noiseIntensity * 0.2 in
  let ny := cos (time * 0.3 + read randoms (i3 + 1) * 100) * noiseIntensity * 0.2 in
  let nz := sin (time * 0.5 + read randoms (i3 + 2) * 100) * noiseIntensity * 0.2 in
  let positions :=
    write i3 (read positions i3 + (tX + nx - read positions i3) * lerpSpeed) positions in
  let positions :=
    write (i3 + 1)
      (read positions (i3 + 1) + (tY + ny - read positions (i3 + 1)) * lerpSpeed) positions in
  write (i3 + 2)
    (read positions (i3 + 2) + (tZ + nz - read positions (i3 + 2)) * lerpSpeed) positions.

(** [for (let i = start; i < start + n; i++) body(i)] over one array *)
Fixpoint for_array (start n : nat) (body : nat -> Float32Array -> Float32Array)
    (a : Float32Array) : Float32Array :=
  match n with
  | O => a
  | S n' => for_array (S start) n' body (body start a)
  end.

(** What the callback changes: the position attribute of the points object
    (it is the array [currentPositions]) and the rotation of the object. *)
Record Points : Type := mkPoints {
  positions : Float32Array;
  rotation_x : R;
  rotation_y : R
}.

(** One frame.  [pointsRef.current] is [null] until the object is mounted
    and the callback then returns at once. *)
Definition useFrame (pointsRef : option Points) (time delta expansion : R)
    (rotationInfluence : R * R) (bodyConfig : CelestialBodyConfig)
    (p : Particles.t) : option Points :=
  match pointsRef with
  | None => None
  | Some pts =>
      let positions :=
        for_array 0 count (frameParticle time expansion bodyConfig p) (positions pts) in
      let baseRotationSpeed :=
        (if String.eqb (name bodyConfig) "Sun" then 0.05 else 0.1) * delta in
      let handRotationX := fst rotationInfluence * 2 * delta in
      let handRotationY := snd rotationInfluence * 1 * delta in
      Some (mkPoints positions
              (rotation_x pts + handRotationY)
              (rotation_y pts + (baseRotationSpeed + handRotationX)))
  end.

(** The run of the driver over the frames [0 .. k-1], the inputs of frame
    [j] being [time j], [delta j] and [rotationInfluence j], with the
    expansion, the descriptor and the particle arrays held fixed. *)
Fixpoint frames (k : nat) (time delta : nat -> R) (rotationInfluence : nat -> R * R)
    (expansion : R) (bodyConfig : CelestialBodyConfig) (p : Particles.t)
    (pointsRef : option Points) : option Points :=
  match k with
  | O => pointsRef
  | S k' =>
      let prev := frames k' time delta rotationInfluence expansion bodyConfig p pointsRef in
      useFrame prev (time k') (delta k') expansion (rotationInfluence k') bodyConfig p
  end.

(** The blend target and the oscillation of coordinate [c] (0, 1 or 2) of
    particle [i], as [frameParticle] computes them, and the update of one
    coordinate *)
Definition blend_target (expansion : R) (p : Particles.t) (j : nat) : R :=
  expansion * read (Particles.initialPositions p) j
  + (1 - expansion) * read (Particles.targetPositions p) j.

Definition oscillation (time expansion : R) (bodyConfig : CelestialBodyConfig)
    (p : Particles.t) (i c : nat) : R :=
  match c with
  | 1%nat => cos (time * 0.3 + read (Particles.randoms p) (i * 3 + 1) * 100)
  | _ => sin (time * 0.5 + read (Particles.randoms p) (i * 3 + c) * 100)
  end * noiseIntensity bodyConfig expansion * 0.2.

Definition advance (time expansion : R) (bodyConfig : CelestialBodyConfig)
    (p : Particles.t) (i c : nat) (x : R) : R :=
  x + (blend_target expansion p (i * 3 + c)
       + oscillation time expansion bodyConfig p i c - x) * lerpSpeed.

(** The position array of the points object, if mounted *)
Definition positions_of (pointsRef : option Points) : Float32Array :=
  match pointsRef with
  | Some pts => positions pts
  | None => []
  end.

(** ** Descriptors of the end-to-end properties *)

(** [{name: "TestPlanet", radius: 2.0, colors: ["#000000", "#FFFFFF"],
    hasRings: false}]; the category and the [ringColors] field are free. *)
Definition TestPlanet (t : BodyType) (rc : option (list string)) : CelestialBodyConfig :=
  mkBody "TestPlanet" t 2 ["#000000"; "#FFFFFF"] false rc "noise".

(** A ringed descriptor without ring colours *)
Definition RingedNoPalette : CelestialBodyConfig :=
  mkBody "Ringed" Planet 3 ["#FFFFFF"] true (Some []) "noise".

(** ** Further descriptions of the generated particles *)

(** A colour moved half-way (or by [alpha]) towards another, as [lerp]
    leaves it; a position scaled about the centre. *)
Definition mixed (c d : THREE.Color) (alpha : R) : THREE.Color :=
  THREE.mkColor (THREE.r c + (THREE.r d - THREE.r c) * alpha)
                (THREE.g c + (THREE.g d - THREE.g c) * alpha)
                (THREE.b c + (THREE.b d - THREE.b c) * alpha).

Definition scale3 (k : R) (pos : R * R * R) : R * R * R :=
  let '(x, y, z) := pos in (x * k, y * k, z * k).

(** The Euclidean norm of a position and its distance from the vertical
    axis through [(cx, 0, cz)] *)
Definition norm3 (pos : R * R * R) : R :=
  let '(x, y, z) := pos in sqrt (x * x + y * y + z * z).

Definition radial (cx cz : R) (pos : R * R * R) : R :=
  let '(x, y, z) := pos in sqrt ((x - cx) * (x - cx) + (z - cz) * (z - cz)).

Definition height (pos : R * R * R) : R := let '(x, y, z) := pos in y.

Section EngineDescriptions.

Variable rnd : nat -> R.

(** A body particle of the Earth (255-320), for the palette values [Pb]:
    either a point of the sphere coloured by one of the biome rules (a
    sampled entry, or the even mix of entry 4 with entry 5, white if the
    palette has no entry 5), or a cloud point, moved outwards by the factor
    1.04 and coloured with the sample at index 6. *)
Definition earth_ok (bodyConfig : CelestialBodyConfig) (Pb : list THREE.Color)
    (pos col : R * R * R) : Prop :=
  exists u1 u2,
    drawn rnd u1 /\ drawn rnd u2
    /\ ((pos = sphere_point bodyConfig u1 u2
         /\ ((exists idx, col = rgb (sample_spec Pb idx))
             \/ col = rgb (mixed (sample_spec Pb (Fin 4)) (nth 5 Pb THREE.white) 0.5)))
        \/ (pos = scale3 (1 + 0.04) (sphere_point bodyConfig u1 u2)
            /\ col = rgb (sample_spec Pb (Fin 6)))).

(** A point of the sphere of radius [r] about [(cx, 0, cz)], from two drawn
    values (84-90, 180-185) *)
Definition sphere_at (r cx cz u1 u2 : R) : R * R * R :=
  let theta := u1 * PI * 2 in
  let phi := acos (2 * u2 - 1) in
  (cx + r * sin phi * cos theta, r * cos phi, cz + r * sin phi * sin theta).

Definition brightened (x : R) (c : THREE.Color) : THREE.Color :=
  THREE.mkColor (THREE.r c + x) (THREE.g c + x) (THREE.b c + x).

(** The four kinds of particle of the solar-system branch.  A particle of
    the Sun (82-103), for the values [P] of the Sun palette. *)
Definition core_ok (P : list THREE.Color) (pos col : R * R * R) : Prop :=
  (exists u1 u2, drawn rnd u1 /\ drawn rnd u2
                 /\ pos = (3.5 * sin (acos (2 * u2 - 1)) * cos (u1 * PI * 2),
                           3.5 * cos (acos (2 * u2 - 1)),
                           3.5 * sin (acos (2 * u2 - 1)) * sin (u1 * PI * 2)))
  /\ (exists idx, col = rgb (sample_spec P idx)
                  \/ col = rgb (brightened 0.2 (sample_spec P idx))).

(** Particle [j] of the orbit circle of radius [r] with [n] particles
    (109-122), for the value [c] of [orbitColor] *)
Definition orbit_ok (c : THREE.Color) (r : R) (n j : nat) (pos col : R * R * R) : Prop :=
  exists u1 u2 u3,
    drawn rnd u1 /\ drawn rnd u2 /\ drawn rnd u3
    /\ pos = ((r + (u1 - 0.5) * 0.1) * cos (INR j / INR n * PI * 2),
              (u2 - 0.5) * 0.05,
              (r + (u1 - 0.5) * 0.1) * sin (INR j / INR n * PI * 2))
    /\ col = rgb (scaled (0.3 + u3 * 0.5) c).

(** A particle of the asteroid belt (126-139), for the value [c] of
    [asteroidColor] *)
Definition asteroid_ok (c : THREE.Color) (pos col : R * R * R) : Prop :=
  exists u1 u2 u3 u4,
    drawn rnd u1 /\ drawn rnd u2 /\ drawn rnd u3 /\ drawn rnd u4
    /\ pos = ((16 + (u1 - 0.5) * 3) * cos (u2 * PI * 2),
              (u3 - 0.5) * 0.8,
              (16 + (u1 - 0.5) * 3) * sin (u2 * PI * 2))
    /\ col = rgb (scaled (0.5 + u4 * 0.5) c).

(** Particle [k] of a mini planet with [n] particles, centred at
    [(cx, 0, cz)] (158-198), for the values [Pc] and [Pr] of its palettes:
    a ring particle when the body has rings and [k > n * 0.7] in binary64 *)
Definition planet_ok (planet : CelestialBodyConfig) (cx cz : R)
    (Pc Pr : list THREE.Color) (n k : nat) (pos col : R * R * R) : Prop :=
  if hasRings planet && gt_seven_tenths k n then
    (exists u1 u2 u3,
        drawn rnd u1 /\ drawn rnd u2 /\ drawn rnd u3
        /\ let rInner := radius planet * 0.15 * 1.4 in
           let rOuter := radius planet * 0.15 * 2.2 in
           let rRing := rInner + u1 * (rOuter - rInner) in
           pos = (cx + rRing * cos (u2 * PI * 2), (u3 - 0.5) * 0.05,
                  cz + rRing * sin (u2 * PI * 2)))
    /\ (exists idx, col = rgb (sample_spec Pr idx))
  else
    (exists u1 u2, drawn rnd u1 /\ drawn rnd u2
                   /\ pos = sphere_at (radius planet * 0.15) cx cz u1 u2)
    /\ (exists idx, col = rgb (sample_spec Pc idx)).

End EngineDescriptions.

(** The centre of mini planet [p] on its orbit (147-153) *)
Definition planet_centre (p : nat) : R * R :=
  let orbitR := nth (p mod length radii) radii 0 in
  let planetAngle := js_rem (INR p * 2.5) (PI * 2) in
  (orbitR * cos planetAngle, orbitR * sin planetAngle).

(** The bodies shown as mini planets: the catalog without the Sun (77) *)
Definition planetList : list CelestialBodyConfig :=
  filter (fun b => negb (String.eqb (name b) "Sun")) CELESTIAL_BODIES.

(** One step wrote the particle at [currentIdx], as [Phi] describes, moved
    [currentIdx] on by one and left the other particles alone. *)
Definition wrote (Phi : R * R * R -> R * R * R -> Prop) (s s' : store) : Prop :=
  currentIdx s' = S (currentIdx s)
  /\ (forall j, j <> currentIdx s ->
                particle (targetPos s') j = particle (targetPos s) j
                /\ particle (cols s') j = particle (cols s) j)
  /\ Phi (particle (targetPos s') (currentIdx s)) (particle (cols s') (currentIdx s)).

(** A run of steps wrote the [n] particles from [currentIdx] on, particle
    [currentIdx + j] as [Phi j] describes, and left the earlier ones alone. *)
Definition appended (Phi : nat -> R * R * R -> R * R * R -> Prop) (n : nat)
    (s s' : store) : Prop :=
  currentIdx s' = (currentIdx s + n)%nat
  /\ (forall j, (j < currentIdx s)%nat ->
                particle (targetPos s') j = particle (targetPos s) j
                /\ particle (cols s') j = particle (cols s) j)
  /\ forall j, (j < n)%nat ->
               Phi j (particle (targetPos s') (currentIdx s + j))
                     (particle (cols s') (currentIdx s + j)).

(** The particles [base .. base + n - 1] of the arrays of [s] are as [Phi]
    describes. *)
Definition group (Phi : nat -> R * R * R -> R * R * R -> Prop) (base n : nat)
    (tp cl : Float32Array) : Prop :=
  forall j, (j < n)%nat -> Phi j (particle tp (base + j)) (particle cl (base + j)).

(** A loop wrote [k] blocks of [m] particles each from [currentIdx] on,
    block [i] as [Phi i] describes. *)
Definition blocks_post (Phi : nat -> nat -> R * R * R -> R * R * R -> Prop) (k m : nat)
    (s s' : store) : Prop :=
  extends s s'
  /\ currentIdx s' = (currentIdx s + k * m)%nat
  /\ (forall j, (j < currentIdx s)%nat ->
                particle (targetPos s') j = particle (targetPos s) j
                /\ particle (cols s') j = particle (cols s) j)
  /\ forall i, (i < k)%nat ->
               group (Phi i) (currentIdx s + i * m) m (targetPos s') (cols s').

(** The sizes of an orbit circle (108) and of a mini planet (142); the
    latter from the value [currentIdx] has after the first three groups. *)
Definition particlesInRing : nat := floor_nat (INR orbitCount / INR (length radii)).

Definition particlesPerPlanet : nat :=
  floor_nat (INR (count - (sunCount + length radii * particlesInRing + asteroidCount))
             / INR (length planetList)).

(** The layout of the solar-system branch in the arrays [tp] and [cl]: the
    Sun first, then the orbit circles one after the other, the asteroid belt,
    and the mini planets in the order of the catalog; [Ps], [co] and [ca] are
    the values of the Sun palette, of [orbitColor] and of [asteroidColor]. *)
Definition solar_layout (rnd : nat -> R) (parseColor : string -> THREE.Color)
    (Ps : list THREE.Color) (co ca : THREE.Color) (tp cl : Float32Array) : Prop :=
  group (fun _ => core_ok rnd Ps) 0 sunCount tp cl
  /\ (forall rIdx, (rIdx < length radii)%nat ->
        group (orbit_ok rnd co (nth rIdx radii 0) particlesInRing)
              (sunCount + rIdx * particlesInRing) particlesInRing tp cl)
  /\ group (fun _ => asteroid_ok rnd ca)
           (sunCount + length radii * particlesInRing) asteroidCount tp cl
  /\ (forall p planet, nth_error planetList p = Some planet ->
        group (planet_ok rnd planet (fst (planet_centre p)) (snd (planet_centre p))
                         (map parseColor (colors planet))
                         (map parseColor (ring_hex planet)) particlesPerPlanet)
              (sunCount + length radii * particlesInRing + asteroidCount
               + p * particlesPerPlanet)
              particlesPerPlanet tp cl).

(** A position seen from the centre [(cx, 0, cz)] *)
Definition offset (cx cz : R) (pos : R * R * R) : R * R * R :=
  let '(x, y, z) := pos in (x - cx, y, z - cz).

(** Particle [i] of the solar-system branch is a particle of one of the
    four groups. *)
Definition solar_particle (rnd : nat -> R) (parseColor : string -> THREE.Color)
    (Ps : list THREE.Color) (co ca : THREE.Color) (i : nat)
    (pos col : R * R * R) : Prop :=
  ((i < sunCount)%nat /\ core_ok rnd Ps pos col)
  \/ (exists rIdx j,
         (rIdx < length radii)%nat /\ (j < particlesInRing)%nat
         /\ i = (sunCount + rIdx * particlesInRing + j)%nat
         /\ orbit_ok rnd co (nth rIdx radii 0) particlesInRing j pos col)
  \/ (exists j,
         (j < asteroidCount)%nat
         /\ i = (sunCount + length radii * particlesInRing + j)%nat
         /\ asteroid_ok rnd ca pos col)
  \/ (exists p planet k,
         nth_error planetList p = Some planet /\ (k < particlesPerPlanet)%nat
         /\ i = (sunCount + length radii * particlesInRing + asteroidCount
                 + p * particlesPerPlanet + k)%nat
         /\ planet_ok rnd planet (fst (planet_centre p)) (snd (planet_centre p))
                      (map parseColor (colors planet))
                      (map parseColor (ring_hex planet)) particlesPerPlanet k pos col).

(** * The hand: [predict] and the handlers of the [App] component *)

(** ** Arithmetic that can leave the finite numbers *)

(** [a / b] for finite [a] and [b], where [b] is not [-0] (here it is a
    square root) *)
Definition js_div (a b : R) : number :=
  if Req_dec_T b 0 then
    (if Rgtb a 0 then PosInf else if Rltb a 0 then NegInf else NaN)
  else Fin (a / b).

(** [n > c] for a finite [c]: false on [NaN] *)
Definition js_gt (n : number) (c : R) : bool :=
  match n with
  | Fin x => Rgtb x c
  | PosInf => true
  | _ => false
  end.

(** [(n - c) / d] for finite [c] and a positive finite [d] *)
Definition js_affine (n : number) (c d : R) : number :=
  match n with
  | Fin x => Fin ((x - c) / d)
  | other => other
  end.

(** [Math.max] and [Math.min] of two numbers: [NaN] if either is *)
Definition Math_max (a b : number) : number :=
  match a, b with
  | NaN, _ | _, NaN => NaN
  | PosInf, _ | _, PosInf => PosInf
  | NegInf, n | n, NegInf => n
  | Fin x, Fin y => Fin (Rmax x y)
  end.

Definition Math_min (a b : number) : number :=
  match a, b with
  | NaN, _ | _, NaN => NaN
  | NegInf, _ | _, NegInf => NegInf
  | PosInf, n | n, PosInf => n
  | Fin x, Fin y => Fin (Rmin x y)
  end.

(** ** The hand reading, [predict] (useHandTracking.ts, 47-107) *)

(** A landmark of MediaPipe; [predict] reads its [x] and [y]. *)
Module Landmark.

Record t : Type := mk { x : R; y : R }.

End Landmark.

(** What one call of [predict] does with its callback: it returns before
    the detection, calls [onHandUpdate] with three arguments, or raises a
    [TypeError] on a landmark that is missing. *)
Inductive Prediction : Type :=
| Skipped
| Updated (isOpen : bool) (opennessScore : number) (position : R * R)
| Thrown.

(** [ready] is the guard [landmarkerRef.current && videoRef.current &&
    videoRef.current.videoWidth]; [result] is [result.landmarks], the hands
    found by [detectForVideo], each a list of landmarks. *)
Definition predict (ready : bool) (result : list (list Landmark.t)) : Prediction :=
  if negb ready then Skipped
  else
    match result with
    | landmarks :: _ =>
        match nth_error landmarks 0, nth_error landmarks 5, nth_error landmarks 12,
              nth_error landmarks 4, nth_error landmarks 20 with
        | Some wrist, Some indexMcp, Some middleTip, Some thumbTip, Some pinkyTip =>
            let scale :=
              sqrt ((Landmark.x indexMcp - Landmark.x wrist) ^ 2
                    + (Landmark.y indexMcp - Landmark.y wrist) ^ 2) in
            let extension :=
              sqrt ((Landmark.x middleTip - Landmark.x wrist) ^ 2
                    + (Landmark.y middleTip - Landmark.y wrist) ^ 2) in
            let spread :=
              sqrt ((Landmark.x thumbTip - Landmark.x pinkyTip) ^ 2
                    + (Landmark.y thumbTip - Landmark.y pinkyTip) ^ 2) in
            let extensionRatio := js_div extension scale in
            let spreadRatio := js_div spread scale in
            let isOpen := js_gt extensionRatio 1.3 && js_gt spreadRatio 0.8 in
            let opennessScore :=
              Math_min (Math_max (js_affine extensionRatio 0.8 1.5) (Fin 0)) (Fin 1) in
            let rawX := (Landmark.x wrist + Landmark.x indexMcp + Landmark.x pinkyTip) / 3 in
            let rawY := (Landmark.y wrist + Landmark.y indexMcp + Landmark.y pinkyTip) / 3 in
            Updated isOpen opennessScore (rawX, rawY)
        | _, _, _, _, _ => Thrown
        end
    | [] => Updated true (Fin 1) (0.5, 0.5)
    end.

(** The same hand seen at another distance and place: every landmark is
    scaled by [k] and moved by [(a, b)]. *)
Definition zoom (k a b : R) (l : Landmark.t) : Landmark.t :=
  Landmark.mk (k * Landmark.x l + a) (k * Landmark.y l + b).

(** ** Muting in the audio service: [setVolume], [playExpand] and
    [playContract] (audioService.ts, 85-120) *)

Module AudioService.

(** The fields [setVolume] writes: [isMuted] and [bgm.volume] *)
Record t : Type := mk { isMuted : bool; bgm_volume : R }.

Inductive Sfx : Type := expand | contract.

(** What the service does besides, in the order of the calls; [initialized]
    and [useFallback], which these may set, are read where they are used. *)
Inductive Effect : Type :=
| bgm_pause
| bgm_play
| toggleDroneVolume (targetVol : R)
| startAmbient
| playSynthSfx (type : Sfx)
| safePlay (audio : Sfx).

Definition setVolume (vol : R) (initialized useFallback : bool) (a : t)
    : t * list Effect :=
  let isMuted := if Req_dec_T vol 0 then true else false in
  (mk isMuted (vol * 0.6),
   if isMuted then [bgm_pause; toggleDroneVolume 0]
   else toggleDroneVolume 0.04
        :: (if negb initialized then [startAmbient]
            else if negb useFallback then [bgm_play] else [])).

Definition playExpand (useFallback : bool) (a : t) : list Effect :=
  if isMuted a then []
  else if useFallback then [playSynthSfx expand] else [safePlay expand].

Definition playContract (useFallback : bool) (a : t) : list Effect :=
  if isMuted a then []
  else if useFallback then [playSynthSfx contract] else [safePlay contract].

End AudioService.

(** ** The hand handler of [App], [handleHandUpdate] (data.ts, 142-165) *)

(** The calls the handler makes, in their order *)
Module Call.

Inductive t : Type :=
| triggerNewPhrase
| playExpand
| playContract
| changeCelestialBody.

Definition eqb (c d : t) : bool :=
  match c, d with
  | triggerNewPhrase, triggerNewPhrase | playExpand, playExpand
  | playContract, playContract | changeCelestialBody, changeCelestialBody => true
  | _, _ => false
  end.

End Call.

Module App.

(** The state variables the handler reads or sets *)
Record State : Type := mkState {
  expansion : R;
  isHandOpen : bool;
  isMuted : bool;
  handRotation : R * R
}.

(** The handler is a closure of a render: it reads [isHandOpen] and
    [isMuted] as that render saw them ([seen]), while the updater passed to
    [setExpansion] is applied to the state [st] of the moment.  [score] is
    not used. *)
Definition handleHandUpdate (seen : State) (isOpen : bool) (score : number)
    (position : R * R) (st : State) : State * list Call.t :=
  let target := if isOpen then 1 else 0 in
  let calls :=
    if negb (isHandOpen seen) && isOpen then
      Call.triggerNewPhrase :: (if negb (isMuted seen) then [Call.playExpand] else [])
    else if isHandOpen seen && negb isOpen then
      (if negb (isMuted seen) then [Call.playContract] else [])
      ++ [Call.changeCelestialBody]
    else [] in
  let rotX := (0.5 - fst position) * 2 in
  let rotY := (snd position - 0.5) * 2 in
  (mkState (expansion st + (target - expansion st) * 0.1) isOpen (isMuted st)
           (rotX, rotY),
   calls).

(** A hand update: the state the handler was made in and its arguments *)
Definition Update : Type := (State * (bool * number * (R * R)))%type.

(** The handler over a sequence of updates, with the calls of all of them *)
Fixpoint handUpdates (updates : list Update) (st : State) : State * list Call.t :=
  match updates with
  | [] => (st, [])
  | (seen, (isOpen, score, position)) :: rest =>
      let '(st1, calls1) := handleHandUpdate seen isOpen score position st in
      let '(st2, calls2) := handUpdates rest st1 in
      (st2, calls1 ++ calls2)
  end.

(** Every update is handled by the handler of the latest state: the hook
    re-subscribes the handler after each render. *)
Fixpoint fresh (updates : list Update) (st : State) : Prop :=
  match updates with
  | [] => True
  | (seen, (isOpen, score, position)) :: rest =>
      seen = st /\ fresh rest (fst (handleHandUpdate seen isOpen score position st))
  end.

(** The cooldown of [triggerNewPhrase] (data.ts, 190-193): [now] is
    [Date.now()], the state is [lastPhraseTime.current]; [true] when the
    function goes on to show a phrase. *)
Definition cooldown (now lastPhraseTime : R) : bool * R :=
  if Rltb (now - lastPhraseTime) 3000 then (false, lastPhraseTime) else (true, now).

(** The times at which a sequence of calls goes on to show a phrase *)
Fixpoint shown (times : list R) (lastPhraseTime : R) : list R :=
  match times with
  | [] => []
  | now :: rest =>
      let '(go, last) := cooldown now lastPhraseTime in
      if go then now :: shown rest last else shown rest last
  end.

(** [toggleMute] (data.ts, 235-245), on the state of the component and of
    the audio service; [initialized] and [useFallback] are the values the
    service has at the click. *)
Definition toggleMute (initialized useFallback : bool) (st : State)
    (a : AudioService.t) : State * AudioService.t * list AudioService.Effect :=
  if isMuted st then
    let '(a', effects) := AudioService.setVolume 0.4 initialized useFallback a in
    (mkState (expansion st) (isHandOpen st) false (handRotation st), a',
     effects ++ [AudioService.startAmbient])
  else
    let '(a', effects) := AudioService.setVolume 0 initialized useFallback a in
    (mkState (expansion st) (isHandOpen st) true (handRotation st), a', effects).

(** A sequence of clicks on the mute button *)
Fixpoint toggles (clicks : list (bool * bool)) (st : State) (a : AudioService.t)
    : State * AudioService.t :=
  match clicks with
  | [] => (st, a)
  | (initialized, useFallback) :: rest =>
      let '(st', a', _) := toggleMute initialized useFallback st a in
      toggles rest st' a'
  end.

End App.

(** Consecutive entries of a list are at least [d] apart. *)
Fixpoint spaced (d : R) (l : list R) : Prop :=
  match l with
  | a :: (b :: _) as t => a + d <= b /\ spaced d t
  | _ => True
  end.

(** [n] times the call [c] in a list of calls *)
Definition calls_of (c : Call.t) (l : list Call.t) : nat :=
  length (filter (Call.eqb c) l).

(** ** The rotation of the points object over the frames *)

(** The time elapsed over the frames [0 .. k-1] *)
Fixpoint elapsed (delta : nat -> R) (k : nat) : R :=
  match k with
  | O => 0
  | S k' => elapsed delta k' + delta k'
  end.

(** ** Concrete inputs *)

(** Random sources: constantly 0; the values 1/2, 1/3, 1/4, ..., all
    different; the cycle 0/11, 1/11, ..., 10/11; and 0 twice, then 0.1. *)
Definition rnd_zero : nat -> R := fun _ => 0.
Definition rnd_harmonic : nat -> R := fun k => / (INR k + 2).
Definition rnd_late : nat -> R := fun k => if Nat.ltb k 2 then 0 else 0.1.

(** A colour parser that reads every string as white *)
Definition parse_white : string -> THREE.Color := fun _ => THREE.white.

(** Particle arrays and a points object filled with zeros; a frame every
    20 pi seconds *)
Definition zero_particles : Particles.t :=
  Particles.mk (new_Float32Array (count * 3)) (new_Float32Array (count * 3))
               (new_Float32Array (count * 3)) (new_Float32Array (count * 3)).

Definition zero_points : Points := mkPoints (new_Float32Array (count * 3)) 0 0.

Definition time_slow : nat -> R := fun k => 20 * PI * INR k.

(** The memo of an earlier render for Mercury *)
Definition stale_memo : Memo :=
  mkMemo Mercury zero_particles (new_Float32Array (count * 3)).

(** An open hand in the image: the wrist at (0.5, 0.8), the index knuckle
    at (0.5, 0.6), the middle fingertip at (0.5, 0.4), the thumb tip at
    (0.3, 0.6) and the little fingertip at (0.7, 0.6), the other sixteen
    landmarks on the palm; then the state of the component and of the audio
    service when they are created, and the hand closing *)
Definition palm : Landmark.t := Landmark.mk 0.5 0.5.

Definition open_hand : list Landmark.t :=
  [Landmark.mk 0.5 0.8; palm; palm; palm; Landmark.mk 0.3 0.6; Landmark.mk 0.5 0.6;
   palm; palm; palm; palm; palm; palm; Landmark.mk 0.5 0.4;
   palm; palm; palm; palm; palm; palm; palm; Landmark.mk 0.7 0.6].

Definition app_start : App.State := App.mkState 1 true false (0, 0).

Definition audio_start : AudioService.t := AudioService.mk false 0.3.

Definition closing : App.Update := (app_start, (false, Fin 0, (0.5, 0.5))).

(** * Theorems *)

Lemma clamp_range (n : nat) (x : Z) :
  (0 < n)%nat -> (Z.to_nat (clamp 0 (Z.of_nat n - 1) x) < n)%nat.
Proof.
  intros Hn. unfold clamp. lia.
Qed.

Lemma sample_spec_nonempty (P : list THREE.Color) (idx : number) :
  (0 < length P)%nat ->
  sample_spec P idx =
  nth (Z.to_nat (clamp 0 (Z.of_nat (length P) - 1)
                   (Math_floor (match idx with Fin x => x | _ => 0 end))))
      P THREE.white.
Proof.
  destruct P; cbn [length]; [lia | reflexivity].
Qed.

(** C1. For every palette and every index (NaN, the infinities and negative
    values included) [getSafeColor] returns, without a [TypeError], a fresh
    colour object whose value is white on the empty palette and otherwise the
    palette entry at [clamp (floor idx) 0 (len - 1)], a non-finite index
    being read as 0; nothing else in the store changes. *)
Theorem getSafeColor_sample (colors : list loc) (idx : number) (s : store) :
  getSafeColor colors idx s =
  Ok (next s) (alloc s (sample_spec (map (heap s) colors) idx)).
Proof.
  destruct colors as [|c0 cs]; [reflexivity|].
  remember (c0 :: cs) as P eqn:EP.
  assert (Hlen : (0 < length P)%nat) by (subst P; cbn; lia).
  rewrite sample_spec_nonempty by (now rewrite length_map).
  unfold getSafeColor.
  destruct (Nat.eqb_spec (length P) 0) as [H0|_]; [lia|].
  rewrite length_map.
  assert (E : forall x : R,
             nth_error P (Z.to_nat (Z.max 0 (Z.min (Math_floor x) (Z.of_nat (length P) - 1))))
             = Some (nth (Z.to_nat (clamp 0 (Z.of_nat (length P) - 1) (Math_floor x))) P O)).
  { intros x. apply nth_error_nth'. apply clamp_range, Hlen. }
  assert (V : forall k, (k < length P)%nat ->
             heap s (nth k P O) = nth k (map (heap s) P) THREE.white).
  { intros k Hk. rewrite <- (map_nth (heap s)). apply nth_indep.
    rewrite length_map. exact Hk. }
  destruct idx as [| | |x]; cbv zeta; cbn [isFinite floor_number].
  all: rewrite E; cbn [method_clone]; unfold clone; rewrite V;
    [reflexivity | apply clamp_range, Hlen].
Qed.


(** ** Typed arrays *)

Lemma write_length (k : nat) (v : R) (a : Float32Array) :
  length (write k v a) = length a.
Proof.
  revert k. induction a as [|h t IH]; intros [|k]; cbn [write length]; auto.
Qed.

Lemma read_write_same (k : nat) (v : R) (a : Float32Array) :
  (k < length a)%nat -> read (write k v a) k = v.
Proof.
  unfold read. revert k.
  induction a as [|h t IH]; intros [|k]; cbn [write length nth]; intros H; try lia; auto.
  apply IH. lia.
Qed.

Lemma read_write_other (k j : nat) (v : R) (a : Float32Array) :
  k <> j -> read (write k v a) j = read a j.
Proof.
  unfold read. revert k j.
  induction a as [|h t IH]; intros [|k] [|j]; cbn [write nth]; intros H; try lia; auto.
Qed.

Lemma write3_length (i : nat) (x y z : R) (a : Float32Array) :
  length (write3 i x y z a) = length a.
Proof. unfold write3. now rewrite !write_length. Qed.

Lemma particle_write3_same (i : nat) (x y z : R) (a : Float32Array) :
  (i * 3 + 2 < length a)%nat -> particle (write3 i x y z a) i = (x, y, z).
Proof.
  intros H. unfold particle, write3.
  rewrite (read_write_other (i * 3 + 2) (i * 3)) by lia.
  rewrite (read_write_other (i * 3 + 1) (i * 3)) by lia.
  rewrite (read_write_other (i * 3 + 2) (i * 3 + 1)) by lia.
  rewrite !read_write_same; rewrite ?write_length; try lia.
  reflexivity.
Qed.

Lemma particle_write3_other (i j : nat) (x y z : R) (a : Float32Array) :
  i <> j -> particle (write3 i x y z a) j = particle a j.
Proof.
  intros H. unfold particle, write3.
  rewrite !read_write_other by lia. reflexivity.
Qed.

Lemma read_new_Float32Array (n k : nat) : read (new_Float32Array n) k = 0.
Proof.
  unfold read, new_Float32Array. revert k.
  induction n as [|n IH]; intros [|k]; cbn [repeat nth]; auto.
Qed.

Lemma new_Float32Array_length (n : nat) : length (new_Float32Array n) = n.
Proof. apply repeat_length. Qed.

(** ** Arithmetic of the counts and of the positions *)

Lemma Math_floor_unique (x : R) (z : Z) :
  IZR z <= x < IZR z + 1 -> Math_floor x = z.
Proof.
  intros H. unfold Math_floor. symmetry. apply Int_part_spec. lra.
Qed.

Lemma INR_count : INR count = 64000.
Proof.
  unfold count. rewrite INR_IZR_INZ, Z2Nat.id by lia. reflexivity.
Qed.

Lemma count_Z : Z.of_nat count = 64000%Z.
Proof. unfold count. lia. Qed.

Lemma count_pos : (0 < count)%nat.
Proof. unfold count. lia. Qed.

Lemma ring_count : floor_nat (INR count * 0.35) = Z.to_nat 22400.
Proof.
  unfold floor_nat. rewrite INR_count. f_equal.
  apply Math_floor_unique. lra.
Qed.

Lemma ringParticleCount_rings (bodyConfig : CelestialBodyConfig) :
  hasRings bodyConfig = true ->
  Z.of_nat (ringParticleCount bodyConfig) = 22400%Z
  /\ Z.of_nat (bodyParticleCount bodyConfig) = 41600%Z.
Proof.
  intros H. unfold bodyParticleCount, ringParticleCount. rewrite H, ring_count.
  unfold count. lia.
Qed.

(** The sizes of the groups of the solar-system branch: together they are
    the [count] particles. *)
Lemma solar_sizes :
  Z.of_nat sunCount = 20000%Z /\ Z.of_nat asteroidCount = 8000%Z
  /\ length radii = 10%nat /\ length planetList = 10%nat
  /\ Z.of_nat particlesInRing = 900%Z /\ Z.of_nat particlesPerPlanet = 2700%Z.
Proof.
  assert (Hr : Z.of_nat particlesInRing = 900%Z).
  { unfold particlesInRing, floor_nat, orbitCount.
    change (length radii) with 10%nat. rewrite !INR_IZR_INZ.
    change (Z.of_nat 10) with 10%Z. rewrite (Z2Nat.id 9000) by lia.
    rewrite (Math_floor_unique _ 900) by lra. lia. }
  split; [unfold sunCount; lia|]. split; [unfold asteroidCount; lia|].
  split; [reflexivity|]. split; [reflexivity|]. split; [exact Hr|].
  unfold particlesPerPlanet, floor_nat.
  change (length radii) with 10%nat. change (length planetList) with 10%nat.
  replace (count - (sunCount + 10 * particlesInRing + asteroidCount))%nat
    with (Z.to_nat 27000) by (unfold count, sunCount, asteroidCount; lia).
  rewrite !INR_IZR_INZ, (Z2Nat.id 27000) by lia.
  change (Z.of_nat 10) with 10%Z.
  rewrite (Math_floor_unique _ 2700) by lra. lia.
Qed.

(** From here on the counts are not unfolded by the tactics. *)
Opaque count sunCount orbitCount asteroidCount.

Lemma sphere_norm (r phi theta : R) :
  (r * sin phi * cos theta) * (r * sin phi * cos theta)
  + (r * cos phi) * (r * cos phi)
  + (r * sin phi * sin theta) * (r * sin phi * sin theta) = r * r.
Proof.
  pose proof (sin2_cos2 phi) as Hp. pose proof (sin2_cos2 theta) as Ht.
  unfold Rsqr in Hp, Ht.
  replace (r * sin phi * cos theta * (r * sin phi * cos theta)
           + r * cos phi * (r * cos phi)
           + r * sin phi * sin theta * (r * sin phi * sin theta))
    with (r * r * (sin phi * sin phi * (sin theta * sin theta + cos theta * cos theta)
                   + cos phi * cos phi)) by ring.
  rewrite Ht, Rmult_1_r, Hp. ring.
Qed.

Lemma circle_norm (r theta : R) :
  0 <= r ->
  sqrt ((r * cos theta) * (r * cos theta) + (r * sin theta) * (r * sin theta)) = r.
Proof.
  intros Hr. pose proof (sin2_cos2 theta) as Ht. unfold Rsqr in Ht.
  replace (r * cos theta * (r * cos theta) + r * sin theta * (r * sin theta))
    with (r * r * (sin theta * sin theta + cos theta * cos theta)) by ring.
  rewrite Ht, Rmult_1_r. now apply sqrt_square.
Qed.

Lemma sample_spec_In (P : list THREE.Color) (idx : number) :
  P <> [] -> In (sample_spec P idx) P.
Proof.
  intros HP. rewrite sample_spec_nonempty by (destruct P; cbn; [congruence | lia]).
  apply nth_In. apply clamp_range. destruct P; cbn; [congruence | lia].
Qed.

(** ** Rules for [wp] *)

Lemma wp_ret {A} (a : A) (Q : A -> store -> Prop) (s : store) :
  Q a s -> wp (ret a) Q s.
Proof. exact (fun H => H). Qed.

Lemma wp_bind {A B} (m : M A) (k : A -> M B) (Q : B -> store -> Prop) (s : store) :
  wp m (fun a s' => wp (k a) Q s') s -> wp (bind m k) Q s.
Proof.
  unfold wp, bind. destruct (m s); auto.
Qed.

Lemma wp_mono {A} (m : M A) (Q Q' : A -> store -> Prop) (s : store) :
  wp m Q s -> (forall a s', Q a s' -> Q' a s') -> wp m Q' s.
Proof.
  unfold wp. destruct (m s); auto.
Qed.

Lemma wp_conj {A} (m : M A) (Q1 Q2 : A -> store -> Prop) (s : store) :
  wp m Q1 s -> wp m Q2 s -> wp m (fun a s' => Q1 a s' /\ Q2 a s') s.
Proof.
  unfold wp. destruct (m s); auto.
Qed.

Lemma wp_Ok {A} (m : M A) (Q : A -> store -> Prop) (s : store) :
  wp m Q s <-> exists a s', m s = Ok a s' /\ Q a s'.
Proof.
  unfold wp. destruct (m s) as [a s'|]; split.
  - intros H. now exists a, s'.
  - intros (a' & s'' & E & H). now inversion E; subst.
  - intros [].
  - intros (a' & s'' & E & _). discriminate.
Qed.

Lemma wp_for (I : nat -> store -> Prop) (body : nat -> M unit) :
  forall n start s,
    I start s ->
    (forall i s0, (start <= i < start + n)%nat -> I i s0 ->
                  wp (body i) (fun _ s1 => I (S i) s1) s0) ->
    wp (for_ start n body) (fun _ s' => I (start + n)%nat s') s.
Proof.
  induction n as [|n IH]; intros start s H0 Hb; cbn [for_].
  - apply wp_ret. now rewrite Nat.add_0_r.
  - apply wp_bind. eapply wp_mono; [apply Hb; [lia | exact H0]|].
    intros ? s1 H1. cbv beta.
    replace (start + S n)%nat with (S start + n)%nat by lia.
    apply IH; [exact H1|]. intros i s0 Hi. apply Hb. lia.
Qed.

Lemma wp_for_break (I : store -> Prop) (body : nat -> M bool) :
  forall n start s,
    I s ->
    (forall i s0, I s0 -> wp (body i) (fun _ s1 => I s1) s0) ->
    wp (for_break start n body) (fun _ s' => I s') s.
Proof.
  induction n as [|n IH]; intros start s H0 Hb; cbn [for_break].
  - now apply wp_ret.
  - apply wp_bind. apply wp_mono with (Q := fun _ s1 => I s1); [apply Hb, H0|].
    intros stop s1 H1. cbv beta in H1. destruct stop; cbv beta iota.
    + now apply wp_ret.
    + now apply IH.
Qed.

(** ** [extends] is a preorder, and loops of extending bodies extend *)

Lemma extends_refl (s : store) : extends s s.
Proof. unfold extends, same_lengths. auto 10. Qed.

Lemma extends_trans (s1 s2 s3 : store) :
  extends s1 s2 -> extends s2 s3 -> extends s1 s3.
Proof.
  unfold extends, same_lengths.
  intros (A1 & B1 & C1 & D1 & E1 & F1 & G1) (A2 & B2 & C2 & D2 & E2 & F2 & G2).
  split; [lia|]. split; [|split; [lia|]].
  - intros l Hl. rewrite B2 by lia. now apply B1.
  - repeat split; congruence.
Qed.

Lemma for_extends (body : nat -> M unit) :
  (forall i s, wp (body i) (fun _ s' => extends s s') s) ->
  forall n start s, wp (for_ start n body) (fun _ s' => extends s s') s.
Proof.
  intros Hb n start s.
  eapply wp_mono.
  - apply (wp_for (fun _ s' => extends s s')); [apply extends_refl|].
    intros i s0 _ H. eapply wp_mono; [apply Hb|].
    intros ? s1 H1. cbv beta in *. eapply extends_trans; eassumption.
  - auto.
Qed.

Lemma for_break_extends (body : nat -> M bool) :
  (forall i s, wp (body i) (fun _ s' => extends s s') s) ->
  forall n start s, wp (for_break start n body) (fun _ s' => extends s s') s.
Proof.
  intros Hb n start s.
  apply (wp_for_break (fun s' => extends s s')); [apply extends_refl|].
  intros i s0 H. eapply wp_mono; [apply Hb|].
  intros ? s1 H1. cbv beta in *. eapply extends_trans; eassumption.
Qed.

(** Sequencing two extending computations *)
Lemma bind_extends {A B} (m : M A) (k : A -> M B) (s : store) :
  wp m (fun _ s' => extends s s') s ->
  (forall a s', wp (k a) (fun _ s'' => extends s' s'') s') ->
  wp (bind m k) (fun _ s' => extends s s') s.
Proof.
  intros Hm Hk. apply wp_bind. eapply wp_mono; [exact Hm|].
  intros a s' H. cbv beta in *. eapply wp_mono; [apply Hk|].
  intros b s'' H'. cbv beta in *. eapply extends_trans; eassumption.
Qed.

(** ** The primitive steps *)

Lemma extends_alloc (s : store) (c : THREE.Color) : extends s (alloc s c).
Proof.
  unfold extends, same_lengths, alloc; cbn. split; [lia|]. split; [|auto 10].
  intros l Hl. destruct (Nat.eqb_spec l (next s)); [lia | reflexivity].
Qed.

Section Facts.

Variable rnd : nat -> R.
Variable parseColor : string -> THREE.Color.

Lemma wp_random (Q : R -> store -> Prop) (s : store) :
  Q (rnd (draws s)) (tick s) -> wp (random rnd) Q s.
Proof. exact (fun H => H). Qed.

Lemma wp_newColor (c : THREE.Color) (Q : loc -> store -> Prop) (s : store) :
  Q (next s) (alloc s c) -> wp (newColor c) Q s.
Proof. exact (fun H => H). Qed.

Lemma wp_clone (l : loc) (Q : loc -> store -> Prop) (s : store) :
  Q (next s) (alloc s (heap s l)) -> wp (clone l) Q s.
Proof. exact (fun H => H). Qed.

Lemma wp_newColor_from (v : option loc) (Q : loc -> store -> Prop) (s : store) :
  Q (next s) (alloc s (match v with Some l => heap s l | None => THREE.white end)) ->
  wp (newColor_from v) Q s.
Proof. unfold wp, newColor_from. destruct v; exact (fun H => H). Qed.

Lemma wp_getSafeColor (colors : list loc) (idx : number)
    (Q : loc -> store -> Prop) (s : store) :
  Q (next s) (alloc s (sample_spec (map (heap s) colors) idx)) ->
  wp (getSafeColor colors idx) Q s.
Proof. unfold wp. now rewrite getSafeColor_sample. Qed.

Lemma wp_addScalar (l : loc) (x : R) (Q : loc -> store -> Prop) (s : store) :
  Q l (set_heap s l (THREE.mkColor (THREE.r (heap s l) + x) (THREE.g (heap s l) + x)
                                   (THREE.b (heap s l) + x))) ->
  wp (addScalar l x) Q s.
Proof. exact (fun H => H). Qed.

Lemma wp_multiplyScalar (l : loc) (x : R) (Q : loc -> store -> Prop) (s : store) :
  Q l (set_heap s l (THREE.mkColor (THREE.r (heap s l) * x) (THREE.g (heap s l) * x)
                                   (THREE.b (heap s l) * x))) ->
  wp (multiplyScalar l x) Q s.
Proof. exact (fun H => H). Qed.

Lemma wp_lerp (l d : loc) (alpha : R) (Q : loc -> store -> Prop) (s : store) :
  Q l (set_heap s l (THREE.mkColor
         (THREE.r (heap s l) + (THREE.r (heap s d) - THREE.r (heap s l)) * alpha)
         (THREE.g (heap s l) + (THREE.g (heap s d) - THREE.g (heap s l)) * alpha)
         (THREE.b (heap s l) + (THREE.b (heap s d) - THREE.b (heap s l)) * alpha))) ->
  wp (lerp l d alpha) Q s.
Proof. exact (fun H => H). Qed.

Lemma wp_setColor (i : nat) (l : loc) (Q : unit -> store -> Prop) (s : store) :
  Q tt (set_cols s (write3 i (THREE.r (heap s l)) (THREE.g (heap s l)) (THREE.b (heap s l)) (cols s))) ->
  wp (setColor i l) Q s.
Proof. exact (fun H => H). Qed.

Lemma wp_setTarget (i : nat) (x y z : R) (Q : unit -> store -> Prop) (s : store) :
  Q tt (set_targetPos s (write3 i x y z (targetPos s))) ->
  wp (setTarget i x y z) Q s.
Proof. exact (fun H => H). Qed.

Lemma wp_setInit (i : nat) (x y z : R) (Q : unit -> store -> Prop) (s : store) :
  Q tt (set_initPos s (write3 i x y z (initPos s))) ->
  wp (setInit i x y z) Q s.
Proof. exact (fun H => H). Qed.

Lemma wp_setRands (i : nat) (x y z : R) (Q : unit -> store -> Prop) (s : store) :
  Q tt (set_rands s (write3 i x y z (rands s))) ->
  wp (setRands i x y z) Q s.
Proof. exact (fun H => H). Qed.

Lemma wp_get_currentIdx (Q : nat -> store -> Prop) (s : store) :
  Q (currentIdx s) s -> wp get_currentIdx Q s.
Proof. exact (fun H => H). Qed.

Lemma wp_put_currentIdx (k : nat) (Q : unit -> store -> Prop) (s : store) :
  Q tt (set_currentIdx s k) -> wp (put_currentIdx k) Q s.
Proof. exact (fun H => H). Qed.

Lemma wp_incr_currentIdx (Q : unit -> store -> Prop) (s : store) :
  Q tt (set_currentIdx s (S (currentIdx s))) -> wp incr_currentIdx Q s.
Proof. exact (fun H => H). Qed.

Ltac store_simpl :=
  cbn [heap next draws currentIdx initPos targetPos cols rands
       set_heap alloc tick set_currentIdx set_initPos set_targetPos set_cols set_rands].

Ltac wp_step :=
  lazymatch goal with
  | |- wp (bind _ _) _ _ => apply wp_bind
  | |- wp (ret _) _ _ => apply wp_ret
  | |- wp (random _) _ _ => apply wp_random
  | |- wp (newColor _) _ _ => apply wp_newColor
  | |- wp (newColor_hex _ _) _ _ => apply wp_newColor
  | |- wp (clone _) _ _ => apply wp_clone
  | |- wp (newColor_from _) _ _ => apply wp_newColor_from
  | |- wp (getSafeColor _ _) _ _ => apply wp_getSafeColor
  | |- wp (addScalar _ _) _ _ => apply wp_addScalar
  | |- wp (multiplyScalar _ _) _ _ => apply wp_multiplyScalar
  | |- wp (lerp _ _ _) _ _ => apply wp_lerp
  | |- wp (setColor _ _) _ _ => apply wp_setColor
  | |- wp (setTarget _ _ _ _) _ _ => apply wp_setTarget
  | |- wp (setInit _ _ _ _) _ _ => apply wp_setInit
  | |- wp (setRands _ _ _ _) _ _ => apply wp_setRands
  | |- wp get_currentIdx _ _ => apply wp_get_currentIdx
  | |- wp (put_currentIdx _) _ _ => apply wp_put_currentIdx
  | |- wp incr_currentIdx _ _ => apply wp_incr_currentIdx
  | |- wp (if ?c then _ else _) _ _ => destruct c
  end; cbv beta iota zeta.

Ltac wp_run := cbv beta iota zeta; repeat wp_step.

Ltac solve_extends :=
  unfold extends, same_lengths; store_simpl; split; [|split; [|split]];
  [ lia
  | let l := fresh "l" in
    let Hl := fresh "Hl" in
    intros l Hl;
    repeat (match goal with
            | |- context [Nat.eqb ?a ?b] => destruct (Nat.eqb_spec a b); [lia|]
            end);
    reflexivity
  | lia
  | rewrite ?write3_length; auto ].

(** ** Every step of the generation extends the store

    No step raises a [TypeError], and a colour object is only ever written
    by the step that allocated it. *)

Lemma sunParticle_extends (sunColors : list loc) (s : store) :
  wp (sunParticle rnd sunColors) (fun _ s' => extends s s') s.
Proof.
  unfold sunParticle. wp_run; solve_extends.
Qed.

Lemma orbitParticle_extends (orbitColor : loc) (r : R) (n j : nat) (s : store) :
  wp (orbitParticle rnd orbitColor r n j) (fun _ s' => extends s s') s.
Proof.
  unfold orbitParticle. wp_run; solve_extends.
Qed.

Lemma orbitRing_extends (orbitColor : loc) (rIdx : nat) (s : store) :
  wp (orbitRing rnd orbitColor rIdx) (fun _ s' => extends s s') s.
Proof.
  unfold orbitRing. cbv zeta. apply for_extends.
  intros. apply orbitParticle_extends.
Qed.

Lemma asteroidParticle_extends (asteroidColor : loc) (s : store) :
  wp (asteroidParticle rnd asteroidColor) (fun _ s' => extends s s') s.
Proof.
  unfold asteroidParticle. wp_run; solve_extends.
Qed.

Lemma planetParticle_extends (planet : CelestialBodyConfig) (cx cz : R)
    (pColors pRingColors : list loc) (n k : nat) (s : store) :
  wp (planetParticle rnd planet cx cz pColors pRingColors n k)
     (fun _ s' => extends s s') s.
Proof.
  unfold planetParticle. wp_run; solve_extends.
Qed.

Lemma voidParticle_extends (s : store) :
  wp voidParticle (fun _ s' => extends s s') s.
Proof.
  unfold voidParticle. wp_run; solve_extends.
Qed.

Lemma makePalette_spec (hex : list string) (s : store) :
  wp (makePalette parseColor hex) (fun pal s' => palette_of parseColor hex s pal s') s.
Proof.
  unfold makePalette. revert s.
  induction hex as [|h t IH]; intros s; cbn [mapM].
  - apply wp_ret. unfold palette_of. cbn [map].
    repeat split; try reflexivity; try apply extends_refl; constructor.
  - apply wp_bind, wp_newColor. apply wp_bind.
    eapply wp_mono; [apply IH|].
    intros pal s' (E & F & V & D). apply wp_ret.
    pose proof (extends_alloc s (parseColor h)) as E0.
    unfold palette_of. split; [eapply extends_trans; eassumption|].
    assert (Hn : (S (next s) <= next s')%nat) by (destruct E as (E & _); exact E).
    split; [|split; [|exact D]].
    + constructor; [lia|].
      eapply Forall_impl; [|exact F]. cbn [alloc next]. intros; lia.
    + cbn [map]. f_equal; [|exact V].
      destruct E as (_ & E & _). rewrite E by (cbn [alloc next]; lia).
      cbn [alloc heap]. now rewrite Nat.eqb_refl.
Qed.

Lemma makeRingPalette_spec (hex : option (list string)) (s : store) :
  wp (makeRingPalette parseColor hex)
     (fun pal s' => palette_of parseColor (match hex with Some rc => rc | None => [] end) s pal s') s.
Proof.
  destruct hex as [rc|]; cbn [makeRingPalette].
  - apply makePalette_spec.
  - apply wp_ret. unfold palette_of. cbn [map].
    repeat split; try reflexivity; try apply extends_refl; constructor.
Qed.

Lemma palette_extends (hex : list string) (s : store) (pal : list loc) (s' : store) :
  palette_of parseColor hex s pal s' -> extends s s'.
Proof. now intros (E & _). Qed.

Lemma planetParticles_extends (planet : CelestialBodyConfig) (cx cz : R)
    (pColors pRingColors : list loc) (n : nat) (s : store) :
  wp (planetParticles rnd planet cx cz pColors pRingColors n) (fun _ s' => extends s s') s.
Proof.
  unfold planetParticles. apply for_break_extends.
  intros. apply planetParticle_extends.
Qed.

Lemma planetBody_extends (planetList : list CelestialBodyConfig) (n p : nat) (s : store) :
  (p < length planetList)%nat ->
  wp (planetBody rnd parseColor planetList n p) (fun _ s' => extends s s') s.
Proof.
  intros Hp. unfold planetBody.
  destruct (nth_error planetList p) as [planet|] eqn:E;
    [|apply nth_error_None in E; lia].
  cbv zeta. apply bind_extends.
  - eapply wp_mono; [apply makePalette_spec|]. intros ? ?. apply palette_extends.
  - intros pColors s1. apply bind_extends.
    + eapply wp_mono; [apply makeRingPalette_spec|]. intros ? ?. apply palette_extends.
    + intros pRingColors s2. apply planetParticles_extends.
Qed.

Lemma for_extends_range (body : nat -> M unit) :
  forall n start s,
    (forall i s0, (start <= i < start + n)%nat -> wp (body i) (fun _ s' => extends s0 s') s0) ->
    wp (for_ start n body) (fun _ s' => extends s s') s.
Proof.
  intros n start s Hb.
  eapply wp_mono.
  - apply (wp_for (fun _ s' => extends s s')); [apply extends_refl|].
    intros i s0 Hi H. eapply wp_mono; [apply Hb, Hi|].
    intros ? s1 H1. cbv beta in *. eapply extends_trans; eassumption.
  - auto.
Qed.

Lemma solarParticles_extends (sunColors : list loc) (orbitColor asteroidColor : loc)
    (s : store) :
  wp (solarParticles rnd parseColor sunColors orbitColor asteroidColor)
     (fun _ s' => extends s s') s.
Proof.
  unfold solarParticles. cbv zeta.
  apply bind_extends; [wp_run; solve_extends|]. intros _ s4.
  apply bind_extends; [apply for_extends; intros; apply sunParticle_extends|]. intros _ s5.
  apply bind_extends; [apply for_extends; intros; apply orbitRing_extends|]. intros _ s6.
  apply bind_extends; [apply for_extends; intros; apply asteroidParticle_extends|].
  intros _ s7.
  apply bind_extends; [wp_run; solve_extends|]. intros cur s8.
  apply bind_extends.
  { apply for_extends_range. intros i s0 Hi. apply planetBody_extends. lia. }
  intros _ s9.
  apply bind_extends; [wp_run; solve_extends|]. intros cur' s10.
  apply for_extends. intros. apply voidParticle_extends.
Qed.

Lemma solarSystem_extends (bodyConfig : CelestialBodyConfig) (s : store) :
  wp (solarSystem rnd parseColor bodyConfig) (fun _ s' => extends s s') s.
Proof.
  unfold solarSystem.
  apply bind_extends.
  { eapply wp_mono; [apply makePalette_spec|]. intros ? ?. apply palette_extends. }
  intros sunColors s1. apply bind_extends; [wp_run; solve_extends|].
  intros orbitColor s2. apply bind_extends; [wp_run; solve_extends|].
  intros asteroidColor s3. apply solarParticles_extends.
Qed.

Lemma earthColor_extends (bodyColors : list loc) (r tx ty tz : R) (s : store) :
  wp (earthColor rnd bodyColors r tx ty tz) (fun _ s' => extends s s') s.
Proof.
  unfold earthColor. wp_run; solve_extends.
Qed.

Lemma bodyColor_extends (bodyConfig : CelestialBodyConfig) (bodyColors : list loc)
    (r tx ty tz : R) (s : store) :
  wp (bodyColor rnd bodyConfig bodyColors r tx ty tz) (fun _ s' => extends s s') s.
Proof.
  unfold bodyColor. cbv zeta.
  destruct (String.eqb (name bodyConfig) "Earth"); [apply earthColor_extends|].
  wp_run; solve_extends.
Qed.

Lemma singleParticle_extends (bodyConfig : CelestialBodyConfig)
    (bodyColors ringColors : list loc) (i : nat) (s : store) :
  wp (singleParticle rnd bodyConfig bodyColors ringColors i) (fun _ s' => extends s s') s.
Proof.
  unfold singleParticle. cbv zeta.
  apply bind_extends; [wp_run; solve_extends|]. intros color0 s1.
  apply bind_extends.
  - destruct (Nat.leb (bodyParticleCount bodyConfig) i && hasRings bodyConfig).
    + wp_run; solve_extends.
    + apply bind_extends; [wp_run; solve_extends|]. intros u1 s2.
      apply bind_extends; [wp_run; solve_extends|]. intros u2 s3.
      apply bodyColor_extends.
  - intros [[[tx ty] tz] color] s2. wp_run; solve_extends.
Qed.

Lemma singleParticles_extends (bodyConfig : CelestialBodyConfig)
    (bodyColors ringColors : list loc) (s : store) :
  wp (singleParticles rnd bodyConfig bodyColors ringColors) (fun _ s' => extends s s') s.
Proof.
  unfold singleParticles. apply for_extends. intros. apply singleParticle_extends.
Qed.

Lemma singlePlanet_extends (bodyConfig : CelestialBodyConfig) (s : store) :
  wp (singlePlanet rnd parseColor bodyConfig) (fun _ s' => extends s s') s.
Proof.
  unfold singlePlanet.
  apply bind_extends.
  { eapply wp_mono; [apply makePalette_spec|]. intros ? ?. apply palette_extends. }
  intros bodyColors s1. apply bind_extends.
  { eapply wp_mono; [apply makeRingPalette_spec|]. intros ? ?. apply palette_extends. }
  intros rc s2. apply singleParticles_extends.
Qed.

Lemma explosionParticle_extends (i : nat) (s : store) :
  wp (explosionParticle rnd i) (fun _ s' => extends s s') s.
Proof.
  unfold explosionParticle. wp_run; solve_extends.
Qed.

Lemma palette_kept (hex : list string) (s s1 s2 : store) (pal : list loc) :
  palette_of parseColor hex s pal s1 -> extends s1 s2 -> map (heap s2) pal = map parseColor hex.
Proof.
  intros (_ & F & V & _) (_ & E & _). rewrite <- V.
  apply map_ext_in. intros l Hl. apply E.
  rewrite Forall_forall in F. apply F in Hl. lia.
Qed.

(** C10. Generation never changes a palette entry.  [getSafeColor] returns
    an object allocated by the call and leaves every earlier object as it
    was; and from the creation of the palettes to the end of the particle
    loops (with the glow [addScalar], the Cassini-gap and orbit-line
    [multiplyScalar] and the Earth [lerp]) every entry of the body and ring
    palettes, of the Sun palette and of the palettes of each mini planet,
    and the orbit and asteroid base colours, keep the value they were
    created with. *)
Theorem palettes_never_mutated :
  (forall (colors : list loc) (idx : number) (s : store),
      wp (getSafeColor colors idx)
         (fun l s' => (next s <= l < next s')%nat
                      /\ forall l', (l' < next s)%nat -> heap s' l' = heap s l') s)
  /\ (forall (bodyConfig : CelestialBodyConfig) (s : store),
         wp (makePalette parseColor (colors bodyConfig)) (fun bodyColors s1 =>
         wp (makeRingPalette parseColor (ringColors bodyConfig)) (fun ringPal s2 =>
         wp (singleParticles rnd bodyConfig bodyColors ringPal) (fun _ s3 =>
              map (heap s3) bodyColors = map parseColor (colors bodyConfig)
              /\ map (heap s3) ringPal
                 = map parseColor (match ringColors bodyConfig with
                                   | Some rc => rc
                                   | None => []
                                   end)) s2) s1) s)
  /\ (forall (bodyConfig : CelestialBodyConfig) (s : store),
         wp (makePalette parseColor (colors bodyConfig)) (fun sunColors s1 =>
         wp (newColor (THREE.mkColor 0.2 0.4 0.8)) (fun orbitColor s2 =>
         wp (newColor (THREE.mkColor 0.5 0.5 0.5)) (fun asteroidColor s3 =>
         wp (solarParticles rnd parseColor sunColors orbitColor asteroidColor) (fun _ s4 =>
              map (heap s4) sunColors = map parseColor (colors bodyConfig)
              /\ heap s4 orbitColor = THREE.mkColor 0.2 0.4 0.8
              /\ heap s4 asteroidColor = THREE.mkColor 0.5 0.5 0.5) s3) s2) s1) s)
  /\ (forall (planet : CelestialBodyConfig) (cx cz : R) (n : nat) (s : store),
         wp (makePalette parseColor (colors planet)) (fun pColors s1 =>
         wp (makeRingPalette parseColor (ringColors planet)) (fun pRingColors s2 =>
         wp (planetParticles rnd planet cx cz pColors pRingColors n) (fun _ s3 =>
              map (heap s3) pColors = map parseColor (colors planet)
              /\ map (heap s3) pRingColors
                 = map parseColor (match ringColors planet with
                                   | Some rc => rc
                                   | None => []
                                   end)) s2) s1) s).
Proof.
  split; [|split; [|split]].
  - intros colors idx s. apply wp_getSafeColor. store_simpl.
    split; [lia|]. intros l' Hl'.
    destruct (Nat.eqb_spec l' (next s)); [lia | reflexivity].
  - intros bodyConfig s.
    eapply wp_mono; [apply makePalette_spec|]. intros bodyColors s1 P1. cbv beta in *.
    eapply wp_mono; [apply makeRingPalette_spec|]. intros rc s2 P2. cbv beta in *.
    eapply wp_mono; [apply singleParticles_extends|]. intros ? s3 E3. cbv beta in *.
    split.
    + eapply palette_kept; [exact P1|].
      eapply extends_trans; [eapply palette_extends|]; eassumption.
    + eapply palette_kept; eassumption.
  - intros bodyConfig s.
    eapply wp_mono; [apply makePalette_spec|]. intros sunColors s1 P1. cbv beta in *.
    apply wp_newColor, wp_newColor.
    eapply wp_mono; [apply solarParticles_extends|]. intros ? s4 E4. cbv beta in *.
    split; [|split].
    + eapply palette_kept; [exact P1|].
      eapply extends_trans; [apply extends_alloc|].
      eapply extends_trans; [apply extends_alloc | exact E4].
    + destruct E4 as (_ & E4 & _). rewrite E4 by (store_simpl; lia).
      store_simpl. destruct (Nat.eqb_spec (next s1) (S (next s1))); [lia|].
      now rewrite Nat.eqb_refl.
    + destruct E4 as (_ & E4 & _). rewrite E4 by (store_simpl; lia).
      store_simpl. now rewrite Nat.eqb_refl.
  - intros planet cx cz n s.
    eapply wp_mono; [apply makePalette_spec|]. intros pColors s1 P1. cbv beta in *.
    eapply wp_mono; [apply makeRingPalette_spec|]. intros rc s2 P2. cbv beta in *.
    eapply wp_mono; [apply planetParticles_extends|]. intros ? s3 E3. cbv beta in *.
    split.
    + eapply palette_kept; [exact P1|].
      eapply extends_trans; [eapply palette_extends|]; eassumption.
    + eapply palette_kept; eassumption.
Qed.

(** ** One iteration of the single-planet loop *)

Lemma map_heap_alloc (s : store) (c : THREE.Color) (pal : list loc) :
  Forall (fun l => (l < next s)%nat) pal ->
  map (fun l' => if Nat.eqb l' (next s) then c else heap s l') pal = map (heap s) pal.
Proof.
  intros F. apply map_ext_in. intros l Hl.
  rewrite Forall_forall in F. apply F in Hl.
  destruct (Nat.eqb_spec l (next s)); [lia | reflexivity].
Qed.

Ltac post_arrays :=
  store_simpl;
  split; [now rewrite ?write3_length|];
  split; [now rewrite ?write3_length|];
  split; [let j := fresh "j" in
          let Hj := fresh "Hj" in
          intros j Hj; split; apply particle_write3_other; congruence|];
  split; [reflexivity|];
  split; [reflexivity|].

Lemma singleParticle_spec (bodyConfig : CelestialBodyConfig) (bodyColors ringPal : list loc)
    (i : nat) (s : store) :
  Forall (fun l => (l < next s)%nat) bodyColors ->
  Forall (fun l => (l < next s)%nat) ringPal ->
  (i * 3 + 2 < length (targetPos s))%nat ->
  (i * 3 + 2 < length (cols s))%nat ->
  wp (singleParticle rnd bodyConfig bodyColors ringPal i)
     (fun _ s' => particle_post rnd bodyConfig bodyColors ringPal i s s') s.
Proof.
  intros Fb Fr Ht Hc. unfold singleParticle, particle_post, particle_ok. cbv zeta.
  destruct (Nat.leb (bodyParticleCount bodyConfig) i && hasRings bodyConfig) eqn:Hring.
  - wp_run; post_arrays.
    all: rewrite !particle_write3_same by assumption.
    all: store_simpl; rewrite ?Nat.eqb_refl; rewrite map_heap_alloc by assumption.
    all: (split;
          [ exists (rnd (draws s)), (rnd (S (draws s))), (rnd (S (S (draws s))));
            repeat (split; [eexists; reflexivity|]); reflexivity
          | eexists; (left; reflexivity) || (right; reflexivity) ]).
  - unfold bodyColor. cbv zeta.
    destruct (String.eqb (name bodyConfig) "Earth") eqn:HE.
    + unfold earthColor. wp_run; post_arrays; exact I.
    + wp_run; post_arrays.
      all: rewrite !particle_write3_same by assumption.
      all: store_simpl; rewrite ?Nat.eqb_refl; rewrite map_heap_alloc by assumption.
      all: (split;
            [ exists (rnd (draws s)), (rnd (S (draws s)));
              repeat (split; [eexists; reflexivity|]); reflexivity
            | eexists; reflexivity ]).
Qed.

Lemma map_heap_extends (s s' : store) (pal : list loc) :
  extends s s' -> Forall (fun l => (l < next s)%nat) pal ->
  map (heap s') pal = map (heap s) pal.
Proof.
  intros (_ & E & _) F. apply map_ext_in. intros l Hl.
  rewrite Forall_forall in F. apply E, F, Hl.
Qed.

Lemma Forall_lt_extends (s s' : store) (pal : list loc) :
  extends s s' -> Forall (fun l => (l < next s)%nat) pal ->
  Forall (fun l => (l < next s')%nat) pal.
Proof.
  intros (E & _) F. eapply Forall_impl; [|exact F]. cbv beta. intros; lia.
Qed.

(** ** The single-planet particle loop *)

Lemma singleParticles_spec (bodyConfig : CelestialBodyConfig) (bodyColors ringPal : list loc)
    (s : store) :
  Forall (fun l => (l < next s)%nat) bodyColors ->
  Forall (fun l => (l < next s)%nat) ringPal ->
  length (targetPos s) = (count * 3)%nat ->
  length (cols s) = (count * 3)%nat ->
  wp (singleParticles rnd bodyConfig bodyColors ringPal)
     (fun _ s' => particles_post rnd bodyConfig (map (heap s) bodyColors) (map (heap s) ringPal)
                    count s s') s.
Proof.
  intros Fb Fr Lt Lc. unfold singleParticles.
  apply (wp_for (fun k s' => particles_post rnd bodyConfig (map (heap s) bodyColors)
                               (map (heap s) ringPal) k s s')).
  - unfold particles_post. repeat split; try apply extends_refl. intros i Hi. lia.
  - intros i s0 Hi (E & Ei & Er & Hok).
    assert (L : same_lengths s s0) by (destruct E as (_ & _ & _ & L); exact L).
    destruct L as (_ & Lt0 & Lc0 & _).
    eapply wp_mono.
    + apply wp_conj.
      * apply singleParticle_spec.
        -- eapply Forall_lt_extends; eassumption.
        -- eapply Forall_lt_extends; eassumption.
        -- lia.
        -- lia.
      * apply singleParticle_extends.
    + intros ? s1 ((Lt1 & Lc1 & Hother & Hi1 & Hr1 & Hnew) & E1). cbv beta.
      unfold particles_post. split; [eapply extends_trans; eassumption|].
      split; [congruence|]. split; [congruence|].
      intros j Hj. destruct (Nat.eq_dec j i) as [->|Hne].
      * rewrite <- (map_heap_extends s s0 bodyColors E Fb).
        rewrite <- (map_heap_extends s s0 ringPal E Fr). exact Hnew.
      * destruct (Hother j Hne) as (Hp & Hq). rewrite Hp, Hq. apply Hok. lia.
Qed.

Lemma singlePlanet_spec (bodyConfig : CelestialBodyConfig) (s : store) :
  length (targetPos s) = (count * 3)%nat ->
  length (cols s) = (count * 3)%nat ->
  wp (singlePlanet rnd parseColor bodyConfig)
     (fun _ s' => particles_post rnd bodyConfig
                    (map parseColor (colors bodyConfig))
                    (map parseColor (match ringColors bodyConfig with
                                     | Some rc => rc
                                     | None => []
                                     end))
                    count s s') s.
Proof.
  intros Lt Lc. unfold singlePlanet.
  apply wp_bind. eapply wp_mono; [apply makePalette_spec|].
  intros bodyColors s1 P1. cbv beta.
  apply wp_bind. eapply wp_mono; [apply makeRingPalette_spec|].
  intros ringPal s2 P2. cbv beta.
  pose proof (palette_extends _ _ _ _ P1) as E1.
  pose proof (palette_extends _ _ _ _ P2) as E2.
  destruct P1 as (_ & F1 & V1 & _ & _ & I1 & T1 & C1 & R1).
  destruct P2 as (_ & F2 & V2 & _ & _ & I2 & T2 & C2 & R2).
  assert (Fb : Forall (fun l => (l < next s2)%nat) bodyColors).
  { eapply Forall_lt_extends; [exact E2|].
    eapply Forall_impl; [|exact F1]. cbv beta. intros; lia. }
  assert (Fr : Forall (fun l => (l < next s2)%nat) ringPal).
  { eapply Forall_impl; [|exact F2]. cbv beta. intros; lia. }
  eapply wp_mono.
  - apply singleParticles_spec; try assumption; congruence.
  - intros ? s3 (E3 & I3 & R3 & Hok). cbv beta.
    unfold particles_post.
    split; [eapply extends_trans; [exact E1|]; eapply extends_trans; eassumption|].
    split; [congruence|]. split; [congruence|].
    rewrite <- V2.
    rewrite <- V1, <- (map_heap_extends s1 s2 bodyColors E2).
    + exact Hok.
    + eapply Forall_impl; [|exact F1]. cbv beta. intros; lia.
Qed.

(** ** The origin cloud *)

Lemma explosionParticle_spec (i : nat) (s : store) :
  (i * 3 + 2 < length (initPos s))%nat ->
  (i * 3 + 2 < length (rands s))%nat ->
  wp (explosionParticle rnd i)
     (fun _ s' =>
        draws s' = (6 + draws s)%nat
        /\ targetPos s' = targetPos s /\ cols s' = cols s
        /\ (forall j, j <> i -> particle (initPos s') j = particle (initPos s) j
                                /\ particle (rands s') j = particle (rands s) j)
        /\ particle (initPos s') i = origin_point rnd (draws s)
        /\ particle (rands s') i = seed_point rnd (draws s)) s.
Proof.
  intros Hi Hr. unfold explosionParticle. wp_run. store_simpl.
  split; [reflexivity|]. split; [reflexivity|]. split; [reflexivity|].
  split; [intros j Hj; split; apply particle_write3_other; congruence|].
  rewrite !particle_write3_same by assumption.
  split; reflexivity.
Qed.

Lemma explosion_spec (s : store) :
  length (initPos s) = (count * 3)%nat ->
  length (rands s) = (count * 3)%nat ->
  wp (for_ 0 count (explosionParticle rnd))
     (fun _ s' => origin_post rnd count (draws s) s s') s.
Proof.
  intros Li Lr.
  apply (wp_for (fun k s' => origin_post rnd k (draws s) s s')).
  - unfold origin_post. split; [lia|]. split; [apply extends_refl|].
    split; [reflexivity|]. split; [reflexivity|]. intros i Hi. lia.
  - intros i s0 Hi (D & E & T & C & Hok).
    assert (L : same_lengths s s0) by (destruct E as (_ & _ & _ & L); exact L).
    destruct L as (Li0 & _ & _ & Lr0).
    eapply wp_mono.
    + apply wp_conj.
      * apply explosionParticle_spec; lia.
      * apply explosionParticle_extends.
    + intros ? s1 ((D1 & T1 & C1 & Hother & Hi1 & Hr1) & E1). cbv beta.
      unfold origin_post. split; [lia|].
      split; [eapply extends_trans; eassumption|].
      split; [congruence|]. split; [congruence|].
      intros j Hj. destruct (Nat.eq_dec j i) as [->|Hne].
      * rewrite Hi1, Hr1, D. auto.
      * destruct (Hother j Hne) as (Hp & Hq). rewrite Hp, Hq. apply Hok. lia.
Qed.

(** ** The whole generation *)

Lemma generate_spec (bodyConfig : CelestialBodyConfig) (s : store) :
  wp (generate rnd parseColor bodyConfig) (generate_post rnd parseColor bodyConfig s) s.
Proof.
  unfold generate.
  apply wp_bind. unfold newArrays at 1. unfold wp at 1. cbv beta iota.
  set (s0 := mkStore _ _ _ _ _ _ _ _).
  assert (L0 : length (initPos s0) = (count * 3)%nat
               /\ length (targetPos s0) = (count * 3)%nat
               /\ length (cols s0) = (count * 3)%nat
               /\ length (rands s0) = (count * 3)%nat).
  { subst s0. store_simpl. now rewrite new_Float32Array_length. }
  destruct L0 as (Li & Lt & Lc & Lr).
  assert (H0 : next s0 = next s /\ heap s0 = heap s /\ draws s0 = draws s)
    by (subst s0; auto).
  destruct H0 as (N0 & Hp0 & D0).
  clearbody s0.
  apply wp_bind.
  apply wp_mono with
    (Q := fun (_ : unit) s1 =>
            extends s0 s1
            /\ (String.eqb (name bodyConfig) "Sun" = false ->
                forall i, (i < count)%nat ->
                  particle_ok rnd bodyConfig
                    (map parseColor (colors bodyConfig))
                    (map parseColor (ring_hex bodyConfig)) i
                    (particle (targetPos s1) i) (particle (cols s1) i))).
  { destruct (String.eqb (name bodyConfig) "Sun") eqn:HS.
    - eapply wp_mono; [apply solarSystem_extends|].
      intros ? s1 E. cbv beta. split; [exact E | discriminate].
    - eapply wp_mono; [apply singlePlanet_spec; assumption|].
      intros ? s1 (E & _ & _ & Hok). cbv beta. split; [exact E|].
      intros _. exact Hok. }
  intros ? s1 (E1 & Hok). cbv beta.
  assert (L1 : same_lengths s0 s1) by (destruct E1 as (_ & _ & _ & L); exact L).
  destruct L1 as (Li1 & _ & _ & Lr1).
  apply wp_bind.
  eapply wp_mono; [apply explosion_spec; congruence|].
  intros ? s2 (D2 & E2 & T2 & C2 & Horig). cbv beta.
  unfold returnArrays, wp, generate_post. cbn [Particles.initialPositions
    Particles.targetPositions Particles.colors Particles.randoms].
  pose proof (extends_trans _ _ _ E1 E2) as E.
  destruct E as (En & Eh & Ed & (Eli & _)).
  split; [lia|]. split; [intros l Hl; rewrite Eh by lia; now rewrite Hp0|].
  split; [congruence|].
  split.
  - exists (draws s1). destruct E1 as (_ & _ & Ed1 & _).
    split; [lia|]. split; [exact D2 | exact Horig].
  - rewrite T2, C2. exact Hok.
Qed.

(** ** End-to-end properties of the generated set *)

(** C6. For the descriptor TestPlanet (radius 2, the two colours #000000
    and #FFFFFF, no rings, a name without a branch of its own) generation
    ends normally, every target position has Euclidean norm 2, and every
    generated colour is one of the two palette entries. *)
Theorem TestPlanet_sphere_and_palette (t : BodyType) (rc : option (list string))
    (s : store) :
  wp (generate rnd parseColor (TestPlanet t rc))
     (fun p _ =>
        forall i, (i < count)%nat ->
          (let '(x, y, z) := particle (Particles.targetPositions p) i in
           sqrt (x * x + y * y + z * z) = 2)
          /\ (particle (Particles.colors p) i = rgb (parseColor "#000000")
              \/ particle (Particles.colors p) i = rgb (parseColor "#FFFFFF"))) s.
Proof.
  eapply wp_mono; [apply generate_spec|].
  intros p s' (_ & _ & _ & _ & Hok) i Hi.
  specialize (Hok eq_refl i Hi). unfold particle_ok in Hok.
  cbn [hasRings TestPlanet] in Hok. rewrite andb_false_r in Hok.
  cbn [name String.eqb Ascii.eqb Bool.eqb] in Hok.
  destruct Hok as ((u1 & u2 & _ & _ & Hpos) & (idx & Hcol)).
  split.
  - rewrite Hpos. unfold sphere_point. cbn [radius].
    rewrite sphere_norm. apply sqrt_square. lra.
  - rewrite Hcol. cbn [colors TestPlanet map].
    assert (HIn : In (sample_spec [parseColor "#000000"; parseColor "#FFFFFF"] idx)
                     [parseColor "#000000"; parseColor "#FFFFFF"])
      by (apply sample_spec_In; discriminate).
    destruct HIn as [E|[E|[]]]; rewrite <- E; auto.
Qed.

Section RandomInRange.

(** [Math.random()] returns a number in [0, 1). *)
Hypothesis rnd_range : forall k : nat, 0 <= rnd k < 1.

Lemma drawn_range (u : R) : drawn rnd u -> 0 <= u < 1.
Proof. intros (k & ->). apply rnd_range. Qed.

(** C7. For every single-body descriptor with rings and radius 3, generation
    ends normally and every ring particle (the particles from index
    [bodyParticleCount] = 41600 on) has a target position whose distance
    from the axis, in the ring plane, lies between 3 * 1.3 and 3 * 2.2 and
    whose vertical offset is at most 0.05 in magnitude. *)
Theorem ring_particles_in_annulus (bodyConfig : CelestialBodyConfig) (s : store) :
  String.eqb (name bodyConfig) "Sun" = false ->
  hasRings bodyConfig = true ->
  radius bodyConfig = 3 ->
  Z.of_nat (bodyParticleCount bodyConfig) = 41600%Z
  /\ wp (generate rnd parseColor bodyConfig)
        (fun p _ =>
           forall i, (bodyParticleCount bodyConfig <= i < count)%nat ->
             let '(x, y, z) := particle (Particles.targetPositions p) i in
             3 * 1.3 <= sqrt (x * x + z * z) <= 3 * 2.2 /\ Rabs y <= 0.05) s.
Proof.
  intros HS HR Hrad. split; [apply ringParticleCount_rings, HR|].
  eapply wp_mono; [apply generate_spec|].
  intros p s' (_ & _ & _ & _ & Hok) i Hi.
  specialize (Hok HS i (proj2 Hi)). unfold particle_ok in Hok.
  rewrite HR, (proj2 (Nat.leb_le _ _) (proj1 Hi)) in Hok. cbn [andb] in Hok.
  destruct Hok as ((u1 & u2 & u3 & D1 & D2 & D3 & Hpos) & _).
  apply drawn_range in D1, D3.
  rewrite Hpos. unfold ring_point. rewrite Hrad.
  rewrite circle_norm by nra.
  split; [nra|]. apply Rabs_le. lra.
Qed.

End RandomInRange.



(** ** The memoised generation across renders *)

Lemma render_recomputes (prev : option Memo) (bodyConfig : CelestialBodyConfig)
    (s : store) :
  match prev with
  | Some m => same_body (dep m) bodyConfig = false
  | None => True
  end ->
  wp (render rnd parseColor prev bodyConfig) (recomputed rnd bodyConfig s) s.
Proof.
  intros H.
  assert (G : wp (p <- generate rnd parseColor bodyConfig ;;
                  ret (mkMemo bodyConfig p (Particles.initialPositions p)))
                 (recomputed rnd bodyConfig s) s).
  { apply wp_bind. eapply wp_mono; [apply generate_spec|].
    intros p s' (_ & _ & _ & Hd & _). apply wp_ret.
    unfold recomputed. cbn [dep currentPositions particles]. auto. }
  unfold render. destruct prev as [m|]; [rewrite H|]; exact G.
Qed.

(** C2 (amended). The origin cloud and the seeds are computed by a procedure
    that does not read the descriptor: particle [i] gets the origin point and
    the seeds of six consecutive draws.  They are reused as long as the
    descriptor stays the same, but a render with a new descriptor (or the
    first render) recomputes them, with the target arrays, from draws that
    were not made before, and resets [currentPositions] to the new origin
    cloud. *)
Theorem origin_cloud_per_descriptor :
  (forall (m : Memo) (bodyConfig : CelestialBodyConfig) (s : store),
      same_body (dep m) bodyConfig = true ->
      render rnd parseColor (Some m) bodyConfig s = Ok m s)
  /\ (forall (prev : option Memo) (bodyConfig : CelestialBodyConfig) (s : store),
         match prev with
         | Some m => same_body (dep m) bodyConfig = false
         | None => True
         end ->
         wp (render rnd parseColor prev bodyConfig)
            (fun m' s' =>
               dep m' = bodyConfig
               /\ currentPositions m' = Particles.initialPositions (particles m')
               /\ exists d, (draws s <= d)%nat /\ draws s' = (6 * count + d)%nat
                  /\ forall i, (i < count)%nat ->
                       particle (Particles.initialPositions (particles m')) i
                       = origin_point rnd (6 * i + d)
                       /\ particle (Particles.randoms (particles m')) i
                          = seed_point rnd (6 * i + d)) s).
Proof.
  split.
  - intros m bodyConfig s H. unfold render. now rewrite H.
  - intros prev bodyConfig s H. apply render_recomputes, H.
Qed.

(** ** The body selection policy *)

Lemma changeCelestialBody_redraw (fuel : nat) (catalog : list CelestialBodyConfig)
    (currentBody : CelestialBodyConfig) (s : store) :
  redraw rnd catalog currentBody (draws s) ->
  changeCelestialBody rnd (S fuel) catalog currentBody s
  = changeCelestialBody rnd fuel catalog currentBody (tick s).
Proof.
  intros (b & E & N). cbn [changeCelestialBody]. unfold bind, random.
  fold (draw_index rnd catalog (draws s)). now rewrite E, N.
Qed.

Lemma changeCelestialBody_accept (fuel : nat) (catalog : list CelestialBodyConfig)
    (currentBody b : CelestialBodyConfig) (s : store) :
  accept rnd catalog currentBody (draws s) b ->
  changeCelestialBody rnd (S fuel) catalog currentBody s = Ok (Some b) (tick s).
Proof.
  intros (E & N). cbn [changeCelestialBody]. unfold bind, random.
  fold (draw_index rnd catalog (draws s)). now rewrite E, N.
Qed.

Lemma draws_ticks (n : nat) (s : store) : draws (ticks n s) = (n + draws s)%nat.
Proof.
  induction n as [|n IH]; [reflexivity|].
  cbn [ticks tick draws]. now rewrite IH.
Qed.

Lemma ticks_tick (n : nat) (s : store) : ticks n (tick s) = ticks (S n) s.
Proof.
  induction n as [|n IH]; [reflexivity|].
  cbn [ticks] in *. now rewrite IH.
Qed.

(** The loop draws until an entry with another name comes: after [n]
    re-draws and one accepted draw it has used exactly [n + 1] draws. *)
Lemma changeCelestialBody_run (catalog : list CelestialBodyConfig)
    (currentBody b : CelestialBodyConfig) :
  forall (n : nat) (s : store),
    (forall j, (j < n)%nat -> redraw rnd catalog currentBody (j + draws s)) ->
    accept rnd catalog currentBody (n + draws s) b ->
    (forall fuel, (fuel <= n)%nat ->
        changeCelestialBody rnd fuel catalog currentBody s = Ok None (ticks fuel s))
    /\ (forall fuel, (n < fuel)%nat ->
        changeCelestialBody rnd fuel catalog currentBody s = Ok (Some b) (ticks (S n) s)).
Proof.
  induction n as [|n IH]; intros s Hre Hacc.
  - split.
    + intros fuel Hf. assert (fuel = O) by lia. subst. reflexivity.
    + intros [|fuel] Hf; [lia|]. now apply changeCelestialBody_accept.
  - assert (R0 : redraw rnd catalog currentBody (draws s)) by (apply (Hre O); lia).
    destruct (IH (tick s)) as (IH1 & IH2).
    + intros j Hj. cbn [tick draws].
      replace (j + S (draws s))%nat with (S j + draws s)%nat by lia. apply Hre. lia.
    + cbn [tick draws]. replace (n + S (draws s))%nat with (S n + draws s)%nat by lia.
      exact Hacc.
    + split.
      * intros [|fuel] Hf; [reflexivity|].
        rewrite changeCelestialBody_redraw by exact R0.
        rewrite IH1 by lia. now rewrite ticks_tick.
      * intros [|fuel] Hf; [lia|].
        rewrite changeCelestialBody_redraw by exact R0.
        rewrite IH2 by lia. now rewrite ticks_tick.
Qed.

Lemma changeCelestialBody_never (catalog : list CelestialBodyConfig)
    (currentBody : CelestialBodyConfig) :
  forall (fuel : nat) (s : store),
    (forall j, redraw rnd catalog currentBody (j + draws s)) ->
    changeCelestialBody rnd fuel catalog currentBody s = Ok None (ticks fuel s).
Proof.
  induction fuel as [|fuel IH]; intros s Hre; [reflexivity|].
  rewrite changeCelestialBody_redraw by (apply (Hre O)).
  rewrite IH; [now rewrite ticks_tick|].
  intros j. cbn [tick draws].
  replace (j + S (draws s))%nat with (S j + draws s)%nat by lia. apply Hre.
Qed.


(** C5 (amended). The re-draw loop has no bound of its own, and none tied
    to the size of the catalog: a call ends exactly at the first draw that
    selects an entry whose name is not the current one.  If the first [n]
    draws select entries with the current name and the next one selects [b],
    the call returns [b] after exactly [n + 1] draws, for every number [n];
    with less fuel than that the loop is still running. *)
Theorem changeCelestialBody_termination (catalog : list CelestialBodyConfig)
    (currentBody : CelestialBodyConfig) (s : store) (n : nat) (b : CelestialBodyConfig) :
  (forall j, (j < n)%nat -> redraw rnd catalog currentBody (j + draws s)) ->
  accept rnd catalog currentBody (n + draws s) b ->
  (forall fuel, (fuel <= n)%nat ->
      changeCelestialBody rnd fuel catalog currentBody s = Ok None (ticks fuel s))
  /\ (forall fuel, (n < fuel)%nat ->
      changeCelestialBody rnd fuel catalog currentBody s = Ok (Some b) (ticks (S n) s)).
Proof.
  apply changeCelestialBody_run.
Qed.

Section FairDraws.

Hypothesis rnd_range : forall k : nat, 0 <= rnd k < 1.




End FairDraws.

(** ** The single-planet branch for an arbitrary property of a particle *)

Lemma singleParticle_frame (bodyConfig : CelestialBodyConfig) (bodyColors ringPal : list loc)
    (i : nat) (s : store) :
  Forall (fun l => (l < next s)%nat) bodyColors ->
  Forall (fun l => (l < next s)%nat) ringPal ->
  (i * 3 + 2 < length (targetPos s))%nat ->
  (i * 3 + 2 < length (cols s))%nat ->
  wp (singleParticle rnd bodyConfig bodyColors ringPal i)
     (fun _ s' =>
        extends s s'
        /\ forall j, j <> i -> particle (targetPos s') j = particle (targetPos s) j
                               /\ particle (cols s') j = particle (cols s) j) s.
Proof.
  intros Fb Fr Ht Hc.
  eapply wp_mono.
  - apply wp_conj; [apply singleParticle_spec; eassumption | apply singleParticle_extends].
  - intros ? s' ((_ & _ & H & _) & E). cbv beta. split; [exact E | exact H].
Qed.

Lemma generate_single_particles (Phi : nat -> R * R * R -> R * R * R -> Prop)
    (bodyConfig : CelestialBodyConfig) (s : store) :
  String.eqb (name bodyConfig) "Sun" = false ->
  (forall (bodyColors ringPal : list loc) (s0 : store) (i : nat),
      Forall (fun l => (l < next s0)%nat) bodyColors ->
      Forall (fun l => (l < next s0)%nat) ringPal ->
      map (heap s0) bodyColors = map parseColor (colors bodyConfig) ->
      map (heap s0) ringPal = map parseColor (ring_hex bodyConfig) ->
      (i < count)%nat ->
      (i * 3 + 2 < length (targetPos s0))%nat ->
      (i * 3 + 2 < length (cols s0))%nat ->
      wp (singleParticle rnd bodyConfig bodyColors ringPal i)
         (fun _ s1 => Phi i (particle (targetPos s1) i) (particle (cols s1) i)) s0) ->
  wp (generate rnd parseColor bodyConfig)
     (fun p _ =>
        forall i, (i < count)%nat ->
          Phi i (particle (Particles.targetPositions p) i)
                (particle (Particles.colors p) i)) s.
Proof.
  intros HS Hbody. unfold generate. rewrite HS.
  apply wp_bind. unfold newArrays at 1. unfold wp at 1. cbv beta iota.
  set (s0 := mkStore _ _ _ _ _ _ _ _).
  assert (L0 : length (initPos s0) = (count * 3)%nat
               /\ length (targetPos s0) = (count * 3)%nat
               /\ length (cols s0) = (count * 3)%nat
               /\ length (rands s0) = (count * 3)%nat).
  { subst s0. store_simpl. now rewrite new_Float32Array_length. }
  destruct L0 as (Li & Lt & Lc & Lr). clearbody s0.
  apply wp_bind.
  apply wp_mono with
    (Q := fun (_ : unit) s3 =>
            extends s0 s3
            /\ forall i, (i < count)%nat ->
                 Phi i (particle (targetPos s3) i) (particle (cols s3) i)).
  { unfold singlePlanet.
    apply wp_bind. eapply wp_mono; [apply makePalette_spec|].
    intros bodyColors s1 P1. cbv beta.
    apply wp_bind. eapply wp_mono; [apply makeRingPalette_spec|].
    intros ringPal s2 P2. cbv beta.
    pose proof (palette_extends _ _ _ _ P1) as E1.
    pose proof (palette_extends _ _ _ _ P2) as E2.
    pose proof (palette_kept _ _ _ _ _ P1 E2) as V1.
    pose proof (palette_kept _ _ _ _ _ P2 (extends_refl s2)) as V2.
    fold (ring_hex bodyConfig) in V2, P2.
    destruct P1 as (_ & F1 & _ & _ & _ & _ & T1 & C1 & _).
    destruct P2 as (_ & F2 & _ & _ & _ & _ & T2 & C2 & _).
    assert (Fb : Forall (fun l => (l < next s2)%nat) bodyColors).
    { eapply Forall_lt_extends; [exact E2|].
      eapply Forall_impl; [|exact F1]. cbv beta. intros; lia. }
    assert (Fr : Forall (fun l => (l < next s2)%nat) ringPal).
    { eapply Forall_impl; [|exact F2]. cbv beta. intros; lia. }
    assert (Lt2 : length (targetPos s2) = (count * 3)%nat) by congruence.
    assert (Lc2 : length (cols s2) = (count * 3)%nat) by congruence.
    unfold singleParticles.
    eapply wp_mono.
    - apply (wp_for (fun k s' =>
                       extends s2 s'
                       /\ forall i, (i < k)%nat ->
                            Phi i (particle (targetPos s') i) (particle (cols s') i))).
      + split; [apply extends_refl|]. intros i Hi. lia.
      + intros i sa Hi (Ea & Hok).
        assert (L : same_lengths s2 sa) by (destruct Ea as (_ & _ & _ & L); exact L).
        destruct L as (_ & Lta & Lca & _).
        assert (Fba : Forall (fun l => (l < next sa)%nat) bodyColors)
          by (eapply Forall_lt_extends; eassumption).
        assert (Fra : Forall (fun l => (l < next sa)%nat) ringPal)
          by (eapply Forall_lt_extends; eassumption).
        eapply wp_mono.
        * apply wp_conj.
          -- apply singleParticle_frame; try assumption; lia.
          -- apply (Hbody bodyColors ringPal sa i); try assumption; try lia.
             ++ rewrite (map_heap_extends s2 sa bodyColors Ea Fb). exact V1.
             ++ rewrite (map_heap_extends s2 sa ringPal Ea Fr). exact V2.
        * intros ? sb ((Eb & Hother) & Hnew). cbv beta in *.
          split; [eapply extends_trans; eassumption|].
          intros j Hj. destruct (Nat.eq_dec j i) as [->|Hne]; [exact Hnew|].
          destruct (Hother j Hne) as (Hp & Hq). rewrite Hp, Hq. apply Hok. lia.
    - intros ? s3 (E3 & Hok). cbv beta in *. split; [|exact Hok].
      eapply extends_trans; [exact E1|]. eapply extends_trans; eassumption. }
  intros ? s3 (E3 & Hok). cbv beta in *.
  assert (L3 : same_lengths s0 s3) by (destruct E3 as (_ & _ & _ & L); exact L).
  destruct L3 as (Li3 & _ & _ & Lr3).
  apply wp_bind.
  eapply wp_mono; [apply explosion_spec; congruence|].
  intros ? s4 (_ & _ & T4 & C4 & _). cbv beta.
  unfold returnArrays, wp.
  cbn [Particles.targetPositions Particles.colors].
  rewrite T4, C4. exact Hok.
Qed.

Lemma map_heap_fresh (f : loc -> THREE.Color) (s : store) (pal : list loc) :
  Forall (fun l => (l < next s)%nat) pal ->
  (forall l, (l < next s)%nat -> f l = heap s l) ->
  map f pal = map (heap s) pal.
Proof.
  intros F H. apply map_ext_in. intros l Hl.
  rewrite Forall_forall in F. apply H, F, Hl.
Qed.

(** Decide the comparisons of allocation numbers in the goal. *)
Ltac eqb_norm :=
  repeat match goal with
         | |- context [Nat.eqb ?a ?b] =>
             first [ replace (Nat.eqb a b) with true
                       by (symmetry; apply Nat.eqb_eq; lia)
                   | replace (Nat.eqb a b) with false
                       by (symmetry; apply Nat.eqb_neq; lia) ]
         end.

Ltac eqb_cases :=
  repeat match goal with
         | |- context [Nat.eqb ?a ?b] => destruct (Nat.eqb_spec a b); try lia
         end.

(** Read a palette in the store [s] it was made in, whatever was allocated
    since. *)
Ltac map_norm s pal F :=
  repeat match goal with
         | |- context [map ?f pal] =>
             lazymatch f with
             | heap s => fail
             | _ => rewrite (map_heap_fresh f s pal F)
                      by (let l := fresh "l" in
                          let Hl := fresh "Hl" in
                          intros l Hl; eqb_cases; reflexivity)
             end
         end.

(** One iteration for the Earth *)
Lemma singleParticle_earth (bodyConfig : CelestialBodyConfig) (bodyColors ringPal : list loc)
    (i : nat) (s : store) :
  String.eqb (name bodyConfig) "Earth" = true ->
  Nat.leb (bodyParticleCount bodyConfig) i && hasRings bodyConfig = false ->
  Forall (fun l => (l < next s)%nat) bodyColors ->
  (i * 3 + 2 < length (targetPos s))%nat ->
  (i * 3 + 2 < length (cols s))%nat ->
  wp (singleParticle rnd bodyConfig bodyColors ringPal i)
     (fun _ s' =>
        earth_ok rnd bodyConfig (map (heap s) bodyColors)
          (particle (targetPos s') i) (particle (cols s') i)) s.
Proof.
  intros HE Hring Fb Ht Hc. unfold singleParticle. cbv zeta.
  rewrite Hring. unfold bodyColor. cbv zeta. rewrite HE.
  unfold earthColor. wp_run.
  all: store_simpl; rewrite ?particle_write3_same by assumption.
  all: store_simpl; eqb_norm.
  all: map_norm s bodyColors Fb.
  all: exists (rnd (draws s)), (rnd (S (draws s)));
       split; [eexists; reflexivity|]; split; [eexists; reflexivity|].
  all: try (left; split; [reflexivity|]; left; eexists; reflexivity).
  all: try (right; split; reflexivity).
  all: left; split; [reflexivity|]; right.
  all: unfold rgb, mixed; cbn [THREE.r THREE.g THREE.b].
  all: destruct (nth_error bodyColors 5) as [l|] eqn:E5.
  all: try (assert (Hl : (l < next s)%nat)
              by (rewrite Forall_forall in Fb; apply Fb; eapply nth_error_In, E5);
            rewrite (nth_error_nth _ _ THREE.white
                       (map_nth_error (heap s) 5 bodyColors E5));
            eqb_cases; reflexivity).
  all: rewrite (nth_overflow (map (heap s) bodyColors) THREE.white)
         by (rewrite length_map; apply nth_error_None, E5); reflexivity.
Qed.

(** ** The solar-system branch, group by group *)

Lemma wp_for_break_all (I : nat -> store -> Prop) (body : nat -> M bool) :
  forall n start s,
    I start s ->
    (forall i s0, (start <= i < start + n)%nat -> I i s0 ->
                  wp (body i) (fun stop s1 => stop = false /\ I (S i) s1) s0) ->
    wp (for_break start n body) (fun _ s' => I (start + n)%nat s') s.
Proof.
  induction n as [|n IH]; intros start s H0 Hb; cbn [for_break].
  - apply wp_ret. now rewrite Nat.add_0_r.
  - apply wp_bind. eapply wp_mono; [apply Hb; [lia | exact H0]|].
    intros stop s1 (Hstop & H1). cbv beta. subst stop. cbv iota.
    replace (start + S n)%nat with (S start + n)%nat by lia.
    apply IH; [exact H1|]. intros i s0 Hi. apply Hb. lia.
Qed.

Lemma wrote_step (Phi : nat -> R * R * R -> R * R * R -> Prop) (k : nat)
    (s s0 s1 : store) :
  appended Phi k s s0 ->
  wrote (Phi k) s0 s1 ->
  appended Phi (S k) s s1.
Proof.
  intros (C0 & F0 & G0) (C1 & F1 & G1). unfold appended.
  split; [lia|]. split.
  - intros j Hj. destruct (F1 j ltac:(lia)) as (A & B). rewrite A, B. now apply F0.
  - intros j Hj. destruct (Nat.eq_dec j k) as [->|Hne].
    + rewrite <- C0. exact G1.
    + destruct (F1 (currentIdx s + j)%nat ltac:(lia)) as (A & B). rewrite A, B.
      apply G0. lia.
Qed.

Lemma appended_zero (Phi : nat -> R * R * R -> R * R * R -> Prop) (s : store) :
  appended Phi 0 s s.
Proof.
  unfold appended. split; [lia|]. split; [auto|]. intros j Hj. lia.
Qed.

Lemma extends_lengths (s s' : store) :
  extends s s' ->
  length (targetPos s') = length (targetPos s) /\ length (cols s') = length (cols s).
Proof. intros (_ & _ & _ & (_ & A & B & _)). now split. Qed.

Lemma extends_next (s s' : store) : extends s s' -> (next s <= next s')%nat.
Proof. now intros (E & _). Qed.

Lemma extends_heap (s s' : store) (l : loc) :
  extends s s' -> (l < next s)%nat -> heap s' l = heap s l.
Proof. intros (_ & E & _). apply E. Qed.

(** A counted loop of steps that each write one particle *)
Lemma for_wrote (Phi : nat -> R * R * R -> R * R * R -> Prop) (body : nat -> M unit)
    (n : nat) (s : store) :
  (forall i s0, (i < n)%nat -> extends s s0 -> currentIdx s0 = (currentIdx s + i)%nat ->
                wp (body i) (fun _ s1 => extends s0 s1 /\ wrote (Phi i) s0 s1) s0) ->
  wp (for_ 0 n body) (fun _ s' => extends s s' /\ appended Phi n s s') s.
Proof.
  intros Hb.
  apply (wp_for (fun k s' => extends s s' /\ appended Phi k s s')).
  - split; [apply extends_refl | apply appended_zero].
  - intros i s0 Hi (E & A).
    eapply wp_mono; [apply Hb; [lia | exact E | apply A]|].
    intros ? s1 (E1 & W). cbv beta in *.
    split; [eapply extends_trans; eassumption | eapply wrote_step; eassumption].
Qed.

Lemma for_break_wrote (Phi : nat -> R * R * R -> R * R * R -> Prop) (body : nat -> M bool)
    (n : nat) (s : store) :
  (forall i s0, (i < n)%nat -> extends s s0 -> currentIdx s0 = (currentIdx s + i)%nat ->
                wp (body i) (fun stop s1 => stop = false
                                            /\ extends s0 s1 /\ wrote (Phi i) s0 s1) s0) ->
  wp (for_break 0 n body) (fun _ s' => extends s s' /\ appended Phi n s s') s.
Proof.
  intros Hb.
  apply (wp_for_break_all (fun k s' => extends s s' /\ appended Phi k s s')).
  - split; [apply extends_refl | apply appended_zero].
  - intros i s0 Hi (E & A).
    eapply wp_mono; [apply Hb; [lia | exact E | apply A]|].
    intros stop s1 (Hs & E1 & W). cbv beta in *. split; [exact Hs|].
    split; [eapply extends_trans; eassumption | eapply wrote_step; eassumption].
Qed.

Lemma appended_group (Phi : nat -> R * R * R -> R * R * R -> Prop) (n : nat)
    (s s' : store) :
  appended Phi n s s' -> group Phi (currentIdx s) n (targetPos s') (cols s').
Proof. intros (_ & _ & G). exact G. Qed.

Lemma group_kept (Phi : nat -> R * R * R -> R * R * R -> Prop) (base n cur : nat)
    (tp cl tp' cl' : Float32Array) :
  group Phi base n tp cl ->
  (forall j, (j < cur)%nat -> particle tp' j = particle tp j /\ particle cl' j = particle cl j) ->
  (base + n <= cur)%nat ->
  group Phi base n tp' cl'.
Proof.
  intros G F H j Hj. destruct (F (base + j)%nat ltac:(lia)) as (A & B).
  rewrite A, B. now apply G.
Qed.

(** A counted loop of blocks that each write [m] particles *)
Lemma for_blocks (Phi : nat -> nat -> R * R * R -> R * R * R -> Prop) (body : nat -> M unit)
    (n m : nat) (s : store) :
  (forall i s0, (i < n)%nat -> extends s s0 ->
                currentIdx s0 = (currentIdx s + i * m)%nat ->
                wp (body i) (fun _ s1 => extends s0 s1 /\ appended (Phi i) m s0 s1) s0) ->
  wp (for_ 0 n body) (fun _ s' => blocks_post Phi n m s s') s.
Proof.
  intros Hb.
  apply (wp_for (fun k s' => blocks_post Phi k m s s')).
  - unfold blocks_post. split; [apply extends_refl|]. split; [lia|].
    split; [auto|]. intros i Hi. lia.
  - intros i s0 Hi (E & C & F & G).
    eapply wp_mono; [apply Hb; [lia | exact E | exact C]|].
    intros ? s1 (E1 & (C1 & F1 & G1)). cbv beta in *. unfold blocks_post.
    split; [eapply extends_trans; eassumption|].
    split; [rewrite C1, C; cbn [Nat.mul]; lia|].
    split.
    + intros j Hj. destruct (F1 j ltac:(lia)) as (A & B). rewrite A, B. now apply F.
    + intros i' Hi'. destruct (Nat.eq_dec i' i) as [->|Hne].
      * rewrite <- C. exact G1.
      * assert (Hlt : (i' < i)%nat) by lia.
        eapply group_kept; [apply G, Hlt | exact F1|].
        rewrite C. clear - Hlt. nia.
Qed.

(** The steps of the four groups *)

Ltac wrote_frame :=
  unfold wrote; store_simpl; split; [reflexivity|];
  split;
  [ let j := fresh "j" in
    let Hj := fresh "Hj" in
    intros j Hj; split; apply particle_write3_other; congruence
  | rewrite ?particle_write3_same by assumption; store_simpl; eqb_norm ].

Lemma sunParticle_wrote (sunColors : list loc) (s : store) :
  Forall (fun l => (l < next s)%nat) sunColors ->
  (currentIdx s * 3 + 2 < length (targetPos s))%nat ->
  (currentIdx s * 3 + 2 < length (cols s))%nat ->
  wp (sunParticle rnd sunColors)
     (fun _ s' => wrote (core_ok rnd (map (heap s) sunColors)) s s') s.
Proof.
  intros F Ht Hc. unfold sunParticle. wp_run.
  all: wrote_frame.
  all: unfold core_ok; split;
    [ exists (rnd (draws s)), (rnd (S (draws s)));
      split; [eexists; reflexivity|]; split; [eexists; reflexivity|]; reflexivity
    | eexists ].
  - right. reflexivity.
  - left. reflexivity.
Qed.

Lemma orbitParticle_wrote (orbitColor : loc) (r : R) (n j : nat) (s : store) :
  (orbitColor < next s)%nat ->
  (currentIdx s * 3 + 2 < length (targetPos s))%nat ->
  (currentIdx s * 3 + 2 < length (cols s))%nat ->
  wp (orbitParticle rnd orbitColor r n j)
     (fun _ s' => wrote (orbit_ok rnd (heap s orbitColor) r n j) s s') s.
Proof.
  intros F Ht Hc. unfold orbitParticle. wp_run.
  wrote_frame.
  exists (rnd (draws s)), (rnd (S (draws s))), (rnd (S (S (draws s)))).
  repeat (split; [eexists; reflexivity|]). split; reflexivity.
Qed.

Lemma asteroidParticle_wrote (asteroidColor : loc) (s : store) :
  (asteroidColor < next s)%nat ->
  (currentIdx s * 3 + 2 < length (targetPos s))%nat ->
  (currentIdx s * 3 + 2 < length (cols s))%nat ->
  wp (asteroidParticle rnd asteroidColor)
     (fun _ s' => wrote (asteroid_ok rnd (heap s asteroidColor)) s s') s.
Proof.
  intros F Ht Hc. unfold asteroidParticle. wp_run.
  wrote_frame.
  exists (rnd (draws s)), (rnd (S (draws s))), (rnd (S (S (draws s)))),
         (rnd (S (S (S (draws s))))).
  repeat (split; [eexists; reflexivity|]). split; reflexivity.
Qed.

Lemma planetParticle_wrote (planet : CelestialBodyConfig) (cx cz : R)
    (pColors pRingColors : list loc) (n k : nat) (s : store) :
  Forall (fun l => (l < next s)%nat) pColors ->
  Forall (fun l => (l < next s)%nat) pRingColors ->
  (currentIdx s < count)%nat ->
  (currentIdx s * 3 + 2 < length (targetPos s))%nat ->
  (currentIdx s * 3 + 2 < length (cols s))%nat ->
  wp (planetParticle rnd planet cx cz pColors pRingColors n k)
     (fun stop s' =>
        stop = false
        /\ wrote (planet_ok rnd planet cx cz (map (heap s) pColors)
                            (map (heap s) pRingColors) n k) s s') s.
Proof.
  intros Fc Fr Hlt Ht Hc. unfold planetParticle.
  apply wp_bind, wp_get_currentIdx.
  rewrite (proj2 (Nat.leb_gt _ _) Hlt). cbv zeta.
  unfold planet_ok.
  destruct (hasRings planet && gt_seven_tenths k n).
  all: wp_run; split; [reflexivity|]; wrote_frame.
  all: map_norm s pColors Fc; map_norm s pRingColors Fr.
  - split.
    + exists (rnd (draws s)), (rnd (S (draws s))), (rnd (S (S (draws s)))).
      repeat (split; [eexists; reflexivity|]). reflexivity.
    + eexists. reflexivity.
  - split.
    + exists (rnd (draws s)), (rnd (S (draws s))).
      repeat (split; [eexists; reflexivity|]). reflexivity.
    + eexists. reflexivity.
Qed.

(** The groups, one after the other *)

Lemma appended_base (Phi : nat -> R * R * R -> R * R * R -> Prop) (n : nat)
    (s0 s s' : store) :
  currentIdx s = currentIdx s0 -> targetPos s = targetPos s0 -> cols s = cols s0 ->
  appended Phi n s s' -> appended Phi n s0 s'.
Proof.
  unfold appended. intros E1 E2 E3. rewrite E1, E2, E3. auto.
Qed.

Lemma appended_impl (Phi Psi : nat -> R * R * R -> R * R * R -> Prop) (n : nat)
    (s s' : store) :
  (forall j pos col, (j < n)%nat -> Phi j pos col -> Psi j pos col) ->
  appended Phi n s s' -> appended Psi n s s'.
Proof.
  intros H (C & F & G). split; [exact C|]. split; [exact F|].
  intros j Hj. apply H; [exact Hj|]. now apply G.
Qed.

Lemma block_bound (i j n m : nat) :
  (i < n)%nat -> (j < m)%nat -> (i * m + j < n * m)%nat.
Proof. intros. nia. Qed.

Lemma orbitRing_appended (orbitColor : loc) (rIdx : nat) (s : store) :
  (orbitColor < next s)%nat ->
  ((currentIdx s + particlesInRing) * 3 <= length (targetPos s))%nat ->
  ((currentIdx s + particlesInRing) * 3 <= length (cols s))%nat ->
  wp (orbitRing rnd orbitColor rIdx)
     (fun _ s' =>
        extends s s'
        /\ appended (orbit_ok rnd (heap s orbitColor) (nth rIdx radii 0) particlesInRing)
                    particlesInRing s s') s.
Proof.
  intros Fo Lt Lc. unfold orbitRing. cbv zeta. fold particlesInRing.
  apply for_wrote. intros j sa Hj Ea Ca.
  destruct (extends_lengths _ _ Ea) as (La & Lb).
  assert (Fa : (orbitColor < next sa)%nat) by (pose proof (extends_next _ _ Ea); lia).
  assert (Hc : heap sa orbitColor = heap s orbitColor)
    by (now apply extends_heap).
  rewrite <- Hc.
  apply wp_conj; [apply orbitParticle_extends | apply orbitParticle_wrote]; lia.
Qed.

Lemma planetBody_appended (p : nat) (planet : CelestialBodyConfig) (s : store) :
  nth_error planetList p = Some planet ->
  (currentIdx s + particlesPerPlanet <= count)%nat ->
  length (targetPos s) = (count * 3)%nat ->
  length (cols s) = (count * 3)%nat ->
  wp (planetBody rnd parseColor planetList particlesPerPlanet p)
     (fun _ s' =>
        extends s s'
        /\ appended (planet_ok rnd planet (fst (planet_centre p)) (snd (planet_centre p))
                               (map parseColor (colors planet))
                               (map parseColor (ring_hex planet)) particlesPerPlanet)
                    particlesPerPlanet s s') s.
Proof.
  intros Hp Hc Lt Lc. unfold planetBody. rewrite Hp. cbv zeta.
  apply wp_bind. eapply wp_mono; [apply makePalette_spec|].
  intros pColors s1 P1. cbv beta.
  apply wp_bind. eapply wp_mono; [apply makeRingPalette_spec|].
  intros pRingColors s2 P2. cbv beta.
  pose proof (palette_extends _ _ _ _ P1) as E1.
  pose proof (palette_extends _ _ _ _ P2) as E2.
  fold (ring_hex planet) in P2.
  destruct P1 as (_ & F1 & V1' & _ & C1 & _ & T1 & K1 & _).
  destruct P2 as (_ & F2 & V2 & _ & C2 & _ & T2 & K2 & _).
  assert (V1 : map (heap s2) pColors = map parseColor (colors planet)).
  { rewrite <- V1'. apply map_heap_extends; [exact E2|].
    eapply Forall_impl; [|exact F1]. cbv beta. intros; lia. }
  assert (Fb : Forall (fun l => (l < next s2)%nat) pColors).
  { eapply Forall_lt_extends; [exact E2|].
    eapply Forall_impl; [|exact F1]. cbv beta. intros; lia. }
  assert (Fr : Forall (fun l => (l < next s2)%nat) pRingColors).
  { eapply Forall_impl; [|exact F2]. cbv beta. intros; lia. }
  assert (Lt2 : length (targetPos s2) = (count * 3)%nat) by congruence.
  assert (Lc2 : length (cols s2) = (count * 3)%nat) by congruence.
  assert (Cs2 : currentIdx s2 = currentIdx s) by congruence.
  unfold planetParticles.
  eapply wp_mono.
  - apply (for_break_wrote
             (planet_ok rnd planet (fst (planet_centre p)) (snd (planet_centre p))
                        (map parseColor (colors planet))
                        (map parseColor (ring_hex planet)) particlesPerPlanet)).
    intros k sa Hk Ea Ca.
    destruct (extends_lengths _ _ Ea) as (La & Lb).
    rewrite <- V1, <- V2.
    rewrite <- (map_heap_extends s2 sa pColors Ea Fb).
    rewrite <- (map_heap_extends s2 sa pRingColors Ea Fr).
    eapply wp_mono.
    + apply wp_conj; [apply planetParticle_extends|].
      apply (planetParticle_wrote planet (fst (planet_centre p)) (snd (planet_centre p))
               pColors pRingColors particlesPerPlanet k sa).
      * eapply Forall_lt_extends; eassumption.
      * eapply Forall_lt_extends; eassumption.
      * lia.
      * lia.
      * lia.
    + intros stop sb (Eb & Hs & W). cbv beta in *. auto.
  - intros ? s3 (E3 & A). cbv beta in *. split.
    + eapply extends_trans; [exact E1|]. eapply extends_trans; eassumption.
    + eapply appended_base; [| | |exact A]; congruence.
Qed.

Lemma solarParticles_layout (sunColors : list loc) (orbitColor asteroidColor : loc)
    (s : store) :
  Forall (fun l => (l < next s)%nat) sunColors ->
  (orbitColor < next s)%nat -> (asteroidColor < next s)%nat ->
  length (targetPos s) = (count * 3)%nat ->
  length (cols s) = (count * 3)%nat ->
  wp (solarParticles rnd parseColor sunColors orbitColor asteroidColor)
     (fun _ s' =>
        extends s s'
        /\ solar_layout rnd parseColor (map (heap s) sunColors) (heap s orbitColor)
                        (heap s asteroidColor) (targetPos s') (cols s')) s.
Proof.
  intros Fs Fo Fa Lt Lc.
  destruct solar_sizes as (Zs & Za & Lr & Lp & Zr & Zp).
  pose proof count_Z as Zc.
  unfold solarParticles. cbv zeta. fold planetList.
  apply wp_bind, wp_put_currentIdx.
  set (s0 := set_currentIdx s 0).
  assert (E0 : extends s s0) by (subst s0; solve_extends).
  assert (C0 : currentIdx s0 = 0%nat) by reflexivity.
  assert (Lt0 : length (targetPos s0) = (count * 3)%nat) by exact Lt.
  assert (Lc0 : length (cols s0) = (count * 3)%nat) by exact Lc.
  change (heap s) with (heap s0).
  assert (Fs0 : Forall (fun l => (l < next s0)%nat) sunColors) by exact Fs.
  assert (Fo0 : (orbitColor < next s0)%nat) by exact Fo.
  assert (Fa0 : (asteroidColor < next s0)%nat) by exact Fa.
  clearbody s0.
  (* the Sun *)
  apply wp_bind. eapply wp_mono.
  { apply (for_wrote (fun _ => core_ok rnd (map (heap s0) sunColors))).
    intros i sa Hi Ea Ca.
    destruct (extends_lengths _ _ Ea) as (La & Lb).
    rewrite <- (map_heap_extends s0 sa sunColors Ea Fs0).
    apply wp_conj; [apply sunParticle_extends | apply sunParticle_wrote]; try lia.
    eapply Forall_lt_extends; eassumption. }
  intros ? s1 (E1 & A1). cbv beta in *.
  destruct (extends_lengths _ _ E1) as (Lt1 & Lc1).
  assert (C1 : currentIdx s1 = sunCount) by (destruct A1 as (C & _); lia).
  (* the orbit circles *)
  apply wp_bind. eapply wp_mono.
  { apply (for_blocks
             (fun rIdx => orbit_ok rnd (heap s0 orbitColor) (nth rIdx radii 0)
                                   particlesInRing)
             (orbitRing rnd orbitColor) (length radii) particlesInRing).
    intros i sa Hi Ea Ca.
    destruct (extends_lengths _ _ Ea) as (La & Lb).
    pose proof (extends_next _ _ E1) as N1.
    pose proof (extends_next _ _ Ea) as Na.
    assert (Hc : heap sa orbitColor = heap s0 orbitColor).
    { rewrite (extends_heap s1 sa) by (assumption || lia).
      now apply extends_heap. }
    rewrite <- Hc.
    pose proof (block_bound i 0 (length radii) particlesInRing Hi) as Hb.
    apply orbitRing_appended.
    - lia.
    - rewrite Lr in Hb. nia.
    - rewrite Lr in Hb. nia. }
  intros ? s2 (E2 & C2 & F2 & G2). cbv beta in *.
  destruct (extends_lengths _ _ E2) as (Lt2 & Lc2).
  (* the asteroid belt *)
  apply wp_bind. eapply wp_mono.
  { apply (for_wrote (fun _ => asteroid_ok rnd (heap s0 asteroidColor))).
    intros i sa Hi Ea Ca.
    destruct (extends_lengths _ _ Ea) as (La & Lb).
    pose proof (extends_next _ _ E1) as N1.
    pose proof (extends_next _ _ E2) as N2.
    pose proof (extends_next _ _ Ea) as Na.
    assert (Hc : heap sa asteroidColor = heap s0 asteroidColor).
    { rewrite (extends_heap s2 sa) by (assumption || lia).
      rewrite (extends_heap s1 s2) by (assumption || lia).
      now apply extends_heap. }
    rewrite <- Hc.
    apply wp_conj; [apply asteroidParticle_extends | apply asteroidParticle_wrote].
    - lia.
    - rewrite Lr in C2. lia.
    - rewrite Lr in C2. lia. }
  intros ? s3 (E3 & A3). cbv beta in *.
  destruct (extends_lengths _ _ E3) as (Lt3 & Lc3).
  assert (C3 : currentIdx s3
               = (sunCount + length radii * particlesInRing + asteroidCount)%nat)
    by (destruct A3 as (C & _); lia).
  (* the mini planets *)
  apply wp_bind, wp_get_currentIdx. rewrite C3. fold particlesPerPlanet.
  apply wp_bind. eapply wp_mono.
  { apply (for_blocks
             (fun p k pos col =>
                exists planet,
                  nth_error planetList p = Some planet
                  /\ planet_ok rnd planet (fst (planet_centre p)) (snd (planet_centre p))
                               (map parseColor (colors planet))
                               (map parseColor (ring_hex planet)) particlesPerPlanet
                               k pos col)
             (planetBody rnd parseColor planetList particlesPerPlanet)
             (length planetList) particlesPerPlanet).
    intros p sa Hp Ea Ca.
    destruct (extends_lengths _ _ Ea) as (La & Lb).
    destruct (nth_error planetList p) as [planet|] eqn:En;
      [|apply nth_error_None in En; lia].
    pose proof (block_bound p 0 (length planetList) particlesPerPlanet Hp) as Hb.
    eapply wp_mono.
    - apply (planetBody_appended p planet sa En); try congruence.
      rewrite Lr, Lp in *. nia.
    - intros ? sb (Eb & Ab). cbv beta in *. split; [exact Eb|].
      eapply appended_impl; [|exact Ab].
      intros j pos col _ H. exists planet. split; [reflexivity | exact H]. }
  intros ? s4 (E4 & C4 & F4 & G4). cbv beta in *.
  (* nothing is left for the void *)
  apply wp_bind, wp_get_currentIdx.
  replace (count - currentIdx s4)%nat with 0%nat by (rewrite Lr, Lp in *; lia).
  cbn [for_]. apply wp_ret.
  split.
  { eapply extends_trans; [exact E0|]. eapply extends_trans; [exact E1|].
    eapply extends_trans; [exact E2|]. eapply extends_trans; eassumption. }
  destruct A3 as (C3' & F3 & G3).
  assert (K3 : forall j, (j < currentIdx s2)%nat ->
                 particle (targetPos s4) j = particle (targetPos s2) j
                 /\ particle (cols s4) j = particle (cols s2) j).
  { intros j Hj. destruct (F4 j ltac:(lia)) as (A & B). rewrite A, B. now apply F3. }
  assert (K2 : forall j, (j < currentIdx s1)%nat ->
                 particle (targetPos s4) j = particle (targetPos s1) j
                 /\ particle (cols s4) j = particle (cols s1) j).
  { intros j Hj. destruct (K3 j ltac:(lia)) as (A & B). rewrite A, B. now apply F2. }
  unfold solar_layout. split; [|split; [|split]].
  - eapply group_kept; [|exact K2|lia].
    rewrite <- C0. apply (appended_group _ _ _ _ A1).
  - intros rIdx Hr. eapply group_kept; [|exact K3|].
    + rewrite <- C1. apply G2, Hr.
    + pose proof (block_bound rIdx 0 (length radii) particlesInRing Hr). nia.
  - eapply group_kept; [|exact F4|lia].
    replace (sunCount + length radii * particlesInRing)%nat with (currentIdx s2) by lia.
    exact G3.
  - intros p planet Hp.
    assert (Hlt : (p < length planetList)%nat)
      by (apply nth_error_Some; congruence).
    specialize (G4 p Hlt). rewrite C3 in G4.
    intros j Hj. destruct (G4 j Hj) as (planet' & Hp' & H).
    congruence.
Qed.

Lemma generate_solar_layout (bodyConfig : CelestialBodyConfig) (s : store) :
  String.eqb (name bodyConfig) "Sun" = true ->
  wp (generate rnd parseColor bodyConfig)
     (fun p _ =>
        solar_layout rnd parseColor (map parseColor (colors bodyConfig))
                     (THREE.mkColor 0.2 0.4 0.8) (THREE.mkColor 0.5 0.5 0.5)
                     (Particles.targetPositions p) (Particles.colors p)) s.
Proof.
  intros HS. unfold generate. rewrite HS.
  apply wp_bind. unfold newArrays at 1. unfold wp at 1. cbv beta iota.
  set (s0 := mkStore _ _ _ _ _ _ _ _).
  assert (L0 : length (initPos s0) = (count * 3)%nat
               /\ length (targetPos s0) = (count * 3)%nat
               /\ length (cols s0) = (count * 3)%nat
               /\ length (rands s0) = (count * 3)%nat).
  { subst s0. store_simpl. now rewrite new_Float32Array_length. }
  destruct L0 as (Li & Lt & Lc & Lr). clearbody s0.
  apply wp_bind.
  apply wp_mono with
    (Q := fun (_ : unit) s3 =>
            extends s0 s3
            /\ solar_layout rnd parseColor (map parseColor (colors bodyConfig))
                 (THREE.mkColor 0.2 0.4 0.8) (THREE.mkColor 0.5 0.5 0.5)
                 (targetPos s3) (cols s3)).
  { unfold solarSystem.
    apply wp_bind. eapply wp_mono; [apply makePalette_spec|].
    intros sunColors s1 P1. cbv beta.
    pose proof (palette_extends _ _ _ _ P1) as E1.
    destruct P1 as (_ & F1 & V1 & _ & _ & _ & T1 & C1 & _).
    apply wp_bind, wp_newColor. apply wp_bind, wp_newColor.
    set (s2 := alloc (alloc s1 _) _).
    assert (E2 : extends s1 s2) by (subst s2; solve_extends).
    assert (Fs : Forall (fun l => (l < next s2)%nat) sunColors).
    { eapply Forall_impl; [|exact F1]. subst s2. store_simpl. cbv beta. intros; lia. }
    assert (Vs : map (heap s2) sunColors = map parseColor (colors bodyConfig)).
    { rewrite <- V1. apply map_heap_extends; [exact E2|].
      eapply Forall_impl; [|exact F1]. cbv beta. intros; lia. }
    assert (Ho : heap s2 (next s1) = THREE.mkColor 0.2 0.4 0.8).
    { subst s2. store_simpl. eqb_norm. reflexivity. }
    assert (Ha : heap s2 (next (alloc s1 (THREE.mkColor 0.2 0.4 0.8)))
                 = THREE.mkColor 0.5 0.5 0.5).
    { subst s2. store_simpl. eqb_norm. reflexivity. }
    eapply wp_mono.
    - apply (solarParticles_layout sunColors (next s1)
               (next (alloc s1 (THREE.mkColor 0.2 0.4 0.8))) s2).
      + exact Fs.
      + subst s2. store_simpl. lia.
      + subst s2. store_simpl. lia.
      + subst s2. store_simpl. congruence.
      + subst s2. store_simpl. congruence.
    - intros ? s3 (E3 & H). cbv beta in *. rewrite Vs, Ho, Ha in H.
      split; [|exact H].
      eapply extends_trans; [exact E1|]. eapply extends_trans; eassumption. }
  intros ? s3 (E3 & Hok). cbv beta in *.
  assert (L3 : same_lengths s0 s3) by (destruct E3 as (_ & _ & _ & L); exact L).
  destruct L3 as (Li3 & _ & _ & Lr3).
  apply wp_bind.
  eapply wp_mono; [apply explosion_spec; congruence|].
  intros ? s4 (_ & _ & T4 & C4 & _). cbv beta.
  unfold returnArrays, wp.
  cbn [Particles.targetPositions Particles.colors].
  rewrite T4, C4. exact Hok.
Qed.

(** ** Further properties of the generated set *)

Lemma Math_cbrt_cube (u : R) : 0 <= u -> Math_cbrt u ^ 3 = u.
Proof.
  intros Hu. unfold Math_cbrt.
  destruct (Rlt_dec 0 u) as [Hp|Hn].
  - rewrite <- (Rpower_pow 3) by (unfold Rpower; apply exp_pos).
    rewrite Rpower_mult.
    replace (/ 3 * INR 3) with 1 by (cbn [INR]; lra).
    now apply Rpower_1.
  - destruct (Rlt_dec u 0); [lra|]. cbn [pow]. lra.
Qed.

Lemma Math_cbrt_range (u : R) : 0 <= u < 1 -> 0 <= Math_cbrt u < 1.
Proof.
  intros Hu. pose proof (Math_cbrt_cube u (proj1 Hu)) as Hc.
  assert (H0 : 0 <= Math_cbrt u).
  { unfold Math_cbrt. destruct (Rlt_dec 0 u); [|destruct (Rlt_dec u 0); lra].
    unfold Rpower. left. apply exp_pos. }
  split; [exact H0|].
  destruct (Rlt_dec (Math_cbrt u) 1) as [|Hge]; [assumption|].
  exfalso. cbn [pow] in Hc. set (c := Math_cbrt u) in *.
  assert (1 <= c * c) by nra. nra.
Qed.

Lemma origin_norm (rr phi theta : R) :
  0 <= rr ->
  sqrt ((rr * sin phi * cos theta) * (rr * sin phi * cos theta)
        + (rr * sin phi * sin theta) * (rr * sin phi * sin theta)
        + (rr * cos phi) * (rr * cos phi)) = rr.
Proof.
  intros Hr.
  replace (rr * sin phi * cos theta * (rr * sin phi * cos theta)
           + rr * sin phi * sin theta * (rr * sin phi * sin theta)
           + rr * cos phi * (rr * cos phi))
    with (rr * sin phi * cos theta * (rr * sin phi * cos theta)
          + rr * cos phi * (rr * cos phi)
          + rr * sin phi * sin theta * (rr * sin phi * sin theta)) by ring.
  rewrite sphere_norm. now apply sqrt_square.
Qed.

Lemma norm3_sphere_point (bodyConfig : CelestialBodyConfig) (u1 u2 : R) :
  norm3 (sphere_point bodyConfig u1 u2) = Rabs (radius bodyConfig).
Proof.
  unfold norm3, sphere_point. cbv zeta. rewrite sphere_norm.
  rewrite <- sqrt_Rsqr_abs. reflexivity.
Qed.

Lemma norm3_scale3 (k : R) (pos : R * R * R) :
  0 <= k -> norm3 (scale3 k pos) = k * norm3 pos.
Proof.
  intros Hk. destruct pos as [[x y] z]. unfold norm3, scale3.
  replace (x * k * (x * k) + y * k * (y * k) + z * k * (z * k))
    with (k * k * (x * x + y * y + z * z)) by ring.
  rewrite sqrt_mult_alt by nra. rewrite sqrt_square by exact Hk. reflexivity.
Qed.

Lemma bodyParticleCount_le (bodyConfig : CelestialBodyConfig) :
  (bodyParticleCount bodyConfig <= count)%nat.
Proof. unfold bodyParticleCount. lia. Qed.

Lemma sampled_entry (hex : list string) (idx : number) :
  hex <> [] ->
  exists c, In c hex /\ sample_spec (map parseColor hex) idx = parseColor c.
Proof.
  intros Hne.
  assert (HIn : In (sample_spec (map parseColor hex) idx) (map parseColor hex)).
  { apply sample_spec_In. destruct hex; [congruence | discriminate]. }
  apply in_map_iff in HIn. destruct HIn as (c & E & Hc). now exists c.
Qed.


(** X3. For a descriptor named Earth, every body particle is either on the
    sphere of the descriptor's radius, coloured with a palette sample or with
    the even mix of the samples at indices 4 and 5, or it is a cloud point:
    moved outwards to 1.04 times the radius and coloured with the sample at
    index 6. *)
Theorem earth_particles (bodyConfig : CelestialBodyConfig) (s : store) :
  String.eqb (name bodyConfig) "Earth" = true ->
  wp (generate rnd parseColor bodyConfig)
     (fun p _ =>
        forall i, (i < count)%nat ->
          (i < bodyParticleCount bodyConfig)%nat \/ hasRings bodyConfig = false ->
          let P := map parseColor (colors bodyConfig) in
          let pos := particle (Particles.targetPositions p) i in
          let col := particle (Particles.colors p) i in
          (norm3 pos = Rabs (radius bodyConfig)
           /\ ((exists idx, col = rgb (sample_spec P idx))
               \/ col = rgb (mixed (sample_spec P (Fin 4)) (nth 5 P THREE.white) 0.5)))
          \/ (norm3 pos = (1 + 0.04) * Rabs (radius bodyConfig)
              /\ col = rgb (sample_spec P (Fin 6)))) s.
Proof.
  intros HE.
  assert (HS : String.eqb (name bodyConfig) "Sun" = false).
  { apply String.eqb_eq in HE. rewrite HE. reflexivity. }
  eapply wp_mono.
  - apply (generate_single_particles
             (fun i pos col =>
                (i < bodyParticleCount bodyConfig)%nat \/ hasRings bodyConfig = false ->
                earth_ok rnd bodyConfig (map parseColor (colors bodyConfig)) pos col)
             bodyConfig s HS).
    intros bodyColors ringPal s0 i Fb Fr Vb Vr Hi Ht Hc.
    destruct (Nat.leb (bodyParticleCount bodyConfig) i && hasRings bodyConfig) eqn:Hring.
    + eapply wp_mono; [apply singleParticle_extends|].
      intros ? s1 _ [Hlt|Hr].
      * apply andb_prop in Hring. destruct Hring as (Hle & _).
        apply Nat.leb_le in Hle. lia.
      * rewrite Hr, andb_false_r in Hring. discriminate.
    + eapply wp_mono; [apply singleParticle_earth; assumption|].
      intros ? s1 Hok _. cbv beta in Hok. rewrite Vb in Hok. exact Hok.
  - intros p s' H i Hi Hbody. cbv zeta.
    destruct (H i Hi Hbody) as (u1 & u2 & _ & _ & [(Hpos & Hcol)|(Hpos & Hcol)]).
    + left. split; [rewrite Hpos; apply norm3_sphere_point | exact Hcol].
    + right. split; [|exact Hcol].
      rewrite Hpos, norm3_scale3 by lra. now rewrite norm3_sphere_point.
Qed.

Section RingsInRange.

Hypothesis rnd_in_range : forall k : nat, 0 <= rnd k < 1.

(** X4. For every single-body descriptor with rings and a non-negative
    radius r, every ring particle lies in the annulus between 1.3 r and
    2.2 r, within 0.025 of the ring plane, and with a non-empty ring palette
    its colour is an entry of the ring palette, at full strength or darkened
    by the factor 0.2 (the Cassini band). *)
Theorem ring_particles_general (bodyConfig : CelestialBodyConfig) (s : store) :
  String.eqb (name bodyConfig) "Sun" = false ->
  hasRings bodyConfig = true ->
  0 <= radius bodyConfig ->
  wp (generate rnd parseColor bodyConfig)
     (fun p _ =>
        forall i, (bodyParticleCount bodyConfig <= i < count)%nat ->
          let pos := particle (Particles.targetPositions p) i in
          let col := particle (Particles.colors p) i in
          radius bodyConfig * 1.3 <= radial 0 0 pos <= radius bodyConfig * 2.2
          /\ Rabs (height pos) <= 0.025
          /\ (ring_hex bodyConfig <> [] ->
              exists c, In c (ring_hex bodyConfig)
                        /\ (col = rgb (parseColor c)
                            \/ col = rgb (scaled 0.2 (parseColor c))))) s.
Proof.
  intros HS HR Hrad.
  eapply wp_mono; [apply generate_spec|].
  intros p s' (_ & _ & _ & _ & Hok) i Hi. cbv zeta.
  specialize (Hok HS i (proj2 Hi)). unfold particle_ok in Hok.
  rewrite HR, (proj2 (Nat.leb_le _ _) (proj1 Hi)) in Hok. cbn [andb] in Hok.
  destruct Hok as ((u1 & u2 & u3 & D1 & D2 & D3 & Hpos) & (idx & Hcol)).
  destruct D1 as (k1 & ->). destruct D3 as (k3 & ->).
  pose proof (rnd_in_range k1) as R1. pose proof (rnd_in_range k3) as R3.
  rewrite Hpos. unfold ring_point, radial, height. cbv zeta.
  replace ((radius bodyConfig * 1.3
            + rnd k1 * (radius bodyConfig * 2.2 - radius bodyConfig * 1.3))
           * cos (u2 * PI * 2) - 0)
    with ((radius bodyConfig * 1.3
           + rnd k1 * (radius bodyConfig * 2.2 - radius bodyConfig * 1.3))
          * cos (u2 * PI * 2)) by ring.
  replace ((radius bodyConfig * 1.3
            + rnd k1 * (radius bodyConfig * 2.2 - radius bodyConfig * 1.3))
           * sin (u2 * PI * 2) - 0)
    with ((radius bodyConfig * 1.3
           + rnd k1 * (radius bodyConfig * 2.2 - radius bodyConfig * 1.3))
          * sin (u2 * PI * 2)) by ring.
  rewrite circle_norm by nra.
  split; [nra|]. split; [apply Rabs_le; lra|].
  intros Hne. destruct (sampled_entry (ring_hex bodyConfig) idx Hne) as (c & Hin & E).
  exists c. split; [exact Hin|]. rewrite <- E. exact Hcol.
Qed.

End RingsInRange.

Section DrawsInRange.

Hypothesis rnd_in_range : forall k : nat, 0 <= rnd k < 1.

(** X1. Whatever the descriptor (the solar system included), every origin
    position lies inside the ball of radius 50, at the distance
    50 * cbrt(u) from the centre for a drawn value u (so that the cube of
    the distance is uniform), and the three seeds of every particle are
    drawn values in [0, 1). *)
Theorem origin_cloud_in_ball (bodyConfig : CelestialBodyConfig) (s : store) :
  wp (generate rnd parseColor bodyConfig)
     (fun p _ =>
        forall i, (i < count)%nat ->
          (let '(x, y, z) := particle (Particles.initialPositions p) i in
           sqrt (x * x + y * y + z * z) < 50
           /\ exists u, drawn rnd u /\ sqrt (x * x + y * y + z * z) ^ 3 = 50 ^ 3 * u)
          /\ (let '(a, b, c) := particle (Particles.randoms p) i in
              0 <= a < 1 /\ 0 <= b < 1 /\ 0 <= c < 1)) s.
Proof.
  eapply wp_mono; [apply generate_spec|].
  intros p s' (_ & _ & _ & (d & _ & _ & Horig) & _) i Hi.
  destruct (Horig i Hi) as (Ho & Hs). rewrite Ho, Hs.
  unfold origin_point, seed_point. cbv zeta.
  pose proof (Math_cbrt_range _ (rnd_in_range (6 * i + d))) as Hc.
  split; [|repeat split; apply rnd_in_range].
  rewrite origin_norm by nra.
  split; [nra|].
  exists (rnd (6 * i + d)). split; [now eexists|].
  rewrite Rpow_mult_distr, Math_cbrt_cube by apply rnd_in_range. reflexivity.
Qed.

End DrawsInRange.

(** The ring test of the mini planets: with 2700 particles a planet,
    binary64 puts the threshold at k = 1890 (over the reals it would be
    1891, since 2700 * 0.7 = 1890).  Checked on every k below 2700. *)
Lemma gt_seven_tenths_2700 (k : nat) :
  (k < 2700)%nat -> gt_seven_tenths k 2700 = Nat.leb 1890 k.
Proof.
  intros Hk.
  assert (H : forallb (fun j => Bool.eqb (gt_seven_tenths j 2700) (Nat.leb 1890 j))
                      (seq 0 2700) = true) by (vm_compute; reflexivity).
  rewrite forallb_forall in H.
  apply Bool.eqb_prop, H, in_seq. lia.
Qed.

Lemma particlesPerPlanet_2700 : particlesPerPlanet = 2700%nat.
Proof.
  destruct solar_sizes as (_ & _ & _ & _ & _ & Zp).
  apply Nat2Z.inj. rewrite Zp. reflexivity.
Qed.

Lemma ring_index_1890 (k : nat) :
  (k < particlesPerPlanet)%nat -> gt_seven_tenths k particlesPerPlanet = Nat.leb 1890 k.
Proof.
  rewrite particlesPerPlanet_2700. apply gt_seven_tenths_2700.
Qed.

(** ** The solar system *)

Lemma radii_range (rIdx : nat) :
  (rIdx < length radii)%nat -> 6 <= nth rIdx radii 0 <= 44.
Proof.
  unfold radii. cbn [length].
  do 10 (destruct rIdx as [|rIdx]; [cbn [nth]; lra|]). lia.
Qed.

Lemma planetList_radius (planet : CelestialBodyConfig) :
  In planet planetList -> 0 < radius planet.
Proof.
  unfold planetList, CELESTIAL_BODIES. cbn.
  intros H. repeat (destruct H as [<-|H]; [cbn; lra|]). destruct H.
Qed.

Lemma norm3_offset_sphere_at (r cx cz u1 u2 : R) :
  0 <= r -> norm3 (offset cx cz (sphere_at r cx cz u1 u2)) = r.
Proof.
  intros Hr. unfold norm3, offset, sphere_at. cbv zeta.
  replace (cx + r * sin (acos (2 * u2 - 1)) * cos (u1 * PI * 2) - cx)
    with (r * sin (acos (2 * u2 - 1)) * cos (u1 * PI * 2)) by ring.
  replace (cz + r * sin (acos (2 * u2 - 1)) * sin (u1 * PI * 2) - cz)
    with (r * sin (acos (2 * u2 - 1)) * sin (u1 * PI * 2)) by ring.
  rewrite sphere_norm. now apply sqrt_square.
Qed.

Lemma radial_circle (cx cz r theta y : R) :
  0 <= r -> radial cx cz (cx + r * cos theta, y, cz + r * sin theta) = r.
Proof.
  intros Hr. unfold radial.
  replace (cx + r * cos theta - cx) with (r * cos theta) by ring.
  replace (cz + r * sin theta - cz) with (r * sin theta) by ring.
  now apply circle_norm.
Qed.

Lemma radial_circle_0 (r theta y : R) :
  0 <= r -> radial 0 0 (r * cos theta, y, r * sin theta) = r.
Proof.
  intros Hr. unfold radial.
  replace (r * cos theta - 0) with (r * cos theta) by ring.
  replace (r * sin theta - 0) with (r * sin theta) by ring.
  now apply circle_norm.
Qed.

(** X6. For the Sun, the generated set is the solar system and the groups
    fill the arrays: every one of the N particles is a particle of the Sun
    sphere, of an orbit circle, of the asteroid belt or of a mini planet, in
    this order; the loop that parks leftover particles at the origin has
    nothing left to do and the guard of the planet loop never breaks it. *)
Theorem solar_system_partition (bodyConfig : CelestialBodyConfig) (s : store) :
  String.eqb (name bodyConfig) "Sun" = true ->
  wp (generate rnd parseColor bodyConfig)
     (fun p _ =>
        forall i, (i < count)%nat ->
          solar_particle rnd parseColor (map parseColor (colors bodyConfig))
            (THREE.mkColor 0.2 0.4 0.8) (THREE.mkColor 0.5 0.5 0.5) i
            (particle (Particles.targetPositions p) i)
            (particle (Particles.colors p) i)) s.
Proof.
  intros HS. eapply wp_mono; [apply generate_solar_layout, HS|].
  intros p _ (G1 & G2 & G3 & G4) i Hi.
  destruct solar_sizes as (Zs & Za & Lr & Lp & Zr & Zp).
  pose proof count_Z as Zc.
  unfold solar_particle.
  destruct (Nat.lt_ge_cases i sunCount) as [H1|H1].
  { left. split; [exact H1|]. exact (G1 i H1). }
  right.
  destruct (Nat.lt_ge_cases i (sunCount + length radii * particlesInRing)) as [H2|H2].
  { left.
    assert (Hm : particlesInRing <> 0%nat) by lia.
    pose proof (Nat.div_mod_eq (i - sunCount) particlesInRing) as E.
    pose proof (Nat.mod_upper_bound (i - sunCount) particlesInRing Hm) as U.
    set (q := ((i - sunCount) / particlesInRing)%nat) in *.
    set (r := ((i - sunCount) mod particlesInRing)%nat) in *.
    assert (Hq : (q < length radii)%nat).
    { apply Nat.Div0.div_lt_upper_bound. lia. }
    exists q, r. split; [exact Hq|]. split; [exact U|].
    assert (Ei : i = (sunCount + q * particlesInRing + r)%nat) by lia.
    split; [exact Ei|]. pose proof (G2 q Hq r U) as H. rewrite <- Ei in H. exact H. }
  right.
  destruct (Nat.lt_ge_cases i (sunCount + length radii * particlesInRing + asteroidCount))
    as [H3|H3].
  { left. exists (i - (sunCount + length radii * particlesInRing))%nat.
    assert (Hj : (i - (sunCount + length radii * particlesInRing) < asteroidCount)%nat)
      by lia.
    split; [exact Hj|].
    assert (Ei : i = (sunCount + length radii * particlesInRing
                      + (i - (sunCount + length radii * particlesInRing)))%nat) by lia.
    split; [exact Ei|]. pose proof (G3 _ Hj) as H. rewrite <- Ei in H. exact H. }
  right.
  set (base := (sunCount + length radii * particlesInRing + asteroidCount)%nat) in *.
  assert (Hm : particlesPerPlanet <> 0%nat) by lia.
  pose proof (Nat.div_mod_eq (i - base) particlesPerPlanet) as E.
  pose proof (Nat.mod_upper_bound (i - base) particlesPerPlanet Hm) as U.
  set (q := ((i - base) / particlesPerPlanet)%nat) in *.
  set (r := ((i - base) mod particlesPerPlanet)%nat) in *.
  assert (Hq : (q < length planetList)%nat).
  { apply Nat.Div0.div_lt_upper_bound. subst base. rewrite Lr, Lp in *. lia. }
  destruct (nth_error planetList q) as [planet|] eqn:En;
    [|apply nth_error_None in En; lia].
  exists q, planet, r. split; [exact En|]. split; [exact U|].
  assert (Ei : i = (base + q * particlesPerPlanet + r)%nat) by lia.
  split; [exact Ei|]. pose proof (G4 q planet En r U) as H.
  fold base in H. rewrite <- Ei in H. exact H.
Qed.

(** X7. For the Sun, the first 20000 particles lie on the sphere of radius
    3.5 about the origin, and with a non-empty Sun palette each has the
    colour of a palette entry, as parsed or brightened by 0.2 (the flares). *)
Theorem solar_sun_core (bodyConfig : CelestialBodyConfig) (s : store) :
  String.eqb (name bodyConfig) "Sun" = true ->
  wp (generate rnd parseColor bodyConfig)
     (fun p _ =>
        forall i, (i < sunCount)%nat ->
          norm3 (particle (Particles.targetPositions p) i) = 3.5
          /\ (colors bodyConfig <> [] ->
              exists c, In c (colors bodyConfig)
                        /\ (particle (Particles.colors p) i = rgb (parseColor c)
                            \/ particle (Particles.colors p) i
                               = rgb (brightened 0.2 (parseColor c))))) s.
Proof.
  intros HS. eapply wp_mono; [apply generate_solar_layout, HS|].
  intros p _ (G1 & _) i Hi.
  destruct (G1 i Hi) as ((u1 & u2 & _ & _ & Hpos) & (idx & Hcol)).
  cbn [Nat.add] in Hpos, Hcol. split.
  - rewrite Hpos. unfold norm3. rewrite sphere_norm. apply sqrt_square. lra.
  - intros Hne. destruct (sampled_entry (colors bodyConfig) idx Hne) as (c & Hin & E).
    exists c. split; [exact Hin|]. rewrite <- E. exact Hcol.
Qed.

Section SolarInRange.

Hypothesis rnd_in_range : forall k : nat, 0 <= rnd k < 1.

(** X8. For the Sun, with draws in [0, 1): particle j of orbit circle rIdx
    lies within 0.05 of the circle of radius radii[rIdx] about the vertical
    axis, at the angle 2 pi j / 900, and within 0.025 of its plane; its
    colour is the orbit colour (0.2, 0.4, 0.8) scaled by a factor in
    [0.3, 0.8). *)
Theorem solar_orbit_circles (bodyConfig : CelestialBodyConfig) (s : store) :
  String.eqb (name bodyConfig) "Sun" = true ->
  wp (generate rnd parseColor bodyConfig)
     (fun p _ =>
        forall rIdx j, (rIdx < length radii)%nat -> (j < particlesInRing)%nat ->
          let i := (sunCount + rIdx * particlesInRing + j)%nat in
          let pos := particle (Particles.targetPositions p) i in
          let theta := INR j / INR particlesInRing * PI * 2 in
          Rabs (radial 0 0 pos - nth rIdx radii 0) <= 0.05
          /\ fst (fst pos) = radial 0 0 pos * cos theta
          /\ snd pos = radial 0 0 pos * sin theta
          /\ Rabs (height pos) <= 0.025
          /\ exists k, 0.3 <= k < 0.8
                       /\ particle (Particles.colors p) i = (0.2 * k, 0.4 * k, 0.8 * k)) s.
Proof.
  intros HS. eapply wp_mono; [apply generate_solar_layout, HS|].
  intros p _ (_ & G2 & _) rIdx j Hr Hj. cbv zeta.
  destruct (G2 rIdx Hr j Hj)
    as (u1 & u2 & u3 & (k1 & ->) & (k2 & ->) & (k3 & ->) & Hpos & Hcol).
  pose proof (rnd_in_range k1) as R1. pose proof (rnd_in_range k2) as R2.
  pose proof (rnd_in_range k3) as R3. pose proof (radii_range rIdx Hr) as Rr.
  rewrite Hpos, Hcol. cbn [fst snd height].
  rewrite radial_circle_0 by lra.
  split; [apply Rabs_le; lra|]. split; [reflexivity|]. split; [reflexivity|].
  split; [apply Rabs_le; lra|].
  exists (0.3 + rnd k3 * 0.5). split; [lra|]. reflexivity.
Qed.

(** X9. For the Sun, with draws in [0, 1): the 8000 particles after the
    orbit circles form the asteroid belt, at a distance in [14.5, 17.5) from
    the vertical axis and within 0.4 of the plane, in grey scaled by a
    factor in [0.5, 1). *)
Theorem solar_asteroid_belt (bodyConfig : CelestialBodyConfig) (s : store) :
  String.eqb (name bodyConfig) "Sun" = true ->
  wp (generate rnd parseColor bodyConfig)
     (fun p _ =>
        forall j, (j < asteroidCount)%nat ->
          let i := (sunCount + length radii * particlesInRing + j)%nat in
          let pos := particle (Particles.targetPositions p) i in
          14.5 <= radial 0 0 pos < 17.5
          /\ Rabs (height pos) <= 0.4
          /\ exists k, 0.5 <= k < 1
                       /\ particle (Particles.colors p) i = (0.5 * k, 0.5 * k, 0.5 * k)) s.
Proof.
  intros HS. eapply wp_mono; [apply generate_solar_layout, HS|].
  intros p _ (_ & _ & G3 & _) j Hj. cbv zeta.
  destruct (G3 j Hj)
    as (u1 & u2 & u3 & u4 & (k1 & ->) & _ & (k3 & ->) & (k4 & ->) & Hpos & Hcol).
  pose proof (rnd_in_range k1) as R1. pose proof (rnd_in_range k3) as R3.
  pose proof (rnd_in_range k4) as R4.
  rewrite Hpos, Hcol. cbn [height].
  rewrite radial_circle_0 by lra.
  split; [lra|]. split; [apply Rabs_le; lra|].
  exists (0.5 + rnd k4 * 0.5). split; [lra|]. reflexivity.
Qed.

(** X10. For the Sun, with draws in [0, 1): particle k of mini planet q lies
    about the centre of that planet on its orbit: on the sphere of radius
    0.15 r for the radius r of the body, or, for a ringed body and k from
    1890 on (binary64 rounds 2700 * 0.7 below 1890, so that 1890 passes the
    test [k > particlesPerPlanet * 0.7]), in the annulus between 0.21 r and
    0.33 r within 0.025 of the plane through the centre; the colour is a
    sample of the body palette, of the ring palette for a ring particle. *)
Theorem solar_mini_planets (bodyConfig : CelestialBodyConfig) (s : store) :
  String.eqb (name bodyConfig) "Sun" = true ->
  wp (generate rnd parseColor bodyConfig)
     (fun p _ =>
        forall q planet k,
          nth_error planetList q = Some planet -> (k < particlesPerPlanet)%nat ->
          let i := (sunCount + length radii * particlesInRing + asteroidCount
                    + q * particlesPerPlanet + k)%nat in
          let pos := particle (Particles.targetPositions p) i in
          let col := particle (Particles.colors p) i in
          let cx := fst (planet_centre q) in
          let cz := snd (planet_centre q) in
          if hasRings planet && Nat.leb 1890 k then
            radius planet * 0.21 <= radial cx cz pos <= radius planet * 0.33
            /\ Rabs (height pos) <= 0.025
            /\ exists idx, col = rgb (sample_spec (map parseColor (ring_hex planet)) idx)
          else
            norm3 (offset cx cz pos) = radius planet * 0.15
            /\ exists idx, col = rgb (sample_spec (map parseColor (colors planet)) idx)) s.
Proof.
  intros HS. eapply wp_mono; [apply generate_solar_layout, HS|].
  intros p _ (_ & _ & _ & G4) q planet k Hq Hk. cbv zeta.
  pose proof (G4 q planet Hq k Hk) as H.
  assert (Hr : 0 < radius planet)
    by (apply planetList_radius; eapply nth_error_In, Hq).
  unfold planet_ok in H. rewrite (ring_index_1890 k Hk) in H.
  destruct (hasRings planet && Nat.leb 1890 k).
  - destruct H as ((u1 & u2 & u3 & (k1 & ->) & _ & (k3 & ->) & Hpos) & Hcol).
    cbv zeta in Hpos.
    pose proof (rnd_in_range k1) as R1. pose proof (rnd_in_range k3) as R3.
    split; [|split; [|exact Hcol]].
    + rewrite Hpos, radial_circle by nra. nra.
    + rewrite Hpos. cbn [height]. apply Rabs_le. lra.
  - destruct H as ((u1 & u2 & _ & _ & Hpos) & Hcol). split; [|exact Hcol].
    rewrite Hpos. apply norm3_offset_sphere_at. lra.
Qed.

End SolarInRange.

End Facts.


(** ** The animation driver *)

(** C8 (amended). The oscillation intensity is non-decreasing in the
    expansion over [0, 1] for every category but the star; for a star it is
    non-decreasing as long as the two expansion values lie on the same side
    of the threshold 0.1, where the extra floor of the star ends.  At
    expansion 0 the intensity is the floor: 0.02, and 0.05 for a star. *)
Theorem noiseIntensity_monotone (bodyConfig : CelestialBodyConfig) (e1 e2 : R) :
  0 <= e1 -> e1 < e2 -> e2 <= 1 ->
  (type bodyConfig = Star -> e2 < 0.1 \/ 0.1 <= e1) ->
  noiseIntensity bodyConfig e1 <= noiseIntensity bodyConfig e2
  /\ noiseIntensity bodyConfig 0 = (if is_star (type bodyConfig) then 0.05 else 0.02)
  /\ 0.02 <= noiseIntensity bodyConfig 0.
Proof.
  intros H0 H12 H1 Hside. unfold noiseIntensity, Rltb.
  destruct (Rlt_dec 0 0.1) as [_|N]; [|lra].
  destruct (Rlt_dec e1 0.1) as [A1|A1], (Rlt_dec e2 0.1) as [A2|A2];
    destruct (type bodyConfig) eqn:T; cbn [is_star andb];
    repeat split; try lra.
  all: destruct Hside as [G|G]; [reflexivity | lra | lra].
Qed.

Lemma noiseIntensity_nonneg (bodyConfig : CelestialBodyConfig) (e : R) :
  0 <= e -> 0 <= noiseIntensity bodyConfig e.
Proof.
  intros H. unfold noiseIntensity.
  destruct (is_star (type bodyConfig) && Rltb e 0.1); lra.
Qed.

Lemma oscillation_bound (time e : R) (bodyConfig : CelestialBodyConfig)
    (p : Particles.t) (i c : nat) :
  0 <= e -> Rabs (oscillation time e bodyConfig p i c) <= noiseIntensity bodyConfig e * 0.2.
Proof.
  intros He. pose proof (noiseIntensity_nonneg bodyConfig e He) as Hn.
  unfold oscillation.
  set (w := match c with
            | 1%nat => cos (time * 0.3 + read (Particles.randoms p) (i * 3 + 1) * 100)
            | _ => sin (time * 0.5 + read (Particles.randoms p) (i * 3 + c) * 100)
            end).
  assert (Hw : -1 <= w <= 1).
  { subst w. destruct c as [|[|c]]; [apply SIN_bound | apply COS_bound | apply SIN_bound]. }
  apply Rabs_le. nra.
Qed.

Lemma frameParticle_length (time e : R) (bodyConfig : CelestialBodyConfig)
    (p : Particles.t) (i : nat) (a : Float32Array) :
  length (frameParticle time e bodyConfig p i a) = length a.
Proof. unfold frameParticle. cbv zeta. now rewrite !write_length. Qed.

Lemma frameParticle_other (time e : R) (bodyConfig : CelestialBodyConfig)
    (p : Particles.t) (i i' c : nat) (a : Float32Array) :
  i <> i' -> (c < 3)%nat ->
  read (frameParticle time e bodyConfig p i a) (i' * 3 + c) = read a (i' * 3 + c).
Proof.
  intros Hne Hc. unfold frameParticle. cbv zeta.
  rewrite !read_write_other by lia. reflexivity.
Qed.

Lemma frameParticle_same (time e : R) (bodyConfig : CelestialBodyConfig)
    (p : Particles.t) (i c : nat) (a : Float32Array) :
  (i * 3 + 2 < length a)%nat -> (c < 3)%nat ->
  read (frameParticle time e bodyConfig p i a) (i * 3 + c)
  = advance time e bodyConfig p i c (read a (i * 3 + c)).
Proof.
  intros Hl Hc. unfold frameParticle, advance, blend_target, oscillation. cbv zeta.
  destruct c as [|[|[|c]]]; [| | |lia].
  - rewrite Nat.add_0_r.
    rewrite (read_write_other (i * 3 + 2) (i * 3)) by lia.
    rewrite (read_write_other (i * 3 + 1) (i * 3)) by lia.
    rewrite read_write_same by lia. reflexivity.
  - rewrite (read_write_other (i * 3 + 2) (i * 3 + 1)) by lia.
    rewrite read_write_same by (rewrite write_length; lia).
    rewrite (read_write_other (i * 3) (i * 3 + 1)) by lia. reflexivity.
  - rewrite read_write_same by (rewrite !write_length; lia).
    rewrite (read_write_other (i * 3 + 1) (i * 3 + 2)) by lia.
    rewrite (read_write_other (i * 3) (i * 3 + 2)) by lia. reflexivity.
Qed.

Lemma for_array_frame (time e : R) (bodyConfig : CelestialBodyConfig) (p : Particles.t) :
  forall (n start : nat) (a : Float32Array),
    ((start + n) * 3 <= length a)%nat ->
    length (for_array start n (frameParticle time e bodyConfig p) a) = length a
    /\ forall i c, (c < 3)%nat ->
         read (for_array start n (frameParticle time e bodyConfig p) a) (i * 3 + c)
         = if Nat.leb start i && Nat.ltb i (start + n)
           then advance time e bodyConfig p i c (read a (i * 3 + c))
           else read a (i * 3 + c).
Proof.
  induction n as [|n IH]; intros start a Hl; cbn [for_array].
  - split; [reflexivity|]. intros i c Hc.
    destruct (Nat.leb_spec start i), (Nat.ltb_spec i (start + 0)); cbn [andb];
      try reflexivity; lia.
  - destruct (IH (S start) (frameParticle time e bodyConfig p start a)) as (L & H).
    { rewrite frameParticle_length. lia. }
    split; [now rewrite L, frameParticle_length|].
    intros i c Hc. rewrite (H i c Hc).
    destruct (Nat.eq_dec start i) as [->|Hne].
    + rewrite frameParticle_same by lia.
      destruct (Nat.leb_spec (S i) i); [lia|]. cbn [andb].
      destruct (Nat.leb_spec i i); [|lia].
      destruct (Nat.ltb_spec i (i + S n)); [|lia]. reflexivity.
    + rewrite frameParticle_other by assumption.
      destruct (Nat.leb_spec (S start) i), (Nat.leb_spec start i),
        (Nat.ltb_spec i (S start + n)), (Nat.ltb_spec i (start + S n));
        cbn [andb]; try reflexivity; lia.
Qed.

(** The run of the driver on a mounted object: the array keeps its length
    and every coordinate advances by one smoothing step per frame. *)
Lemma frames_step (time delta : nat -> R) (rotationInfluence : nat -> R * R) (e : R)
    (bodyConfig : CelestialBodyConfig) (p : Particles.t) (pts0 : Points) :
  length (positions pts0) = (count * 3)%nat ->
  forall k,
    (exists pts,
        frames k time delta rotationInfluence e bodyConfig p (Some pts0) = Some pts
        /\ length (positions pts) = (count * 3)%nat)
    /\ forall i c, (i < count)%nat -> (c < 3)%nat ->
         read (positions_of (frames (S k) time delta rotationInfluence e bodyConfig p
                               (Some pts0))) (i * 3 + c)
         = advance (time k) e bodyConfig p i c
             (read (positions_of (frames k time delta rotationInfluence e bodyConfig p
                                    (Some pts0))) (i * 3 + c)).
Proof.
  intros L0.
  assert (H : forall k, exists pts,
               frames k time delta rotationInfluence e bodyConfig p (Some pts0) = Some pts
               /\ length (positions pts) = (count * 3)%nat).
  { induction k as [|k (pts & E & L)]; [exists pts0; split; [reflexivity | exact L0]|].
    cbn [frames]. rewrite E. cbn [useFrame]. eexists. split; [reflexivity|].
    cbn [positions].
    destruct (for_array_frame (time k) e bodyConfig p count 0 (positions pts)) as (L' & _);
      [lia|]. now rewrite L'. }
  intros k. split; [apply H|].
  intros i c Hi Hc. destruct (H k) as (pts & E & L).
  cbn [frames]. rewrite E. cbn [useFrame positions_of positions].
  destruct (for_array_frame (time k) e bodyConfig p count 0 (positions pts)) as (_ & G);
    [lia|].
  rewrite (G i c Hc).
  destruct (Nat.leb_spec 0 i); [|lia].
  destruct (Nat.ltb_spec i (0 + count)); [|lia]. reflexivity.
Qed.

Lemma Rabs_le_bounds (a b : R) : Rabs a <= b -> - b <= a <= b.
Proof.
  unfold Rabs. destruct (Rcase_abs a); lra.
Qed.

Lemma advance_bound (time e : R) (bodyConfig : CelestialBodyConfig) (p : Particles.t)
    (i c : nat) (x M : R) :
  0 <= e ->
  Rabs (x - blend_target e p (i * 3 + c)) <= M ->
  Rabs (advance time e bodyConfig p i c x - blend_target e p (i * 3 + c))
  <= 0.92 * M + 0.08 * (noiseIntensity bodyConfig e * 0.2).
Proof.
  intros He HM. pose proof (oscillation_bound time e bodyConfig p i c He) as Ho.
  unfold advance, lerpSpeed.
  set (B := blend_target e p (i * 3 + c)) in *.
  set (o := oscillation time e bodyConfig p i c) in *.
  set (A := noiseIntensity bodyConfig e * 0.2) in *.
  apply Rabs_le_bounds in HM. apply Rabs_le_bounds in Ho. apply Rabs_le. lra.
Qed.

Lemma live_bound (time delta : nat -> R) (rotationInfluence : nat -> R * R) (e : R)
    (bodyConfig : CelestialBodyConfig) (p : Particles.t) (pts0 : Points) (i c : nat) :
  0 <= e ->
  length (positions pts0) = (count * 3)%nat ->
  (i < count)%nat -> (c < 3)%nat ->
  forall k,
    Rabs (read (positions_of (frames k time delta rotationInfluence e bodyConfig p
                                (Some pts0))) (i * 3 + c)
          - blend_target e p (i * 3 + c))
    <= 0.92 ^ k * Rabs (read (positions pts0) (i * 3 + c) - blend_target e p (i * 3 + c))
       + noiseIntensity bodyConfig e * 0.2.
Proof.
  intros He L0 Hi Hc.
  pose proof (noiseIntensity_nonneg bodyConfig e He) as Hn.
  induction k as [|k IH].
  - cbn [frames positions_of pow]. lra.
  - destruct (frames_step time delta rotationInfluence e bodyConfig p pts0 L0 k) as (_ & G).
    rewrite (G i c Hi Hc).
    eapply Rle_trans; [apply advance_bound; [exact He | exact IH]|].
    cbn [pow]. lra.
Qed.

Lemma settles (x : nat -> R) (B A D : R) :
  0 <= D ->
  (forall k, Rabs (x k - B) <= 0.92 ^ k * D + A) ->
  forall eps, 0 < eps -> exists K, forall k, (K <= k)%nat -> Rabs (x k - B) < A + eps.
Proof.
  intros HD Hb eps Heps.
  destruct (pow_lt_1_zero 0.92) with (y := eps / (D + 1)) as (K & HK).
  - rewrite Rabs_pos_eq; lra.
  - apply Rdiv_lt_0_compat; lra.
  - exists K. intros k Hk. specialize (HK k Hk). specialize (Hb k).
    assert (Hp : 0 <= 0.92 ^ k) by (apply pow_le; lra).
    rewrite Rabs_pos_eq in HK by exact Hp.
    assert (Hq : 0.92 ^ k * (D + 1) < eps).
    { apply (Rmult_lt_compat_r (D + 1)) in HK; [|lra].
      unfold Rdiv in HK. rewrite Rmult_assoc, Rinv_l, Rmult_1_r in HK by lra. exact HK. }
    nra.
Qed.

(** C9 (amended). With the expansion held at 1, every coordinate of every
    live position eventually is, and remains, within the oscillation
    amplitude 0.82 * 0.2 plus any epsilon of the origin position (the
    oscillation is strongest at full expansion and does not die out); with
    the expansion held at 0 it is eventually within the amplitude at full
    contraction, 0.02 * 0.2 (0.05 * 0.2 for a star), plus epsilon of the
    target position. *)
Theorem live_position_settles (time delta : nat -> R) (rotationInfluence : nat -> R * R)
    (bodyConfig : CelestialBodyConfig) (p : Particles.t) (pts0 : Points)
    (i c : nat) (eps : R) :
  length (positions pts0) = (count * 3)%nat ->
  (i < count)%nat -> (c < 3)%nat -> 0 < eps ->
  (exists K, forall k, (K <= k)%nat ->
     exists pts,
       frames k time delta rotationInfluence 1 bodyConfig p (Some pts0) = Some pts
       /\ Rabs (read (positions pts) (i * 3 + c)
                - read (Particles.initialPositions p) (i * 3 + c))
          < 0.82 * 0.2 + eps)
  /\ (exists K, forall k, (K <= k)%nat ->
        exists pts,
          frames k time delta rotationInfluence 0 bodyConfig p (Some pts0) = Some pts
          /\ Rabs (read (positions pts) (i * 3 + c)
                   - read (Particles.targetPositions p) (i * 3 + c))
             < (if is_star (type bodyConfig) then 0.05 else 0.02) * 0.2 + eps).
Proof.
  intros L0 Hi Hc Heps.
  assert (G : forall e, 0 <= e ->
            exists K, forall k, (K <= k)%nat ->
              exists pts,
                frames k time delta rotationInfluence e bodyConfig p (Some pts0) = Some pts
                /\ Rabs (read (positions pts) (i * 3 + c) - blend_target e p (i * 3 + c))
                   < noiseIntensity bodyConfig e * 0.2 + eps).
  { intros e He.
    destruct (settles
                (fun k => read (positions_of (frames k time delta rotationInfluence e
                                                bodyConfig p (Some pts0))) (i * 3 + c))
                (blend_target e p (i * 3 + c))
                (noiseIntensity bodyConfig e * 0.2)
                (Rabs (read (positions pts0) (i * 3 + c) - blend_target e p (i * 3 + c))))
      with (eps := eps) as (K & HK).
    - apply Rabs_pos.
    - intros k. apply live_bound; assumption.
    - exact Heps.
    - exists K. intros k Hk.
      destruct (frames_step time delta rotationInfluence e bodyConfig p pts0 L0 k)
        as ((pts & E & _) & _).
      exists pts. split; [exact E|].
      specialize (HK k Hk). cbv beta in HK. rewrite E in HK. exact HK. }
  split.
  - destruct (G 1) as (K & HK); [lra|]. exists K. intros k Hk.
    destruct (HK k Hk) as (pts & E & B). exists pts. split; [exact E|].
    unfold blend_target in B.
    replace (1 * read (Particles.initialPositions p) (i * 3 + c)
             + (1 - 1) * read (Particles.targetPositions p) (i * 3 + c))
      with (read (Particles.initialPositions p) (i * 3 + c)) in B by ring.
    assert (N : noiseIntensity bodyConfig 1 = 0.82).
    { unfold noiseIntensity, Rltb. destruct (Rlt_dec 1 0.1); [lra|].
      rewrite andb_false_r. lra. }
    rewrite N in B. exact B.
  - destruct (G 0) as (K & HK); [lra|]. exists K. intros k Hk.
    destruct (HK k Hk) as (pts & E & B). exists pts. split; [exact E|].
    unfold blend_target in B.
    replace (0 * read (Particles.initialPositions p) (i * 3 + c)
             + (1 - 0) * read (Particles.targetPositions p) (i * 3 + c))
      with (read (Particles.targetPositions p) (i * 3 + c)) in B by ring.
    assert (N : noiseIntensity bodyConfig 0
                = if is_star (type bodyConfig) then 0.05 else 0.02).
    { unfold noiseIntensity, Rltb. destruct (Rlt_dec 0 0.1); [|lra].
      rewrite andb_true_r. destruct (is_star (type bodyConfig)); lra. }
    rewrite N in B. exact B.
Qed.

(** ** The noise function *)

(** X5. The pseudo-noise value always lies between -1.5 and 1.5, so that
    the normalised value (n + 1.5) / 3 lies between 0 and 1. *)
Theorem noise_range (x y z : R) :
  -1.5 <= noise x y z <= 1.5 /\ 0 <= (noise x y z + 1.5) / 3 <= 1.
Proof.
  unfold noise.
  pose proof (SIN_bound (x * 12)) as A1. pose proof (COS_bound (y * 12)) as A2.
  pose proof (SIN_bound (z * 12)) as A3. pose proof (SIN_bound (x * 4)) as B1.
  pose proof (SIN_bound (y * 4)) as B2. pose proof (COS_bound (z * 4)) as B3.
  set (a1 := sin (x * 12)) in *. set (a2 := cos (y * 12)) in *.
  set (a3 := sin (z * 12)) in *. set (b1 := sin (x * 4)) in *.
  set (b2 := sin (y * 4)) in *. set (b3 := cos (z * 4)) in *.
  assert (P1 : -1 <= a1 * a2 <= 1) by nra.
  assert (P2 : -1 <= a1 * a2 * a3 <= 1) by nra.
  assert (Q1 : -1 <= b1 * b2 <= 1) by nra.
  assert (Q2 : -1 <= b1 * b2 * b3 <= 1) by nra.
  lra.
Qed.

(** * The hand reading *)

Lemma sum_squares_zero (a b : R) : a ^ 2 + b ^ 2 = 0 <-> a = 0 /\ b = 0.
Proof.
  split.
  - intros H. split; nra.
  - intros (-> & ->). ring.
Qed.

Lemma sqrt_squares_zero (a b : R) : sqrt (a ^ 2 + b ^ 2) = 0 <-> a = 0 /\ b = 0.
Proof.
  rewrite <- sum_squares_zero. split.
  - intros H. apply sqrt_eq_0; [nra | exact H].
  - intros ->. apply sqrt_0.
Qed.

Lemma sqrt_squares_scale (k a b : R) :
  0 <= k -> sqrt ((k * a) ^ 2 + (k * b) ^ 2) = k * sqrt (a ^ 2 + b ^ 2).
Proof.
  intros Hk.
  replace ((k * a) ^ 2 + (k * b) ^ 2) with (k ^ 2 * (a ^ 2 + b ^ 2)) by ring.
  rewrite sqrt_mult by nra.
  replace (k ^ 2) with (k * k) by ring. now rewrite sqrt_square.
Qed.

Lemma js_div_scale (k e a : R) : 0 < k -> js_div (k * e) (k * a) = js_div e a.
Proof.
  intros Hk. unfold js_div, Rgtb, Rltb.
  destruct (Req_dec_T (k * a) 0) as [H|H], (Req_dec_T a 0) as [H'|H'].
  - destruct (Rgt_dec (k * e) 0), (Rgt_dec e 0), (Rlt_dec (k * e) 0), (Rlt_dec e 0);
      try reflexivity; exfalso; nra.
  - exfalso. nra.
  - exfalso. subst a. nra.
  - f_equal. field. split; lra.
Qed.

(** The openness score of a ratio *)
Lemma score_range (ratio : number) :
  let score := Math_min (Math_max (js_affine ratio 0.8 1.5) (Fin 0)) (Fin 1) in
  (ratio = NaN /\ score = NaN)
  \/ (ratio <> NaN /\ exists v, score = Fin v /\ 0 <= v <= 1
                                /\ (js_gt ratio 1.3 = true -> / 3 < v)).
Proof.
  cbv zeta. destruct ratio as [| | |x]; cbn [js_affine Math_max Math_min js_gt].
  - left. split; reflexivity.
  - right. split; [discriminate|]. exists 1. split; [reflexivity|]. split; lra.
  - right. split; [discriminate|]. exists (Rmin 0 1). split; [reflexivity|].
    split; [unfold Rmin; destruct (Rle_dec 0 1); lra | discriminate].
  - right. split; [discriminate|]. eexists. split; [reflexivity|].
    unfold Rgtb. split.
    + unfold Rmin, Rmax.
      destruct (Rle_dec ((x - 0.8) / 1.5) 0);
        destruct (Rle_dec _ 1); lra.
    + destruct (Rgt_dec x 1.3); [intros _|discriminate].
      unfold Rmin, Rmax.
      destruct (Rle_dec ((x - 0.8) / 1.5) 0);
        destruct (Rle_dec _ 1); lra.
Qed.

(** X11. A hand of 21 or more landmarks is always read, and one of fewer
    than 21 raises a [TypeError] (landmark 20 is missing); without a hand
    the idle reading is an open hand at the centre of the image. *)
Theorem predict_landmarks (landmarks : list Landmark.t) (rest : list (list Landmark.t)) :
  ((21 <= length landmarks)%nat ->
   exists isOpen score position,
     predict true (landmarks :: rest) = Updated isOpen score position)
  /\ ((length landmarks < 21)%nat -> predict true (landmarks :: rest) = Thrown)
  /\ predict true [] = Updated true (Fin 1) (0.5, 0.5)
  /\ forall result, predict false result = Skipped.
Proof.
  split; [|split; [|split]].
  - intros H. unfold predict. cbn [negb].
    destruct (nth_error landmarks 0) eqn:E0; [|apply nth_error_None in E0; lia].
    destruct (nth_error landmarks 5) eqn:E5; [|apply nth_error_None in E5; lia].
    destruct (nth_error landmarks 12) eqn:E12; [|apply nth_error_None in E12; lia].
    destruct (nth_error landmarks 4) eqn:E4; [|apply nth_error_None in E4; lia].
    destruct (nth_error landmarks 20) eqn:E20; [|apply nth_error_None in E20; lia].
    cbv zeta. eexists _, _, _. reflexivity.
  - intros H. unfold predict. cbn [negb].
    assert (E20 : nth_error landmarks 20 = None) by (apply nth_error_None; lia).
    rewrite E20.
    destruct (nth_error landmarks 0), (nth_error landmarks 5),
      (nth_error landmarks 12), (nth_error landmarks 4); reflexivity.
  - reflexivity.
  - reflexivity.
Qed.

(** X12. Whenever [predict] calls back, the openness score is a number in
    [0, 1], except that it is [NaN] exactly when landmarks 0, 5 and 12 (wrist,
    index knuckle and middle fingertip) coincide in the image; and a hand
    reported open has a score above 1/3. *)
Theorem predict_score (ready : bool) (landmarks : list Landmark.t)
    (rest : list (list Landmark.t)) (isOpen : bool) (score : number)
    (position : R * R) :
  predict ready (landmarks :: rest) = Updated isOpen score position ->
  exists wrist indexMcp middleTip,
    nth_error landmarks 0 = Some wrist
    /\ nth_error landmarks 5 = Some indexMcp
    /\ nth_error landmarks 12 = Some middleTip
    /\ (score = NaN <->
        (Landmark.x indexMcp = Landmark.x wrist /\ Landmark.y indexMcp = Landmark.y wrist)
        /\ (Landmark.x middleTip = Landmark.x wrist
            /\ Landmark.y middleTip = Landmark.y wrist))
    /\ (score <> NaN -> exists v, score = Fin v /\ 0 <= v <= 1)
    /\ (isOpen = true -> exists v, score = Fin v /\ / 3 < v <= 1).
Proof.
  unfold predict. destruct ready; cbn [negb]; [|discriminate].
  destruct (nth_error landmarks 0) as [wrist|]; [|discriminate].
  destruct (nth_error landmarks 5) as [indexMcp|]; [|discriminate].
  destruct (nth_error landmarks 12) as [middleTip|]; [|discriminate].
  destruct (nth_error landmarks 4) as [thumbTip|]; [|discriminate].
  destruct (nth_error landmarks 20) as [pinkyTip|]; [|discriminate].
  cbv zeta.
  remember (sqrt ((Landmark.x indexMcp - Landmark.x wrist) ^ 2
                  + (Landmark.y indexMcp - Landmark.y wrist) ^ 2)) as scale eqn:Escale.
  remember (sqrt ((Landmark.x middleTip - Landmark.x wrist) ^ 2
                  + (Landmark.y middleTip - Landmark.y wrist) ^ 2))
    as extension eqn:Eext.
  intros H. injection H as Ho Hs _.
  exists wrist, indexMcp, middleTip. repeat (split; [reflexivity|]).
  assert (Hext : 0 <= extension) by (subst extension; apply sqrt_pos).
  assert (Hnan : js_div extension scale = NaN <-> scale = 0 /\ extension = 0).
  { unfold js_div, Rgtb, Rltb. destruct (Req_dec_T scale 0) as [Hz|Hz].
    - destruct (Rgt_dec extension 0); [split; [discriminate | intros (_ & H); lra]|].
      destruct (Rlt_dec extension 0); [lra|].
      split; [intros _; split; [exact Hz | lra] | reflexivity].
    - split; [discriminate | intros (H & _); contradiction]. }
  pose proof (score_range (js_div extension scale)) as R. cbv zeta in R.
  rewrite Hs in R.
  split; [|split].
  - destruct R as [(Hr & Hsc)|(Hr & v & Hsc & _)].
    + split; [intros _|intros _; exact Hsc].
      apply Hnan in Hr. destruct Hr as (Hz & He).
      rewrite Escale in Hz. rewrite Eext in He.
      apply sqrt_squares_zero in Hz. apply sqrt_squares_zero in He.
      split; split; lra.
    + split; [intros E; congruence|].
      intros ((A & B) & (C & D)). exfalso. apply Hr, Hnan.
      rewrite Escale, Eext.
      split; apply sqrt_squares_zero; split; lra.
  - intros Hn. destruct R as [(_ & Hsc)|(_ & v & Hsc & Hv & _)]; [contradiction|].
    exists v. split; assumption.
  - intros Hopen. subst isOpen. apply andb_prop in Hopen. destruct Hopen as (Hg & _).
    destruct R as [(Hr & _)|(_ & v & Hsc & Hv & Hgt)].
    + rewrite Hr in Hg. discriminate.
    + exists v. split; [exact Hsc|]. split; [apply Hgt, Hg | apply Hv].
Qed.

(** X13. The reading does not depend on how far the hand is from the camera
    or where it is in the image: with every landmark scaled by [k > 0] and
    moved by [(a, b)], [predict] reports the same state and score, and the
    position scaled and moved alike. *)
Theorem predict_zoom (k a b : R) (ready : bool) (landmarks : list Landmark.t)
    (rest rest' : list (list Landmark.t)) (isOpen : bool) (score : number) (px py : R) :
  0 < k ->
  predict ready (landmarks :: rest) = Updated isOpen score (px, py) ->
  predict ready (map (zoom k a b) landmarks :: rest')
  = Updated isOpen score (k * px + a, k * py + b).
Proof.
  intros Hk. unfold predict. destruct ready; cbn [negb]; [|discriminate].
  rewrite !nth_error_map.
  destruct (nth_error landmarks 0) as [wrist|]; [|discriminate].
  destruct (nth_error landmarks 5) as [indexMcp|]; [|discriminate].
  destruct (nth_error landmarks 12) as [middleTip|]; [|discriminate].
  destruct (nth_error landmarks 4) as [thumbTip|]; [|discriminate].
  destruct (nth_error landmarks 20) as [pinkyTip|]; [|discriminate].
  cbn [option_map]. cbv zeta. intros H. injection H as <- <- <- <-.
  unfold zoom. cbn [Landmark.x Landmark.y].
  assert (D : forall u v w z : R,
             sqrt ((k * u + a - (k * v + a)) ^ 2 + (k * w + b - (k * z + b)) ^ 2)
             = k * sqrt ((u - v) ^ 2 + (w - z) ^ 2)).
  { intros u v w z. rewrite <- sqrt_squares_scale by lra. f_equal. ring. }
  rewrite !D, !js_div_scale by exact Hk.
  apply (f_equal3 Updated); [reflexivity | reflexivity | f_equal; field].
Qed.

(** * The hand handler *)

(** X14. A reading of landmarks that lie in the image (coordinates in
    [0, 1]) gives the rotation influence both of its components in [-1, 1],
    whatever the state and the render the handler belongs to; without a hand
    the influence is (0, 0). *)
Theorem hand_rotation_range (ready : bool) (result : list (list Landmark.t))
    (isOpen : bool) (score : number) (position : R * R) (seen st : App.State) :
  predict ready result = Updated isOpen score position ->
  (forall hand l, In hand result -> In l hand ->
                  0 <= Landmark.x l <= 1 /\ 0 <= Landmark.y l <= 1) ->
  let st' := fst (App.handleHandUpdate seen isOpen score position st) in
  (-1 <= fst (App.handRotation st') <= 1 /\ -1 <= snd (App.handRotation st') <= 1)
  /\ (result = [] -> App.handRotation st' = (0, 0)).
Proof.
  unfold predict. destruct ready; cbn [negb]; [|discriminate].
  destruct result as [|landmarks rest].
  - intros H _. injection H as <- <- <-.
    cbn [App.handleHandUpdate fst snd App.handRotation].
    split; [split; lra|]. intros _. f_equal; lra.
  - destruct (nth_error landmarks 0) as [wrist|] eqn:E0; [|discriminate].
    destruct (nth_error landmarks 5) as [indexMcp|] eqn:E5; [|discriminate].
    destruct (nth_error landmarks 12) as [middleTip|]; [|discriminate].
    destruct (nth_error landmarks 4) as [thumbTip|]; [|discriminate].
    destruct (nth_error landmarks 20) as [pinkyTip|] eqn:E20; [|discriminate].
    cbv zeta. intros H Hr. injection H as _ _ <-.
    cbn [App.handleHandUpdate fst snd App.handRotation].
    assert (Hin : forall l k, nth_error landmarks k = Some l ->
                    0 <= Landmark.x l <= 1 /\ 0 <= Landmark.y l <= 1).
    { intros l k E. apply (Hr landmarks); [left; reflexivity|].
      eapply nth_error_In, E. }
    pose proof (Hin _ _ E0) as (A0 & B0). pose proof (Hin _ _ E5) as (A5 & B5).
    pose proof (Hin _ _ E20) as (A20 & B20).
    split; [split; lra | discriminate].
Qed.

Lemma handUpdates_cons (seen : App.State) (isOpen : bool) (score : number)
    (position : R * R) (rest : list App.Update) (st : App.State) :
  App.handUpdates ((seen, (isOpen, score, position)) :: rest) st
  = (fst (App.handUpdates rest
            (fst (App.handleHandUpdate seen isOpen score position st))),
     snd (App.handleHandUpdate seen isOpen score position st)
     ++ snd (App.handUpdates rest
               (fst (App.handleHandUpdate seen isOpen score position st)))).
Proof.
  cbn [App.handUpdates].
  destruct (App.handleHandUpdate seen isOpen score position st) as [st1 calls1].
  cbn [fst snd]. destruct (App.handUpdates rest st1). reflexivity.
Qed.

(** X15. The expansion never leaves [0, 1]: from a value in [0, 1] every
    sequence of hand updates, from whatever renders, leaves it in [0, 1]. *)
Theorem expansion_in_unit_interval (updates : list App.Update) (st : App.State) :
  0 <= App.expansion st <= 1 ->
  0 <= App.expansion (fst (App.handUpdates updates st)) <= 1.
Proof.
  revert st. induction updates as [|[seen [[isOpen score] position]] rest IH];
    intros st H.
  - exact H.
  - rewrite handUpdates_cons. cbn [fst]. apply IH.
    cbn [App.handleHandUpdate fst App.expansion]. destruct isOpen; lra.
Qed.

(** X16. While the hand stays open (or stays closed) the expansion
    approaches 1 (or 0) geometrically: after n updates its distance from the
    target is 0.9^n times what it was. *)
Theorem expansion_geometric (isOpen : bool) (updates : list App.Update) (st : App.State) :
  Forall (fun u => fst (fst (snd u)) = isOpen) updates ->
  let target := if isOpen then 1 else 0 in
  App.expansion (fst (App.handUpdates updates st)) - target
  = 0.9 ^ length updates * (App.expansion st - target).
Proof.
  cbv zeta. revert st.
  induction updates as [|[seen [[o score] position]] rest IH]; intros st F.
  - cbn [App.handUpdates fst length pow]. ring.
  - pose proof (Forall_inv F) as Ho. pose proof (Forall_inv_tail F) as F'.
    cbn [fst snd] in Ho. subst o.
    rewrite handUpdates_cons. cbn [fst]. rewrite (IH _ F').
    cbn [App.handleHandUpdate fst App.expansion length pow].
    generalize (0.9 ^ length rest). intros q. destruct isOpen; nra.
Qed.

Lemma calls_of_app (c : Call.t) (l l' : list Call.t) :
  calls_of c (l ++ l') = (calls_of c l + calls_of c l')%nat.
Proof. unfold calls_of. now rewrite filter_app, length_app. Qed.

(** X17. With every update handled by the handler of the latest state, body
    changes and new phrases follow the closings and openings of the hand:
    the number of [changeCelestialBody] calls exceeds the number of
    [triggerNewPhrase] calls by one if the hand went from open to closed
    over the run, is one less if it went from closed to open, and equals it
    otherwise; every one of these calls comes with its sound unless the
    application is muted, and then no sound is played. *)
Theorem calls_follow_hand (updates : list App.Update) (st : App.State) :
  App.fresh updates st ->
  let st' := fst (App.handUpdates updates st) in
  let calls := snd (App.handUpdates updates st) in
  (calls_of Call.changeCelestialBody calls + Nat.b2n (App.isHandOpen st')
   = calls_of Call.triggerNewPhrase calls + Nat.b2n (App.isHandOpen st))%nat
  /\ App.isMuted st' = App.isMuted st
  /\ (if App.isMuted st
      then calls_of Call.playExpand calls = 0%nat
           /\ calls_of Call.playContract calls = 0%nat
      else calls_of Call.playExpand calls = calls_of Call.triggerNewPhrase calls
           /\ calls_of Call.playContract calls
              = calls_of Call.changeCelestialBody calls).
Proof.
  cbv zeta. revert st.
  induction updates as [|[seen [[isOpen score] position]] rest IH]; intros st F.
  - cbn [App.handUpdates fst snd]. unfold calls_of. cbn [filter length].
    split; [reflexivity|]. split; [reflexivity|]. destruct (App.isMuted st); split; reflexivity.
  - destruct F as (-> & F). rewrite handUpdates_cons. cbn [fst snd].
    specialize (IH _ F). destruct IH as (IH1 & IH2 & IH3).
    rewrite !calls_of_app.
    cbn [App.handleHandUpdate fst snd App.isHandOpen App.isMuted] in *.
    rewrite IH2. split; [|split; [reflexivity|]].
    + destruct (App.isHandOpen st), isOpen, (App.isMuted st);
        cbn [negb andb app calls_of] in *; unfold calls_of in *;
        cbn [filter Call.eqb length app Nat.b2n] in *; lia.
    + destruct (App.isHandOpen st), isOpen, (App.isMuted st);
        cbn [negb andb app calls_of] in *; unfold calls_of in *;
        cbn [filter Call.eqb length app Nat.b2n] in *; lia.
Qed.

Lemma shown_head (times : list R) (last : R) :
  forall t, In t (App.shown times last) -> last + 3000 <= t.
Proof.
  revert last. induction times as [|now rest IH]; intros last t; cbn [App.shown].
  - intros [].
  - unfold App.cooldown, Rltb. destruct (Rlt_dec (now - last) 3000) as [H|H].
    + apply IH.
    + intros [<-|Hin]; [lra|]. specialize (IH now t Hin). lra.
Qed.

(** X18. Whatever the times of its calls, [triggerNewPhrase] shows phrases
    at least 3000 ms apart, and the first not before 3000 ms after the time
    recorded in [lastPhraseTime]. *)
Theorem phrases_spaced (times : list R) (lastPhraseTime : R) :
  spaced 3000 (App.shown times lastPhraseTime)
  /\ forall t, In t (App.shown times lastPhraseTime) -> lastPhraseTime + 3000 <= t.
Proof.
  split; [|apply shown_head].
  revert lastPhraseTime. induction times as [|now rest IH]; intros last; cbn [App.shown].
  - exact I.
  - unfold App.cooldown, Rltb. destruct (Rlt_dec (now - last) 3000) as [H|H].
    + apply IH.
    + specialize (IH now). pose proof (shown_head rest now) as Hh.
      destruct (App.shown rest now) as [|b t] eqn:E; [exact I|].
      cbn [spaced]. split; [|exact IH]. apply Hh. left. reflexivity.
Qed.

(** * The rotation and the reach of the start of the animation *)

(** X19. With the rotation influence held at [(rx, ry)], the rotation of the
    points object after any number of frames depends on the time elapsed
    only, not on how it is cut into frames: the object has turned by
    (0.1 + 2 rx) radians per second about the vertical axis (0.05 + 2 rx for
    the Sun) and by ry radians per second about the horizontal one. *)
Theorem frames_rotation (time delta : nat -> R) (rx ry e : R)
    (bodyConfig : CelestialBodyConfig) (p : Particles.t) (pts0 : Points) (k : nat) :
  exists pts,
    frames k time delta (fun _ => (rx, ry)) e bodyConfig p (Some pts0) = Some pts
    /\ rotation_y pts
       = rotation_y pts0
         + ((if String.eqb (name bodyConfig) "Sun" then 0.05 else 0.1) + rx * 2)
           * elapsed delta k
    /\ rotation_x pts = rotation_x pts0 + ry * elapsed delta k.
Proof.
  induction k as [|k (pts & E & Hy & Hx)].
  - exists pts0. cbn [frames elapsed]. split; [reflexivity|]. split; ring.
  - cbn [frames]. rewrite E. cbn [useFrame fst snd]. eexists. split; [reflexivity|].
    cbn [rotation_x rotation_y elapsed]. rewrite Hy, Hx. split; ring.
Qed.

(** X20. The live positions do not depend on the frame durations nor on the
    rotation influence, and the starting positions are forgotten
    geometrically: two runs with the same clock readings, expansion,
    descriptor and particle set differ, after k frames, by 0.92^k times the
    difference of their starting positions, in every coordinate. *)
Theorem frames_forget_start (time delta delta' : nat -> R)
    (rotationInfluence rotationInfluence' : nat -> R * R) (e : R)
    (bodyConfig : CelestialBodyConfig) (p : Particles.t) (pts0 pts0' : Points)
    (i c k : nat) :
  length (positions pts0) = (count * 3)%nat ->
  length (positions pts0') = (count * 3)%nat ->
  (i < count)%nat -> (c < 3)%nat ->
  read (positions_of (frames k time delta rotationInfluence e bodyConfig p (Some pts0)))
       (i * 3 + c)
  - read (positions_of (frames k time delta' rotationInfluence' e bodyConfig p
                          (Some pts0'))) (i * 3 + c)
  = 0.92 ^ k * (read (positions pts0) (i * 3 + c) - read (positions pts0') (i * 3 + c)).
Proof.
  intros L L' Hi Hc. induction k as [|k IH].
  - cbn [frames positions_of pow]. ring.
  - destruct (frames_step time delta rotationInfluence e bodyConfig p pts0 L k)
      as (_ & S1).
    destruct (frames_step time delta' rotationInfluence' e bodyConfig p pts0' L' k)
      as (_ & S2).
    rewrite (S1 i c Hi Hc), (S2 i c Hi Hc).
    unfold advance, lerpSpeed. cbn [pow].
    remember (read (positions_of (frames k time delta rotationInfluence e bodyConfig p
                                    (Some pts0))) (i * 3 + c)) as x eqn:Ex.
    remember (read (positions_of (frames k time delta' rotationInfluence' e bodyConfig p
                                    (Some pts0'))) (i * 3 + c)) as x' eqn:Ex'.
    revert IH. generalize (0.92 ^ k). intros q IH.
    generalize dependent (read (positions pts0) (i * 3 + c) - read (positions pts0') (i * 3 + c)).
    intros d IH.
    replace (x + (blend_target e p (i * 3 + c)
                  + oscillation (time k) e bodyConfig p i c - x) * 0.08
             - (x' + (blend_target e p (i * 3 + c)
                      + oscillation (time k) e bodyConfig p i c - x') * 0.08))
      with (0.92 * (x - x')) by lra.
    rewrite IH. ring.
Qed.

(** * Muting *)

(** X21. The mute flag of the component and the mute flag of the audio
    service stay equal over any sequence of clicks on the mute button, each
    click flips them, and the music volume is 0 when muted and 0.24 when not;
    so a sound the hand handler asks for (it asks only when the component is
    not muted) is never dropped by the service. *)
Theorem mute_flags_agree (clicks : list (bool * bool)) (st : App.State)
    (a : AudioService.t) :
  App.isMuted st = AudioService.isMuted a ->
  let '(st', a') := App.toggles clicks st a in
  App.isMuted st' = AudioService.isMuted a'
  /\ App.isMuted st' = xorb (App.isMuted st) (Nat.odd (length clicks))
  /\ (clicks <> [] ->
      AudioService.bgm_volume a' = if App.isMuted st' then 0 else 0.24)
  /\ (App.isMuted st' = false ->
      forall useFallback,
        AudioService.playExpand useFallback a' <> []
        /\ AudioService.playContract useFallback a' <> []).
Proof.
  revert st a. induction clicks as [|[initialized useFallback] rest IH]; intros st a H.
  - cbn [App.toggles length Nat.odd]. split; [exact H|].
    split; [now rewrite xorb_false_r|]. split; [congruence|].
    intros Hm uf. unfold AudioService.playExpand, AudioService.playContract.
    rewrite <- H, Hm. destruct uf; split; discriminate.
  - cbn [App.toggles]. unfold App.toggleMute, AudioService.setVolume.
    destruct (App.isMuted st) eqn:Em.
    + destruct (Req_dec_T 0.4 0) as [E|_]; [lra|].
      match goal with
      | |- context [App.toggles rest ?s1 ?a1] =>
          specialize (IH s1 a1 eq_refl); destruct (App.toggles rest s1 a1) as [st' a'] eqn:Et
      end.
      cbn [App.isMuted AudioService.isMuted] in IH.
      destruct IH as (I1 & I2 & I3 & I4).
      split; [exact I1|]. split.
      { rewrite I2. cbn [length]. rewrite Nat.odd_succ, <- Nat.negb_odd.
        destruct (Nat.odd (length rest)); reflexivity. }
      split; [|exact I4].
      intros _. destruct rest as [|c rest']; [|apply I3; discriminate].
      cbn [App.toggles] in Et. injection Et as <- <-.
      cbn [App.isMuted AudioService.bgm_volume]. lra.
    + destruct (Req_dec_T 0 0) as [_|E]; [|contradiction].
      match goal with
      | |- context [App.toggles rest ?s1 ?a1] =>
          specialize (IH s1 a1 eq_refl); destruct (App.toggles rest s1 a1) as [st' a'] eqn:Et
      end.
      cbn [App.isMuted AudioService.isMuted] in IH.
      destruct IH as (I1 & I2 & I3 & I4).
      split; [exact I1|]. split.
      { rewrite I2. cbn [length]. rewrite Nat.odd_succ, <- Nat.negb_odd.
        destruct (Nat.odd (length rest)); reflexivity. }
      split; [|exact I4].
      intros _. destruct rest as [|c rest']; [|apply I3; discriminate].
      cbn [App.toggles] in Et. injection Et as <- <-.
      cbn [App.isMuted AudioService.bgm_volume]. lra.
Qed.

(** * Instances and counterexamples *)

Lemma rnd_zero_range : forall k : nat, 0 <= rnd_zero k < 1.
Proof. intros k. unfold rnd_zero. lra. Qed.

Lemma floor_nat_unique (x : R) (n : nat) :
  INR n <= x < INR n + 1 -> floor_nat x = n.
Proof.
  intros H. unfold floor_nat. rewrite (Math_floor_unique x (Z.of_nat n)).
  - apply Nat2Z.id.
  - now rewrite <- INR_IZR_INZ.
Qed.

(** ** C1: the sampler on a three-colour palette *)

Example getSafeColor_examples (c0 c1 c2 : THREE.Color) :
  sample_spec [c0; c1; c2] NaN = c0
  /\ sample_spec [c0; c1; c2] PosInf = c0
  /\ sample_spec [c0; c1; c2] (Fin (-3.5)) = c0
  /\ sample_spec [c0; c1; c2] (Fin 1.5) = c1
  /\ sample_spec [c0; c1; c2] (Fin 7.9) = c2
  /\ sample_spec [] (Fin 1.5) = THREE.white.
Proof.
  unfold sample_spec. cbn [length].
  rewrite (Math_floor_unique 0 0) by lra.
  rewrite (Math_floor_unique (-3.5) (-4)) by lra.
  rewrite (Math_floor_unique 1.5 1) by lra.
  rewrite (Math_floor_unique 7.9 7) by lra.
  repeat split.
Qed.

(** ** C3 *)



(** ** C7 *)

Lemma ring_particles_in_annulus_witness :
  (forall k : nat, 0 <= rnd_zero k < 1)
  /\ String.eqb (name RingedNoPalette) "Sun" = false
  /\ hasRings RingedNoPalette = true
  /\ radius RingedNoPalette = 3
  /\ Z.of_nat (bodyParticleCount RingedNoPalette) = 41600%Z.
Proof.
  split; [exact rnd_zero_range|].
  split; [reflexivity|]. split; [reflexivity|]. split; [reflexivity|].
  exact (proj1 (ring_particles_in_annulus rnd_zero parse_white rnd_zero_range
                  RingedNoPalette initial_store eq_refl eq_refl eq_refl)).
Defined.

(** ** C8 *)

(** Counterexample to C8 as stated: for the Sun, a star, the intensity at
    expansion 0.09 exceeds the intensity at expansion 0.1. *)
Lemma noiseIntensity_counterexample :
  0 <= 0.09 /\ 0.09 < 0.1 /\ 0.1 <= 1
  /\ ~ (noiseIntensity Sun 0.09 <= noiseIntensity Sun 0.1).
Proof.
  repeat (split; [lra|]).
  unfold noiseIntensity, Rltb. cbn [type Sun is_star andb].
  destruct (Rlt_dec 0.09 0.1); [|lra].
  destruct (Rlt_dec 0.1 0.1); lra.
Qed.

Lemma noiseIntensity_monotone_witness :
  0 <= 0.2 /\ 0.2 < 0.7 /\ 0.7 <= 1
  /\ noiseIntensity Mercury 0.2 <= noiseIntensity Mercury 0.7.
Proof.
  assert (H0 : 0 <= 0.2) by lra.
  assert (H1 : 0.2 < 0.7) by lra.
  assert (H2 : 0.7 <= 1) by lra.
  repeat (split; [assumption|]).
  refine (proj1 (noiseIntensity_monotone Mercury 0.2 0.7 H0 H1 H2 _)).
  cbn [type Mercury]. discriminate.
Defined.

(** ** C5 *)

(** Counterexample to C5 as stated: on the catalog whose only entry is the
    current body, no amount of fuel lets the loop return. *)
Lemma single_body_counterexample :
  ~ (exists fuel b s',
        changeCelestialBody rnd_zero fuel [Sun] Sun initial_store = Ok (Some b) s').
Proof.
  intros (fuel & b & s' & H).
  rewrite changeCelestialBody_never in H; [discriminate|].
  intros j. exists Sun. split; [|reflexivity].
  unfold draw_index, rnd_zero. cbn [length].
  rewrite (floor_nat_unique _ O); [reflexivity|]. cbn [INR]. lra.
Qed.

Lemma rnd_late_redraw (j : nat) :
  (j < 2)%nat -> redraw rnd_late CELESTIAL_BODIES Sun (j + draws initial_store).
Proof.
  intros Hj. exists Sun. split; [|reflexivity].
  unfold draw_index, rnd_late. cbn [draws initial_store]. rewrite Nat.add_0_r.
  destruct (Nat.ltb_spec j 2); [|lia].
  rewrite (floor_nat_unique _ O); [reflexivity|]. cbn [INR]. lra.
Qed.

Lemma rnd_late_accept :
  accept rnd_late CELESTIAL_BODIES Sun (2 + draws initial_store) Mercury.
Proof.
  split; [|reflexivity].
  unfold draw_index, rnd_late. cbn [draws initial_store Nat.add Nat.ltb Nat.leb].
  rewrite (floor_nat_unique _ 1%nat); [reflexivity|].
  change (length CELESTIAL_BODIES) with 11%nat. cbn [INR]. lra.
Qed.

Lemma changeCelestialBody_termination_witness :
  (forall j, (j < 2)%nat -> redraw rnd_late CELESTIAL_BODIES Sun (j + draws initial_store))
  /\ accept rnd_late CELESTIAL_BODIES Sun (2 + draws initial_store) Mercury
  /\ changeCelestialBody rnd_late 2 CELESTIAL_BODIES Sun initial_store
     = Ok None (ticks 2 initial_store)
  /\ changeCelestialBody rnd_late 3 CELESTIAL_BODIES Sun initial_store
     = Ok (Some Mercury) (ticks 3 initial_store).
Proof.
  split; [exact rnd_late_redraw|]. split; [exact rnd_late_accept|].
  destruct (changeCelestialBody_termination rnd_late CELESTIAL_BODIES Sun
              initial_store 2%nat Mercury rnd_late_redraw rnd_late_accept)
    as (H1 & H2).
  split; [apply H1; lia | apply H2; lia].
Defined.

(** ** C4 *)



Lemma catalog_names_distinct : NoDup (map name CELESTIAL_BODIES).
Proof.
  cbn [map CELESTIAL_BODIES name Sun Mercury Venus Earth Moon_body Mars Jupiter Saturn
       Uranus Neptune Pluto].
  repeat (constructor; [cbn [In]; intuition discriminate|]). constructor.
Qed.




(** ** C2 *)

Lemma rnd_harmonic_inj (j k : nat) : rnd_harmonic j = rnd_harmonic k -> j = k.
Proof.
  unfold rnd_harmonic. intros H. apply Rinv_eq_reg in H.
  apply INR_eq. lra.
Qed.

Lemma wp_exists {A} (m : M A) (Q : A -> store -> Prop) (s : store) :
  wp m Q s -> exists a s', Q a s'.
Proof.
  intros H. apply wp_Ok in H. destruct H as (a & s' & _ & H). now exists a, s'.
Qed.

(** Counterexample to C2 as stated: with a random source whose values are
    all different, the first render for Mercury followed by a render for
    Venus does not leave the seed array unchanged. *)
Lemma seeds_regenerated_counterexample :
  ~ wp (render rnd_harmonic parse_white None Mercury)
       (fun m s1 =>
          wp (render rnd_harmonic parse_white (Some m) Venus)
             (fun m' _ =>
                Particles.initialPositions (particles m')
                = Particles.initialPositions (particles m)
                /\ Particles.randoms (particles m') = Particles.randoms (particles m))
             s1)
       initial_store.
Proof.
  intros H.
  pose proof (render_recomputes rnd_harmonic parse_white None Mercury initial_store I) as G.
  destruct (wp_exists _ _ _ (wp_conj _ _ _ _ H G)) as (m & s1 & H1 & G1).
  destruct G1 as (Hdep & _ & d & _ & Hd & Hseed).
  assert (Hnew : same_body (dep m) Venus = false) by (rewrite Hdep; reflexivity).
  pose proof (render_recomputes rnd_harmonic parse_white (Some m) Venus s1 Hnew) as G'.
  destruct (wp_exists _ _ _ (wp_conj _ _ _ _ H1 G')) as (m' & s2 & (_ & Heq) & G2).
  destruct G2 as (_ & _ & d' & Hd' & _ & Hseed').
  destruct (Hseed O count_pos) as (_ & S0).
  destruct (Hseed' O count_pos) as (_ & S0').
  rewrite Heq, S0 in S0'. unfold seed_point in S0'.
  assert (E : rnd_harmonic (3 + (6 * 0 + d)) = rnd_harmonic (3 + (6 * 0 + d')))
    by congruence.
  apply rnd_harmonic_inj in E. pose proof count_pos. lia.
Qed.

Lemma origin_cloud_per_descriptor_witness :
  same_body (dep stale_memo) Mercury = true
  /\ render rnd_harmonic parse_white (Some stale_memo) Mercury initial_store
     = Ok stale_memo initial_store
  /\ same_body (dep stale_memo) Venus = false
  /\ exists m s',
       render rnd_harmonic parse_white (Some stale_memo) Venus initial_store = Ok m s'
       /\ dep m = Venus.
Proof.
  destruct (origin_cloud_per_descriptor rnd_harmonic parse_white) as (Reuse & Fresh).
  split; [reflexivity|].
  split; [exact (Reuse stale_memo Mercury initial_store eq_refl)|].
  split; [reflexivity|].
  pose proof (Fresh (Some stale_memo) Venus initial_store eq_refl) as G.
  apply wp_Ok in G. destruct G as (m & s' & E & D & _).
  exists m, s'. split; [exact E | exact D].
Defined.

(** ** C9 *)

Lemma noiseIntensity_Mercury_1 : noiseIntensity Mercury 1 = 0.82.
Proof.
  unfold noiseIntensity. cbn [type Mercury is_star andb]. lra.
Qed.

Lemma cos_time_slow (k : nat) : cos (time_slow k * 0.3 + 0 * 100) = 1.
Proof.
  unfold time_slow.
  replace (20 * PI * INR k * 0.3 + 0 * 100) with (0 + 2 * INR (3 * k) * PI)
    by (rewrite mult_INR; cbn [INR]; lra).
  rewrite cos_period. apply cos_0.
Qed.

(** The run of the counterexample: coordinate y of particle 0 climbs to
    0.164 and stays away from the origin position 0. *)
Lemma slow_run (k : nat) :
  read (positions_of (frames k time_slow (fun _ => 0.016) (fun _ => (0, 0)) 1 Mercury
                        zero_particles (Some zero_points))) (0 * 3 + 1)
  = 0.164 * (1 - 0.92 ^ k).
Proof.
  induction k as [|k IH].
  - cbn [frames positions_of zero_points positions]. rewrite read_new_Float32Array.
    cbn [pow]. lra.
  - destruct (frames_step time_slow (fun _ => 0.016) (fun _ => (0, 0)) 1 Mercury
                zero_particles zero_points (new_Float32Array_length _) k) as (_ & G).
    rewrite (G O 1%nat count_pos ltac:(lia)), IH.
    unfold advance, blend_target, oscillation, lerpSpeed.
    cbn [zero_particles Particles.initialPositions Particles.targetPositions
         Particles.randoms].
    rewrite !read_new_Float32Array, cos_time_slow, noiseIntensity_Mercury_1.
    cbn [pow]. lra.
Qed.

Lemma pow_092_tail (m : nat) : 0.92 ^ (20 + m) <= 0.92 ^ 20.
Proof.
  induction m as [|m IH].
  - rewrite Nat.add_0_r. lra.
  - replace (20 + S m)%nat with (S (20 + m)) by lia.
    change (0.92 ^ S (20 + m)) with (0.92 * 0.92 ^ (20 + m)).
    assert (0 <= 0.92 ^ (20 + m)) by (apply pow_le; lra). lra.
Qed.

Lemma pow_092_20 : 0.92 ^ 20 < 0.2.
Proof.
  assert (H4 : 0.92 ^ 4 < 0.72) by (cbn [pow]; lra).
  assert (P4 : 0 <= 0.92 ^ 4) by (apply pow_le; lra).
  replace (0.92 ^ 20) with (0.92 ^ 4 * 0.92 ^ 4 * 0.92 ^ 4 * 0.92 ^ 4 * 0.92 ^ 4).
  - set (q := 0.92 ^ 4) in *.
    assert (q * q < 0.72 * 0.72) by nra.
    assert (q * q * q < 0.72 * 0.72 * 0.72) by nra.
    assert (q * q * q * q < 0.72 * 0.72 * 0.72 * 0.72) by nra.
    nra.
  - rewrite <- !pow_add. reflexivity.
Qed.

(** Counterexample to C9 as stated: with the expansion held at 1, frames
    20 pi seconds apart and the seeds all 0, coordinate y of particle 0
    never comes within 0.1 of its origin position and stays there. *)
Lemma live_position_counterexample :
  ~ (forall eps, 0 < eps ->
       exists K, forall k, (K <= k)%nat ->
         exists pts,
           frames k time_slow (fun _ => 0.016) (fun _ => (0, 0)) 1 Mercury
             zero_particles (Some zero_points) = Some pts
           /\ Rabs (read (positions pts) (0 * 3 + 1)
                    - read (Particles.initialPositions zero_particles) (0 * 3 + 1)) < eps).
Proof.
  intros H. destruct (H 0.1 ltac:(lra)) as (K & HK).
  destruct (HK (20 + K)%nat ltac:(lia)) as (pts & E & B).
  pose proof (slow_run (20 + K)) as R. rewrite E in R. cbn [positions_of] in R.
  rewrite R in B.
  cbn [zero_particles Particles.initialPositions] in B.
  rewrite read_new_Float32Array in B.
  pose proof (pow_092_tail K) as T. pose proof pow_092_20 as P.
  apply Rabs_def2 in B. lra.
Qed.

Lemma live_position_settles_witness :
  length (positions zero_points) = (count * 3)%nat
  /\ (0 < count)%nat /\ (1 < 3)%nat /\ 0 < 1
  /\ exists K, forall k, (K <= k)%nat ->
       exists pts,
         frames k time_slow (fun _ => 0.016) (fun _ => (0, 0)) 1 Mercury
           zero_particles (Some zero_points) = Some pts
         /\ Rabs (read (positions pts) (0 * 3 + 1)
                  - read (Particles.initialPositions zero_particles) (0 * 3 + 1))
            < 0.82 * 0.2 + 1.
Proof.
  assert (L : length (positions zero_points) = (count * 3)%nat)
    by apply new_Float32Array_length.
  assert (H13 : (1 < 3)%nat) by lia.
  split; [exact L|]. split; [exact count_pos|]. split; [exact H13|].
  split; [exact Rlt_0_1|].
  exact (proj1 (live_position_settles time_slow (fun _ => 0.016) (fun _ => (0, 0))
                  Mercury zero_particles zero_points O 1%nat 1 L count_pos H13 Rlt_0_1)).
Defined.

(** ** Instances of the further properties *)

Lemma origin_cloud_in_ball_witness :
  (forall k : nat, 0 <= rnd_zero k < 1)
  /\ exists p s',
       generate rnd_zero parse_white Mercury initial_store = Ok p s'
       /\ let '(x, y, z) := particle (Particles.initialPositions p) 0 in
          sqrt (x * x + y * y + z * z) < 50.
Proof.
  split; [exact rnd_zero_range|].
  pose proof (origin_cloud_in_ball rnd_zero parse_white rnd_zero_range Mercury
                initial_store) as G.
  apply wp_Ok in G. destruct G as (p & s' & E & H).
  exists p, s'. split; [exact E|].
  destruct (H O count_pos) as (H1 & _).
  destruct (particle (Particles.initialPositions p) 0) as [[x y] z].
  exact (proj1 H1).
Defined.


Lemma earth_particles_witness :
  String.eqb (name Earth) "Earth" = true
  /\ exists p s',
       generate rnd_zero parse_white Earth initial_store = Ok p s'
       /\ (norm3 (particle (Particles.targetPositions p) 0) = Rabs (radius Earth)
           \/ norm3 (particle (Particles.targetPositions p) 0)
              = (1 + 0.04) * Rabs (radius Earth)).
Proof.
  split; [reflexivity|].
  pose proof (earth_particles rnd_zero parse_white Earth initial_store eq_refl) as G.
  apply wp_Ok in G. destruct G as (p & s' & E & H).
  exists p, s'. split; [exact E|].
  destruct (H O count_pos (or_intror eq_refl)) as [(H1 & _)|(H1 & _)];
    [left | right]; exact H1.
Defined.

Lemma ring_particles_general_witness :
  (forall k : nat, 0 <= rnd_zero k < 1)
  /\ String.eqb (name Saturn) "Sun" = false
  /\ hasRings Saturn = true
  /\ 0 <= radius Saturn
  /\ exists p s',
       generate rnd_zero parse_white Saturn initial_store = Ok p s'
       /\ Rabs (height (particle (Particles.targetPositions p)
                          (bodyParticleCount Saturn))) <= 0.025.
Proof.
  assert (Hr : 0 <= radius Saturn) by (cbn [radius Saturn]; lra).
  split; [exact rnd_zero_range|].
  split; [reflexivity|]. split; [reflexivity|]. split; [exact Hr|].
  pose proof (ring_particles_general rnd_zero parse_white rnd_zero_range Saturn
                initial_store eq_refl eq_refl Hr) as G.
  apply wp_Ok in G. destruct G as (p & s' & E & H).
  exists p, s'. split; [exact E|].
  assert (Hi : (bodyParticleCount Saturn <= bodyParticleCount Saturn < count)%nat).
  { pose proof (ringParticleCount_rings Saturn eq_refl) as (_ & Hb).
    pose proof count_Z. lia. }
  exact (proj1 (proj2 (H _ Hi))).
Defined.

Lemma solar_system_partition_witness :
  String.eqb (name Sun) "Sun" = true
  /\ exists p s',
       generate rnd_zero parse_white Sun initial_store = Ok p s'
       /\ solar_particle rnd_zero parse_white (map parse_white (colors Sun))
            (THREE.mkColor 0.2 0.4 0.8) (THREE.mkColor 0.5 0.5 0.5) 0
            (particle (Particles.targetPositions p) 0)
            (particle (Particles.colors p) 0).
Proof.
  split; [reflexivity|].
  pose proof (solar_system_partition rnd_zero parse_white Sun initial_store eq_refl) as G.
  apply wp_Ok in G. destruct G as (p & s' & E & H).
  exists p, s'. split; [exact E|]. exact (H O count_pos).
Defined.

Lemma sunCount_pos : (0 < sunCount)%nat.
Proof. destruct solar_sizes as (Zs & _). lia. Qed.

Lemma solar_sun_core_witness :
  String.eqb (name Sun) "Sun" = true
  /\ exists p s',
       generate rnd_zero parse_white Sun initial_store = Ok p s'
       /\ norm3 (particle (Particles.targetPositions p) 0) = 3.5.
Proof.
  split; [reflexivity|].
  pose proof (solar_sun_core rnd_zero parse_white Sun initial_store eq_refl) as G.
  apply wp_Ok in G. destruct G as (p & s' & E & H).
  exists p, s'. split; [exact E|]. exact (proj1 (H O sunCount_pos)).
Defined.

Lemma radii_nonempty : (0 < length radii)%nat.
Proof. destruct solar_sizes as (_ & _ & Lr & _). lia. Qed.

Lemma particlesInRing_pos : (0 < particlesInRing)%nat.
Proof. destruct solar_sizes as (_ & _ & _ & _ & Zr & _). lia. Qed.

Lemma asteroidCount_pos : (0 < asteroidCount)%nat.
Proof. destruct solar_sizes as (_ & Za & _). lia. Qed.

Lemma particlesPerPlanet_pos : (0 < particlesPerPlanet)%nat.
Proof. destruct solar_sizes as (_ & _ & _ & _ & _ & Zp). lia. Qed.

Lemma solar_orbit_circles_witness :
  (forall k : nat, 0 <= rnd_zero k < 1)
  /\ String.eqb (name Sun) "Sun" = true
  /\ exists p s',
       generate rnd_zero parse_white Sun initial_store = Ok p s'
       /\ Rabs (radial 0 0 (particle (Particles.targetPositions p)
                              (sunCount + 0 * particlesInRing + 0))
                - nth 0 radii 0) <= 0.05.
Proof.
  split; [exact rnd_zero_range|]. split; [reflexivity|].
  pose proof (solar_orbit_circles rnd_zero parse_white rnd_zero_range Sun initial_store
                eq_refl) as G.
  apply wp_Ok in G. destruct G as (p & s' & E & H).
  exists p, s'. split; [exact E|].
  exact (proj1 (H O O radii_nonempty particlesInRing_pos)).
Defined.

Lemma solar_asteroid_belt_witness :
  (forall k : nat, 0 <= rnd_zero k < 1)
  /\ String.eqb (name Sun) "Sun" = true
  /\ exists p s',
       generate rnd_zero parse_white Sun initial_store = Ok p s'
       /\ 14.5 <= radial 0 0 (particle (Particles.targetPositions p)
                                (sunCount + length radii * particlesInRing + 0)) < 17.5.
Proof.
  split; [exact rnd_zero_range|]. split; [reflexivity|].
  pose proof (solar_asteroid_belt rnd_zero parse_white rnd_zero_range Sun initial_store
                eq_refl) as G.
  apply wp_Ok in G. destruct G as (p & s' & E & H).
  exists p, s'. split; [exact E|].
  exact (proj1 (H O asteroidCount_pos)).
Defined.

Lemma ring_index_in_planet : (1890 < particlesPerPlanet)%nat.
Proof. rewrite particlesPerPlanet_2700. lia. Qed.

Lemma solar_mini_planets_witness :
  (forall k : nat, 0 <= rnd_zero k < 1)
  /\ String.eqb (name Sun) "Sun" = true
  /\ nth_error planetList 6 = Some Saturn
  /\ (1890 < particlesPerPlanet)%nat
  /\ exists p s',
       generate rnd_zero parse_white Sun initial_store = Ok p s'
       /\ radius Saturn * 0.21
          <= radial (fst (planet_centre 6)) (snd (planet_centre 6))
               (particle (Particles.targetPositions p)
                  (sunCount + length radii * particlesInRing + asteroidCount
                   + 6 * particlesPerPlanet + 1890))
          <= radius Saturn * 0.33.
Proof.
  split; [exact rnd_zero_range|]. split; [reflexivity|]. split; [reflexivity|].
  split; [exact ring_index_in_planet|].
  pose proof (solar_mini_planets rnd_zero parse_white rnd_zero_range Sun initial_store
                eq_refl) as G.
  apply wp_Ok in G. destruct G as (p & s' & E & H).
  exists p, s'. split; [exact E|].
  pose proof (H 6%nat Saturn 1890%nat eq_refl ring_index_in_planet) as H0.
  cbv zeta in H0.
  assert (Et : hasRings Saturn && Nat.leb 1890 1890 = true) by reflexivity.
  rewrite Et in H0. exact (proj1 H0).
Defined.

Lemma predict_open_hand :
  predict true [open_hand]
  = Updated true (Fin 0.8) ((0.5 + 0.5 + 0.7) / 3, (0.8 + 0.6 + 0.6) / 3).
Proof.
  unfold predict, open_hand, palm. cbn [negb nth_error]. cbv zeta.
  cbn [Landmark.x Landmark.y].
  assert (E1 : sqrt ((0.5 - 0.5) ^ 2 + (0.6 - 0.8) ^ 2) = 0.2)
    by (apply sqrt_lem_1; lra).
  assert (E2 : sqrt ((0.5 - 0.5) ^ 2 + (0.4 - 0.8) ^ 2) = 0.4)
    by (apply sqrt_lem_1; lra).
  assert (E3 : sqrt ((0.3 - 0.7) ^ 2 + (0.6 - 0.6) ^ 2) = 0.4)
    by (apply sqrt_lem_1; lra).
  rewrite E1, E2, E3. unfold js_div.
  destruct (Req_dec_T 0.2 0) as [H|_]; [lra|].
  cbn [js_gt js_affine Math_max Math_min]. unfold Rgtb.
  destruct (Rgt_dec (0.4 / 0.2) 1.3) as [_|H]; [|lra].
  destruct (Rgt_dec (0.4 / 0.2) 0.8) as [_|H]; [|lra].
  cbn [andb]. f_equal. f_equal. unfold Rmin, Rmax.
  destruct (Rle_dec ((0.4 / 0.2 - 0.8) / 1.5) 0); [lra|].
  destruct (Rle_dec ((0.4 / 0.2 - 0.8) / 1.5) 1); lra.
Qed.

Lemma predict_score_witness :
  predict true [open_hand]
  = Updated true (Fin 0.8) ((0.5 + 0.5 + 0.7) / 3, (0.8 + 0.6 + 0.6) / 3)
  /\ (exists v, Fin 0.8 = Fin v /\ 0 <= v <= 1)
  /\ (exists v, Fin 0.8 = Fin v /\ / 3 < v <= 1).
Proof.
  split; [exact predict_open_hand|].
  destruct (predict_score true open_hand [] true (Fin 0.8) _ predict_open_hand)
    as (wrist & indexMcp & middleTip & _ & _ & _ & _ & Hrange & Hopen).
  split; [apply Hrange; discriminate | exact (Hopen eq_refl)].
Defined.

Lemma half_pos : 0 < 0.5.
Proof. lra. Qed.

Lemma predict_zoom_witness :
  0 < 0.5
  /\ predict true [open_hand]
     = Updated true (Fin 0.8) ((0.5 + 0.5 + 0.7) / 3, (0.8 + 0.6 + 0.6) / 3)
  /\ predict true [map (zoom 0.5 0.25 0.1) open_hand]
     = Updated true (Fin 0.8)
         (0.5 * ((0.5 + 0.5 + 0.7) / 3) + 0.25, 0.5 * ((0.8 + 0.6 + 0.6) / 3) + 0.1).
Proof.
  split; [exact half_pos|]. split; [exact predict_open_hand|].
  exact (predict_zoom 0.5 0.25 0.1 true open_hand [] [] true (Fin 0.8) _ _ half_pos
           predict_open_hand).
Defined.

Lemma open_hand_in_image :
  forall hand l, In hand [open_hand] -> In l hand ->
                 0 <= Landmark.x l <= 1 /\ 0 <= Landmark.y l <= 1.
Proof.
  intros hand l [<-|[]] Hl. unfold open_hand, palm in Hl.
  repeat (destruct Hl as [<-|Hl]; [cbn [Landmark.x Landmark.y]; split; lra|]).
  destruct Hl.
Qed.

Lemma hand_rotation_range_witness :
  predict true [open_hand]
  = Updated true (Fin 0.8) ((0.5 + 0.5 + 0.7) / 3, (0.8 + 0.6 + 0.6) / 3)
  /\ (forall hand l, In hand [open_hand] -> In l hand ->
                     0 <= Landmark.x l <= 1 /\ 0 <= Landmark.y l <= 1)
  /\ -1 <= fst (App.handRotation
                  (fst (App.handleHandUpdate app_start true (Fin 0.8)
                          ((0.5 + 0.5 + 0.7) / 3, (0.8 + 0.6 + 0.6) / 3) app_start))) <= 1
  /\ -1 <= snd (App.handRotation
                  (fst (App.handleHandUpdate app_start true (Fin 0.8)
                          ((0.5 + 0.5 + 0.7) / 3, (0.8 + 0.6 + 0.6) / 3) app_start))) <= 1.
Proof.
  split; [exact predict_open_hand|]. split; [exact open_hand_in_image|].
  exact (proj1 (hand_rotation_range true [open_hand] true (Fin 0.8) _ app_start app_start
                  predict_open_hand open_hand_in_image)).
Defined.

Lemma app_start_expansion : 0 <= App.expansion app_start <= 1.
Proof. cbn [App.expansion app_start]. lra. Qed.

Lemma expansion_in_unit_interval_witness :
  0 <= App.expansion app_start <= 1
  /\ 0 <= App.expansion (fst (App.handUpdates [closing] app_start)) <= 1.
Proof.
  split; [exact app_start_expansion|].
  exact (expansion_in_unit_interval [closing] app_start app_start_expansion).
Defined.

Lemma closing_closes : Forall (fun u : App.Update => fst (fst (snd u)) = false) [closing].
Proof. constructor; [reflexivity | constructor]. Qed.

Lemma expansion_geometric_witness :
  Forall (fun u : App.Update => fst (fst (snd u)) = false) [closing]
  /\ App.expansion (fst (App.handUpdates [closing] app_start)) - 0
     = 0.9 ^ 1 * (App.expansion app_start - 0).
Proof.
  split; [exact closing_closes|].
  exact (expansion_geometric false [closing] app_start closing_closes).
Defined.

Lemma closing_fresh : App.fresh [closing] app_start.
Proof. split; [reflexivity | exact I]. Qed.

Lemma calls_follow_hand_witness :
  App.fresh [closing] app_start
  /\ (calls_of Call.changeCelestialBody (snd (App.handUpdates [closing] app_start))
      + Nat.b2n (App.isHandOpen (fst (App.handUpdates [closing] app_start)))
      = calls_of Call.triggerNewPhrase (snd (App.handUpdates [closing] app_start))
        + Nat.b2n (App.isHandOpen app_start))%nat.
Proof.
  split; [exact closing_fresh|].
  exact (proj1 (calls_follow_hand [closing] app_start closing_fresh)).
Defined.

Lemma zero_points_length : length (positions zero_points) = (count * 3)%nat.
Proof. apply new_Float32Array_length. Qed.

Lemma frames_forget_start_witness :
  length (positions zero_points) = (count * 3)%nat
  /\ (0 < count)%nat /\ (0 < 3)%nat
  /\ read (positions_of (frames 1 time_slow (fun _ => 0.016) (fun _ => (0, 0)) 1 Mercury
                           zero_particles (Some zero_points))) (0 * 3 + 0)
     - read (positions_of (frames 1 time_slow (fun _ => 0.033) (fun _ => (1, 1)) 1 Mercury
                             zero_particles (Some zero_points))) (0 * 3 + 0)
     = 0.92 ^ 1 * (read (positions zero_points) (0 * 3 + 0)
                   - read (positions zero_points) (0 * 3 + 0)).
Proof.
  assert (H3 : (0 < 3)%nat) by lia.
  split; [exact zero_points_length|]. split; [exact count_pos|]. split; [exact H3|].
  exact (frames_forget_start time_slow (fun _ => 0.016) (fun _ => 0.033)
           (fun _ => (0, 0)) (fun _ => (1, 1)) 1 Mercury zero_particles
           zero_points zero_points O O 1%nat zero_points_length zero_points_length
           count_pos H3).
Defined.

Lemma mute_flags_agree_witness :
  App.isMuted app_start = AudioService.isMuted audio_start
  /\ App.isMuted (fst (App.toggles [(false, false)] app_start audio_start))
     = AudioService.isMuted (snd (App.toggles [(false, false)] app_start audio_start)).
Proof.
  split; [reflexivity|].
  pose proof (mute_flags_agree [(false, false)] app_start audio_start eq_refl) as H.
  destruct (App.toggles [(false, false)] app_start audio_start) as [st' a'].
  exact (proj1 H).
Defined.
